(** * Page-replacement simulator: FIFO, LRU, OPT and CLOCK

    A shallow embedding of [algorithms.js] (the [PageAlgo.simulate] entry
    point and its four engines) together with the properties its
    specification states about it.

    Conventions of the embedding.
    - An entry identifier (a page) is an integer, [Z]; a slot holds
      [Some page] or [None] for JavaScript's [null].
    - Loop counters and array positions are [nat]; a number that the source
      lets be negative or infinite ([victimIndex = -1], [farthestNextUse = -1],
      [Infinity], [-Infinity]) is a [Z] or an [xnum].
    - A JavaScript call returns a value or throws: [result].  The CLOCK scan
      is a [while (true)] loop; it is run on fuel and [OutOfFuel] is the
      outcome of a run the fuel did not suffice for.
    - Array writes are stdpp's list insert.  Every index the engines write at
      is below [frames.length] whenever [framesCount >= 1], which [simulate]
      checks before it calls an engine, so the out-of-range behaviour of
      JavaScript arrays (extension) is never exercised. *)

From Stdlib Require Import ZArith QArith String List Lia.
From stdpp Require Import base tactics option list gmap strings.

Local Open Scope string_scope.
Local Open Scope nat_scope.

(** ** Outcomes of a call *)

Inductive result (A : Type) : Type :=
| Ok (a : A)
| Throw (msg : string)
| OutOfFuel.
Arguments Ok {A} a.
Arguments Throw {A} msg.
Arguments OutOfFuel {A}.

(** Sequencing: a failure of the first call is the failure of the whole. *)
#[global] Instance result_bind : MBind result := λ A B k m,
  match m with
  | Ok a => k a
  | Throw msg => Throw msg
  | OutOfFuel => OutOfFuel
  end.
#[global] Instance result_ret : MRet result := λ A a, Ok a.

(** [assert(cond, msg)]: throws [Error(msg)] unless [cond]. *)
Definition assert (cond : bool) (msg : string) : result unit :=
  if cond then Ok tt else Throw msg.

(** ** Numbers with infinities *)

Inductive xnum : Type :=
| NegInf
| Fin (z : Z)
| PosInf.

(** JavaScript's [a < b] on such numbers. *)
Definition xlt (a b : xnum) : bool :=
  match a, b with
  | NegInf, NegInf => false
  | NegInf, _ => true
  | Fin _, NegInf => false
  | Fin x, Fin y => (x <? y)%Z
  | Fin _, PosInf => true
  | PosInf, _ => false
  end.

(** [a > b] is [b < a]. *)
Definition xgt (a b : xnum) : bool := xlt b a.

(** ** Step records *)

(** The rationale string of a step is built from a fixed template and the
    numbers spliced into it; the template and the numbers are kept, the
    rendering of the numbers as decimal text is not. *)
Inductive Note : Type :=
| NoteEmpty
| NoteHitPresent (p : Z)
| NoteHitLRU (p : Z) (i : nat)
| NoteHitClock (p : Z) (hitIndex : nat)
| NoteEmptyFrame (p : Z) (emptyIndex : nat)
| NoteEmptyFrameClock (p : Z) (emptyIndex : nat)
| NoteFIFO (victimPage : option Z) (victimIndex : nat)
| NoteLRU (victimPage : option Z) (victimIndex : Z) (minLastUsed : xnum)
| NoteOPTNever (victimPage : option Z)
| NoteOPTFarthest (victimPage : option Z) (farthestNextUse : xnum)
| NoteClock (victimPage : option Z) (victimIndex : nat) (scans : nat).

Record Meta : Type := mkMeta {
  metaRefBits : list Z;
  metaHand : nat
}.

Record Step : Type := mkStep {
  index : nat;
  page : Z;
  frames : list (option Z);
  hit : bool;
  fault : bool;
  replaced : option Z;
  replacedIndex : option Z;
  note : Note;
  meta : option Meta
}.

Definition cloneArray {A : Type} (arr : list A) : list A := arr.

Definition makeStep (i : nat) (page : Z) (frames : list (option Z)) : Step :=
  {| index := i; page := page; frames := cloneArray frames;
     hit := false; fault := false; replaced := None; replacedIndex := None;
     note := NoteEmpty; meta := None |}.

(** Field assignments [step.f = v]. *)
Definition setHit (s : Step) : Step :=
  mkStep (index s) (page s) (frames s) true (fault s) (replaced s)
         (replacedIndex s) (note s) (meta s).
Definition setFault (s : Step) : Step :=
  mkStep (index s) (page s) (frames s) (hit s) true (replaced s)
         (replacedIndex s) (note s) (meta s).
Definition setNote (n : Note) (s : Step) : Step :=
  mkStep (index s) (page s) (frames s) (hit s) (fault s) (replaced s)
         (replacedIndex s) n (meta s).
Definition setReplaced (v : option Z) (vi : Z) (s : Step) : Step :=
  mkStep (index s) (page s) (frames s) (hit s) (fault s) v
         (Some vi) (note s) (meta s).
Definition setFrames (fr : list (option Z)) (s : Step) : Step :=
  mkStep (index s) (page s) (cloneArray fr) (hit s) (fault s) (replaced s)
         (replacedIndex s) (note s) (meta s).
Definition setMeta (m : Meta) (s : Step) : Step :=
  mkStep (index s) (page s) (frames s) (hit s) (fault s) (replaced s)
         (replacedIndex s) (note s) (Some m).

Record Summary : Type := mkSummary {
  hits : nat;
  faults : nat
}.

Record Output : Type := mkOutput {
  steps : list Step;
  summary : Summary
}.

(** ** Arrays *)

(** [arr.indexOf(x)]: the first position holding [x]; [None] is the
    source's [-1]. *)
Fixpoint indexOf {A : Type} `{EqDecision A} (x : A) (arr : list A) : option nat :=
  match arr with
  | [] => None
  | y :: arr' =>
      if decide (y = x) then Some 0
      else match indexOf x arr' with
           | Some k => Some (S k)
           | None => None
           end
  end.

(** [Array(n).fill(v)] *)
Definition fill {A : Type} (n : nat) (v : A) : list A := replicate n v.

(** [arr[i]] on a slot table; a read past the end yields [None]. *)
Definition slotAt (arr : list (option Z)) (i : nat) : option Z :=
  default None (arr !! i).

(** ** The loop shared by the four engines

    Each engine is [for (let i = 0; i < refs.length; i++) { const p = refs[i];
    ...; steps.push(step); }] over its own state; [forLoop] is that loop with
    the body as a parameter, [rest] being [refs] from position [i] on. *)

Section ForLoop.
Context {St : Type}.
Variable body : nat → Z → St → result (St * Step).

Fixpoint forLoop (i : nat) (rest : list Z) (st : St) : result (St * list Step) :=
  match rest with
  | [] => Ok (st, [])
  | p :: rest' =>
      '(st', step) ← body i p st;
      '(stf, steps') ← forLoop (S i) rest' st';
      Ok (stf, step :: steps')
  end.
End ForLoop.

(** ** FIFO *)

Record FifoState : Type := mkFifo {
  fifoFrames : list (option Z);
  fifoPointer : nat;
  fifoHits : nat;
  fifoFaults : nat
}.

(** The end of an iteration: [step.frames = cloneArray(frames);
    steps.push(step)]. *)
Definition fifoPush (st : FifoState) (step : Step) : result (FifoState * Step) :=
  Ok (st, setFrames (fifoFrames st) step).

Definition fifoBody (framesCount : nat) (i : nat) (p : Z) (st : FifoState)
  : result (FifoState * Step) :=
  let step := makeStep i p (fifoFrames st) in
  match indexOf (Some p) (fifoFrames st) with
  | Some hitIndex =>
      fifoPush
        (mkFifo (fifoFrames st) (fifoPointer st) (S (fifoHits st)) (fifoFaults st))
        (setNote (NoteHitPresent p) (setHit step))
  | None =>
      let step := setFault step in
      let faults' := S (fifoFaults st) in
      match indexOf None (fifoFrames st) with
      | Some emptyIndex =>
          fifoPush
            (mkFifo (<[emptyIndex := Some p]> (fifoFrames st)) (fifoPointer st)
                    (fifoHits st) faults')
            (setNote (NoteEmptyFrame p emptyIndex) step)
      | None =>
          let victimIndex := fifoPointer st in
          let victimPage := slotAt (fifoFrames st) victimIndex in
          fifoPush
            (mkFifo (<[victimIndex := Some p]> (fifoFrames st))
                    ((fifoPointer st + 1) mod framesCount)
                    (fifoHits st) faults')
            (setNote (NoteFIFO victimPage victimIndex)
                     (setReplaced victimPage (Z.of_nat victimIndex) step))
      end
  end.

Definition fifoInit (framesCount : nat) : FifoState :=
  mkFifo (fill framesCount None) 0 0 0.

Definition simulateFIFO (framesCount : nat) (refs : list Z) : result Output :=
  '(st, steps) ← forLoop (fifoBody framesCount) 0 refs (fifoInit framesCount);
  Ok (mkOutput steps (mkSummary (fifoHits st) (fifoFaults st))).

(** ** LRU *)

Record LruState : Type := mkLru {
  lruFrames : list (option Z);
  lruLastUsed : gmap Z nat;
  lruHits : nat;
  lruFaults : nat
}.

Definition lruPush (st : LruState) (step : Step) : result (LruState * Step) :=
  Ok (st, setFrames (lruFrames st) step).

(** [lastUsed.has(page) ? lastUsed.get(page) : -Infinity]; only pages are
    ever keys of [lastUsed], so [null] is never one. *)
Definition lruStamp (lastUsed : gmap Z nat) (page : option Z) : xnum :=
  match page with
  | Some q =>
      match lastUsed !! q with
      | Some t => Fin (Z.of_nat t)
      | None => NegInf
      end
  | None => NegInf
  end.

(** The running triple [(victimIndex, victimPage, minLastUsed)] of the victim
    scan, and one turn of [for (let fi = 0; fi < framesCount; fi++)]. *)
Definition lruScanStep (frames : list (option Z)) (lastUsed : gmap Z nat)
    (acc : Z * option Z * xnum) (fi : nat) : Z * option Z * xnum :=
  let '(victimIndex, victimPage, minLastUsed) := acc in
  let page := slotAt frames fi in
  let t := lruStamp lastUsed page in
  if xlt t minLastUsed then (Z.of_nat fi, page, t)
  else (victimIndex, victimPage, minLastUsed).

Definition lruVictim (framesCount : nat) (frames : list (option Z))
    (lastUsed : gmap Z nat) : Z * option Z * xnum :=
  foldl (lruScanStep frames lastUsed) ((-1)%Z, None, PosInf) (seq 0 framesCount).

(** [arr[k] = v] for a [k] that may be negative: a negative [k] names a
    property of the array object, not one of its elements. *)
Definition setAtZ {A : Type} (arr : list A) (k : Z) (v : A) : list A :=
  if (k <? 0)%Z then arr else <[Z.to_nat k := v]> arr.

(** [lastUsed.delete(victimPage)] *)
Definition mapDelete (lastUsed : gmap Z nat) (victimPage : option Z) : gmap Z nat :=
  match victimPage with
  | Some q => delete q lastUsed
  | None => lastUsed
  end.

Definition lruBody (framesCount : nat) (i : nat) (p : Z) (st : LruState)
  : result (LruState * Step) :=
  let step := makeStep i p (lruFrames st) in
  match indexOf (Some p) (lruFrames st) with
  | Some hitIndex =>
      lruPush
        (mkLru (lruFrames st) (<[p := i]> (lruLastUsed st))
               (S (lruHits st)) (lruFaults st))
        (setNote (NoteHitLRU p i) (setHit step))
  | None =>
      let step := setFault step in
      let faults' := S (lruFaults st) in
      match indexOf None (lruFrames st) with
      | Some emptyIndex =>
          lruPush
            (mkLru (<[emptyIndex := Some p]> (lruFrames st))
                   (<[p := i]> (lruLastUsed st)) (lruHits st) faults')
            (setNote (NoteEmptyFrame p emptyIndex) step)
      | None =>
          let '(victimIndex, victimPage, minLastUsed) :=
            lruVictim framesCount (lruFrames st) (lruLastUsed st) in
          lruPush
            (mkLru (setAtZ (lruFrames st) victimIndex (Some p))
                   (<[p := i]> (mapDelete (lruLastUsed st) victimPage))
                   (lruHits st) faults')
            (setNote (NoteLRU victimPage victimIndex minLastUsed)
                     (setReplaced victimPage victimIndex step))
      end
  end.

Definition lruInit (framesCount : nat) : LruState :=
  mkLru (fill framesCount None) ∅ 0 0.

Definition simulateLRU (framesCount : nat) (refs : list Z) : result Output :=
  '(st, steps) ← forLoop (lruBody framesCount) 0 refs (lruInit framesCount);
  Ok (mkOutput steps (mkSummary (lruHits st) (lruFaults st))).

(** ** OPT *)

Record OptState : Type := mkOpt {
  optFrames : list (option Z);
  optHits : nat;
  optFaults : nat
}.

Definition optPush (st : OptState) (step : Step) : result (OptState * Step) :=
  Ok (st, setFrames (optFrames st) step).

(** [for (let j = ...; j < refs.length; j++) if (refs[j] === page)
    { nextUse = j; break; }] with [nextUse] starting at [Infinity]; [rest]
    is [refs] from position [j] on. *)
Fixpoint scanNextUse (page : option Z) (j : nat) (rest : list Z) : xnum :=
  match rest with
  | [] => PosInf
  | r :: rest' =>
      if decide (Some r = page) then Fin (Z.of_nat j)
      else scanNextUse page (S j) rest'
  end.

Definition nextUse (refs : list Z) (i : nat) (page : option Z) : xnum :=
  scanNextUse page (i + 1) (drop (i + 1) refs).

Definition optScanStep (refs : list Z) (i : nat) (frames : list (option Z))
    (acc : nat * option Z * xnum) (fi : nat) : nat * option Z * xnum :=
  let '(victimIndex, victimPage, farthestNextUse) := acc in
  let page := slotAt frames fi in
  let nu := nextUse refs i page in
  if xgt nu farthestNextUse then (fi, page, nu)
  else (victimIndex, victimPage, farthestNextUse).

Definition optVictim (framesCount : nat) (refs : list Z) (i : nat)
    (frames : list (option Z)) : nat * option Z * xnum :=
  foldl (optScanStep refs i frames) (0, slotAt frames 0, Fin (-1))
        (seq 0 framesCount).

Definition optBody (framesCount : nat) (refs : list Z) (i : nat) (p : Z)
    (st : OptState) : result (OptState * Step) :=
  let step := makeStep i p (optFrames st) in
  match indexOf (Some p) (optFrames st) with
  | Some hitIndex =>
      optPush (mkOpt (optFrames st) (S (optHits st)) (optFaults st))
              (setNote (NoteHitPresent p) (setHit step))
  | None =>
      let step := setFault step in
      let faults' := S (optFaults st) in
      match indexOf None (optFrames st) with
      | Some emptyIndex =>
          optPush (mkOpt (<[emptyIndex := Some p]> (optFrames st))
                         (optHits st) faults')
                  (setNote (NoteEmptyFrame p emptyIndex) step)
      | None =>
          let '(victimIndex, victimPage, farthestNextUse) :=
            optVictim framesCount refs i (optFrames st) in
          optPush (mkOpt (<[victimIndex := Some p]> (optFrames st))
                         (optHits st) faults')
                  (setNote (match farthestNextUse with
                            | PosInf => NoteOPTNever victimPage
                            | _ => NoteOPTFarthest victimPage farthestNextUse
                            end)
                           (setReplaced victimPage (Z.of_nat victimIndex) step))
      end
  end.

Definition optInit (framesCount : nat) : OptState :=
  mkOpt (fill framesCount None) 0 0.

Definition simulateOPT (framesCount : nat) (refs : list Z) : result Output :=
  '(st, steps) ← forLoop (optBody framesCount refs) 0 refs (optInit framesCount);
  Ok (mkOutput steps (mkSummary (optHits st) (optFaults st))).

(** ** CLOCK *)

Record ClockState : Type := mkClock {
  clockFrames : list (option Z);
  clockRefBits : list Z;
  clockHand : nat;
  clockHits : nat;
  clockFaults : nat
}.

Definition clockPush (st : ClockState) (step : Step) : result (ClockState * Step) :=
  Ok (st, setMeta (mkMeta (cloneArray (clockRefBits st)) (clockHand st))
                  (setFrames (clockFrames st) step)).

(** What the scan hands back when it evicts: the updated table, bits and
    hand, the victim and the number of scan turns. *)
Record Eviction : Type := mkEviction {
  evFrames : list (option Z);
  evRefBits : list Z;
  evHand : nat;
  evVictimPage : option Z;
  evVictimIndex : nat;
  evScans : nat
}.

(** The [while (true)] scan.  [scans] is the counter before the turn's
    [scans++]. *)
Fixpoint clockScan (fuel : nat) (framesCount : nat) (p : Z)
    (frames : list (option Z)) (refBits : list Z) (hand scans : nat)
  : result Eviction :=
  match fuel with
  | 0 => OutOfFuel
  | S fuel' =>
      let scans := S scans in
      if decide (refBits !! hand = Some 0%Z) then
        let victimIndex := hand in
        let victimPage := slotAt frames victimIndex in
        Ok (mkEviction (<[victimIndex := Some p]> frames)
                       (<[victimIndex := 1%Z]> refBits)
                       ((hand + 1) mod framesCount)
                       victimPage victimIndex scans)
      else
        let refBits := <[hand := 0%Z]> refBits in
        let hand := (hand + 1) mod framesCount in
        if framesCount * 5 <? scans then
          Throw "Clock algorithm safety break (unexpected loop)."
        else clockScan fuel' framesCount p frames refBits hand scans
  end.

(** The guard stops the scan after [framesCount * 5 + 1] turns at the
    latest, so that much fuel is never used up. *)
Definition clockFuel (framesCount : nat) : nat := framesCount * 5 + 1.

Definition clockBody (framesCount : nat) (i : nat) (p : Z) (st : ClockState)
  : result (ClockState * Step) :=
  let step := makeStep i p (clockFrames st) in
  match indexOf (Some p) (clockFrames st) with
  | Some hitIndex =>
      clockPush
        (mkClock (clockFrames st) (<[hitIndex := 1%Z]> (clockRefBits st))
                 (clockHand st) (S (clockHits st)) (clockFaults st))
        (setNote (NoteHitClock p hitIndex) (setHit step))
  | None =>
      let step := setFault step in
      let faults' := S (clockFaults st) in
      match indexOf None (clockFrames st) with
      | Some emptyIndex =>
          clockPush
            (mkClock (<[emptyIndex := Some p]> (clockFrames st))
                     (<[emptyIndex := 1%Z]> (clockRefBits st))
                     (clockHand st) (clockHits st) faults')
            (setNote (NoteEmptyFrameClock p emptyIndex) step)
      | None =>
          ev ← clockScan (clockFuel framesCount) framesCount p
                 (clockFrames st) (clockRefBits st) (clockHand st) 0;
          clockPush
            (mkClock (evFrames ev) (evRefBits ev) (evHand ev)
                     (clockHits st) faults')
            (setNote (NoteClock (evVictimPage ev) (evVictimIndex ev) (evScans ev))
                     (setReplaced (evVictimPage ev) (Z.of_nat (evVictimIndex ev))
                                  step))
      end
  end.

Definition clockInit (framesCount : nat) : ClockState :=
  mkClock (fill framesCount None) (fill framesCount 0%Z) 0 0 0.

Definition simulateCLOCK (framesCount : nat) (refs : list Z) : result Output :=
  '(st, steps) ← forLoop (clockBody framesCount) 0 refs (clockInit framesCount);
  Ok (mkOutput steps (mkSummary (clockHits st) (clockFaults st))).

(** ** The dispatcher *)

(** The value passed as [framesCount]: a finite number (every finite double
    is a rational), or a value on which [Number.isInteger] answers [false]
    whatever else it is (NaN, an infinity, a string, [null], ...). *)
Inductive jsval : Type :=
| JsFinite (q : Q)
| JsOther.

Definition Number_isInteger (v : jsval) : bool :=
  match v with
  | JsFinite q => (Z.rem (Qnum q) (Z.pos (Qden q)) =? 0)%Z
  | JsOther => false
  end.

(** [v >= lo] and [v <= hi] for integer literals [lo], [hi].  [simulate]
    evaluates them only behind [Number.isInteger(v) &&], that is, on finite
    numbers. *)
Definition jsGe (v : jsval) (lo : Z) : bool :=
  match v with
  | JsFinite q => Qle_bool (inject_Z lo) q
  | JsOther => false
  end.
Definition jsLe (v : jsval) (hi : Z) : bool :=
  match v with
  | JsFinite q => Qle_bool q (inject_Z hi)
  | JsOther => false
  end.

(** The count an engine loops up to, for a [framesCount] that passed the
    checks. *)
Definition toCount (v : jsval) : nat :=
  match v with
  | JsFinite q => Z.to_nat (Qnum q / Z.pos (Qden q))
  | JsOther => 0
  end.

Definition msgFrames : string := "Frames must be an integer between 1 and 50.".
Definition msgEmpty : string := "Reference string cannot be empty.".
Definition msgUnknown (algoName : string) : string :=
  "Unknown algorithm: " ++ algoName.

Definition simulate (algoName : string) (framesCount : jsval) (refs : list Z)
  : result Output :=
  _ ← assert (Number_isInteger framesCount && jsGe framesCount 1
               && jsLe framesCount 50) msgFrames;
  _ ← assert (0 <? length refs) msgEmpty;
  if String.eqb algoName "FIFO" then simulateFIFO (toCount framesCount) refs
  else if String.eqb algoName "LRU" then simulateLRU (toCount framesCount) refs
  else if String.eqb algoName "OPT" then simulateOPT (toCount framesCount) refs
  else if String.eqb algoName "CLOCK" then simulateCLOCK (toCount framesCount) refs
  else Throw (msgUnknown algoName).

(** An integer capacity as a JavaScript number. *)
Definition jsInt (c : Z) : jsval := JsFinite (inject_Z c).

(** * The input layer of [app.js]

    The functions of [app.js] that compute: [clamp], [parseFramesCount],
    [parseRefs], the counting loop of [updateStats], the ranking of
    [runAllCompare] and the path of [initSimulation] from the input fields to
    [simulate]; then the controller: the three variables of the script, the
    buttons it enables and disables, the rows of the step table and the two
    counters, as the handlers change them.  Log entries, the status bar,
    styling and the rendered comparison table are not modelled.

    A JavaScript string is the list of its UTF-16 code units.  A message that
    is built from a template and a token keeps the token, as the rationale
    strings do. *)

Definition jsstring : Type := list N.

Inductive Message : Type :=
| MsgText (s : string)
| MsgInvalidPage (token : jsstring)
| MsgInvalidPageNumber (token : jsstring).

(** ** [clamp] and [parseFramesCount] *)

(** [Math.min] and [Math.max] on finite numbers. *)
Definition mathMin (a b : Q) : Q := if Qle_bool a b then a else b.
Definition mathMax (a b : Q) : Q := if Qle_bool a b then b else a.

Definition clamp (n lo hi : Q) : Q := mathMax lo (mathMin hi n).

Definition Number_isFinite (v : jsval) : bool :=
  match v with
  | JsFinite _ => true
  | JsOther => false
  end.

Definition msgFramesInteger : string := "Frames must be an integer.".

(** [parseFramesCount()], as a function of the number [n] that
    [Number(framesInput.value)] yields ([JsOther] being NaN or an infinity).
    The result is the pair of the number the field reads after the call (the
    source writes [String(clamped)] back into it) and the value returned. *)
Definition parseFramesCount (n : jsval) : result (jsval * jsval) :=
  if negb (Number_isFinite n) || negb (Number_isInteger n)
  then Throw msgFramesInteger
  else match n with
       | JsFinite q =>
           let clamped := JsFinite (clamp q 1 50) in
           Ok (clamped, clamped)
       | JsOther => Throw msgFramesInteger
       end.

(** ** [parseRefs] *)

(** White space and line terminators: what [String.prototype.trim] strips
    and what [\s] matches. *)
Definition isSpace (c : N) : bool :=
  ((9 <=? c) && (c <=? 13) || (c =? 32) || (c =? 160) || (c =? 5760)
   || (8192 <=? c) && (c <=? 8202) || (c =? 8232) || (c =? 8233)
   || (c =? 8239) || (c =? 8287) || (c =? 12288) || (c =? 65279))%N.

(** The class [[\s,]]. *)
Definition isSep (c : N) : bool := isSpace c || (c =? 44)%N.

(** [\d] *)
Definition isDigit (c : N) : bool := ((48 <=? c) && (c <=? 57))%N.

Fixpoint trimStart (s : jsstring) : jsstring :=
  match s with
  | [] => []
  | c :: s' => if isSpace c then trimStart s' else s
  end.

Definition trimEnd (s : jsstring) : jsstring := rev (trimStart (rev s)).

Definition trim (s : jsstring) : jsstring := trimEnd (trimStart s).

(** [s.split(/[\s,]+/)]: the pieces of [s] between the maximal runs of
    separators, an empty piece before a run that starts [s] and after one
    that ends it.  [inRun] tells whether the character before was a
    separator; the head of the result is the piece being read. *)
Fixpoint splitGo (inRun : bool) (s : jsstring) : list jsstring :=
  match s with
  | [] => [[]]
  | c :: s' =>
      if isSep c then
        if inRun then splitGo true s'
        else [] :: splitGo true s'
      else
        match splitGo false s' with
        | piece :: pieces => (c :: piece) :: pieces
        | [] => [[c]]
        end
  end.

Definition split (s : jsstring) : list jsstring := splitGo false s.

(** [Boolean(s)] for a string: it is not empty. *)
Definition nonEmpty (s : jsstring) : bool :=
  match s with
  | [] => false
  | _ :: _ => true
  end.

(** [/^[-+]?\d+$/.test(token)] *)
Definition digits1 (ds : jsstring) : bool := nonEmpty ds && forallb isDigit ds.

Definition matchesInteger (token : jsstring) : bool :=
  match token with
  | c :: rest =>
      if ((c =? 45) || (c =? 43))%N then digits1 rest else digits1 token
  | [] => false
  end.

(** The integer a token that passed the test denotes. *)
Definition digitsValue (ds : jsstring) : Z :=
  foldl (λ acc d, 10 * acc + (Z.of_N d - 48))%Z 0%Z ds.

Definition tokenValue (token : jsstring) : Z :=
  match token with
  | c :: rest =>
      if (c =? 45)%N then (- digitsValue rest)%Z
      else if (c =? 43)%N then digitsValue rest
      else digitsValue token
  | [] => 0%Z
  end.

(** The double nearest to a non-negative integer, ties to the even
    significand: integers below [2^53] are doubles, a larger one keeps its
    53 leading bits. *)
Definition roundMagnitude (m : Z) : Z :=
  if (m <? 2 ^ 53)%Z then m
  else
    let e := (Z.log2 m - 52)%Z in
    let q := (m / 2 ^ e)%Z in
    let r := (m mod 2 ^ e)%Z in
    let half := (2 ^ (e - 1))%Z in
    let q' := if (half <? r)%Z || ((r =? half)%Z && Z.odd q) then (q + 1)%Z else q in
    (q' * 2 ^ e)%Z.

(** [Number(token)] for a token that passed the test: the value rounded to a
    double, an infinity from [2^1024] on.  (For more than 20 significant
    digits the language leaves the last bit to the engine; this is the
    correctly rounded value the engines compute.) *)
Definition Number_ofToken (token : jsstring) : xnum :=
  let z := tokenValue token in
  let m := roundMagnitude (Z.abs z) in
  if (2 ^ 1024 <=? m)%Z then (if (z <? 0)%Z then NegInf else PosInf)
  else Fin (Z.sgn z * m).

(** The callback of [parts.map]: the page a token denotes, or the error it
    throws. *)
Definition parseToken (token : jsstring) : Message + Z :=
  if negb (matchesInteger token) then inl (MsgInvalidPage token)
  else match Number_ofToken token with
       | Fin v => inr v
       | _ => inl (MsgInvalidPageNumber token)
       end.

(** [parts.map(callback)]: the first token that throws ends the call. *)
Fixpoint mapTokens (parts : list jsstring) : Message + list Z :=
  match parts with
  | [] => inr []
  | token :: parts' =>
      match parseToken token with
      | inl m => inl m
      | inr v =>
          match mapTokens parts' with
          | inl m => inl m
          | inr vs => inr (v :: vs)
          end
      end
  end.

Definition parseRefs (text : jsstring) : Message + list Z :=
  let cleaned := trim text in
  if negb (nonEmpty cleaned) then inr []
  else
    let parts := filter (λ s, nonEmpty s = true) (map trim (split cleaned)) in
    mapTokens parts.

(** ** The counting loop of [updateStats] *)

(** [for (let i = 0; i < stepIndex; i++) { if (sim.steps[i].hit) hits++;
    if (sim.steps[i].fault) faults++; }]: the pair [(hits, faults)], or
    [None] when [sim.steps[i]] is [undefined] for some [i] and reading its
    field throws. *)
Definition countShown (steps : list Step) (stepIndex : nat) : option (nat * nat) :=
  foldl (λ acc i,
           match acc, steps !! i with
           | Some (hits, faults), Some s =>
               Some (if hit s then S hits else hits,
                     if fault s then S faults else faults)
           | _, _ => None
           end)
        (Some (0, 0)) (seq 0 stepIndex).

(** ** The ranking of [runAllCompare] *)

(** A row of the comparison.  Its two ratios are floating-point quotients
    of [hits] and [faults]; they play no part in the ranking and are left
    out. *)
Record Row : Type := mkRow {
  rowAlgo : string;
  rowHits : nat;
  rowFaults : nat
}.

(** [(x.faults - y.faults) || (y.hits - x.hits)] *)
Definition compareRows (x y : Row) : Z :=
  let d := (Z.of_nat (rowFaults x) - Z.of_nat (rowFaults y))%Z in
  if (d =? 0)%Z then (Z.of_nat (rowHits y) - Z.of_nat (rowHits x))%Z else d.

(** [results.sort(compare)].  The sort of the language is stable, and a
    stable sort by a consistent comparison has one result; insertion from
    the left computes it. *)
Fixpoint insertRow (x : Row) (sorted : list Row) : list Row :=
  match sorted with
  | [] => [x]
  | y :: rest =>
      if (0 <? compareRows y x)%Z then x :: y :: rest
      else y :: insertRow x rest
  end.

Definition sortRows (rows : list Row) : list Row :=
  foldl (λ sorted x, insertRow x sorted) [] rows.

Definition algos : list string := ["FIFO"; "LRU"; "OPT"; "CLOCK"].

(** [algos.map(a => ...)]: the first call of [simulate] that throws ends the
    map. *)
Fixpoint compareRowsOf (names : list string) (framesCount : jsval)
    (refs : list Z) : result (list Row) :=
  match names with
  | [] => Ok []
  | a :: names' =>
      r ← simulate a framesCount refs;
      rows ← compareRowsOf names' framesCount refs;
      Ok (mkRow a (hits (summary r)) (faults (summary r)) :: rows)
  end.

(** [err.message || fallback] *)
Definition messageOr (msg fallback : string) : Message :=
  match msg with
  | EmptyString => MsgText fallback
  | _ => MsgText msg
  end.

(** What a click on a button ends in: an [alert] or the data handed to the
    rendering code. *)
Inductive Outcome (A : Type) : Type :=
| Alert (m : Message)
| Shown (a : A).
Arguments Alert {A} m.
Arguments Shown {A} a.

(** [runAllCompare()], as a function of the number the frames field reads
    and the text of the reference field: the rows in the order they are
    ranked. *)
Definition runAllCompare (framesField : jsval) (refText : jsstring)
  : Outcome (list Row) :=
  match parseFramesCount framesField with
  | Ok (_, framesCount) =>
      match parseRefs refText with
      | inr refs =>
          if length refs =? 0 then
            Alert (MsgText "Please enter a reference string first.")
          else
            match compareRowsOf algos framesCount refs with
            | Ok results => Shown (sortRows results)
            | Throw msg => Alert (messageOr msg "Comparison error.")
            | OutOfFuel => Alert (MsgText "Comparison error.")
            end
      | inl m => Alert m
      end
  | Throw msg => Alert (messageOr msg "Comparison error.")
  | OutOfFuel => Alert (MsgText "Comparison error.")
  end.

(** ** The path of [initSimulation] to [simulate] *)

(** The two variables [sim] and [stepIndex] of [app.js]. *)
Record AppData : Type := mkApp {
  appSim : option Output;
  appStepIndex : nat
}.

(** [initSimulation()], as a function of the number the frames field reads,
    the selected policy name and the text of the reference field: the two
    variables after the call and the [alert] it raised, if any.  An empty
    reference list returns early and leaves the variables as they were; an
    error resets them. *)
Definition initSimulation (framesField : jsval) (algo : string)
    (refText : jsstring) (app : AppData) : AppData * option Message :=
  match parseFramesCount framesField with
  | Ok (_, framesCount) =>
      match parseRefs refText with
      | inr refs =>
          if length refs =? 0 then
            (app, Some (MsgText
               "Please enter a reference string (integers separated by spaces/commas)."))
          else
            match simulate algo framesCount refs with
            | Ok sim => (mkApp (Some sim) 0, None)
            | Throw msg =>
                (mkApp None 0, Some (messageOr msg "Initialization error."))
            | OutOfFuel => (mkApp None 0, Some (MsgText "Initialization error."))
            end
      | inl m => (mkApp None 0, Some m)
      end
  | Throw msg => (mkApp None 0, Some (messageOr msg "Initialization error."))
  | OutOfFuel => (mkApp None 0, Some (MsgText "Initialization error."))
  end.

(** ** The controller

    The state the handlers of [app.js] share and what each handler does to
    it.  A handler runs to its end before the next one starts.  An
    exception that no handler catches ends the handler where it is thrown
    and leaves the state as it is at that point. *)

Module Controller.

(** A row of [#simBody]: the step number, the record whose page, badge,
    replaced page and note it shows, and the frame cells ([None] is the
    dash). *)
Record TableRow : Type := mkTableRow {
  trStep : nat;
  trRecord : Step;
  trCells : list (option Z)
}.

Record Page : Type := mkPage {
  (** [sim], [stepIndex] and whether [timerId] is not [null] *)
  sim : option Output;
  stepIndex : nat;
  timerOn : bool;
  (** the number the frames field reads *)
  framesField : jsval;
  (** [btnStep.disabled], [btnPlay.disabled], [btnPause.disabled] *)
  stepDisabled : bool;
  playDisabled : bool;
  pauseDisabled : bool;
  (** the rows of [#simBody], [None] when there is no table *)
  simBody : option (list TableRow);
  (** the numbers in [hitsEl] and [faultsEl] *)
  counters : nat * nat
}.

Definition withSim (o : option Output) (i : nat) (p : Page) : Page :=
  mkPage o i (timerOn p) (framesField p) (stepDisabled p) (playDisabled p)
    (pauseDisabled p) (simBody p) (counters p).

Definition withTimer (b : bool) (p : Page) : Page :=
  mkPage (sim p) (stepIndex p) b (framesField p) (stepDisabled p) (playDisabled p)
    (pauseDisabled p) (simBody p) (counters p).

Definition withFrames (v : jsval) (p : Page) : Page :=
  mkPage (sim p) (stepIndex p) (timerOn p) v (stepDisabled p) (playDisabled p)
    (pauseDisabled p) (simBody p) (counters p).

Definition withStep (b : bool) (p : Page) : Page :=
  mkPage (sim p) (stepIndex p) (timerOn p) (framesField p) b (playDisabled p)
    (pauseDisabled p) (simBody p) (counters p).

Definition withPlay (b : bool) (p : Page) : Page :=
  mkPage (sim p) (stepIndex p) (timerOn p) (framesField p) (stepDisabled p) b
    (pauseDisabled p) (simBody p) (counters p).

Definition withPause (b : bool) (p : Page) : Page :=
  mkPage (sim p) (stepIndex p) (timerOn p) (framesField p) (stepDisabled p)
    (playDisabled p) b (simBody p) (counters p).

Definition withBody (rows : option (list TableRow)) (p : Page) : Page :=
  mkPage (sim p) (stepIndex p) (timerOn p) (framesField p) (stepDisabled p)
    (playDisabled p) (pauseDisabled p) rows (counters p).

Definition withCounters (c : nat * nat) (p : Page) : Page :=
  mkPage (sim p) (stepIndex p) (timerOn p) (framesField p) (stepDisabled p)
    (playDisabled p) (pauseDisabled p) (simBody p) c.

(** [sim && stepIndex < sim.steps.length] *)
Definition stepsLeft (p : Page) : bool :=
  match sim p with
  | Some o => stepIndex p <? length (steps o)
  | None => false
  end.

Definition stopTimer (p : Page) : Page :=
  let p := withTimer false p in
  let p := withPause true p in
  withPlay (negb (stepsLeft p)) p.

Definition setInitializedUI (enabled : bool) (p : Page) : Page :=
  withPause true (withPlay (negb enabled) (withStep (negb enabled) p)).

Definition resetUIOnly (p : Page) : Page :=
  setInitializedUI false (withBody None (withCounters (0, 0) p)).

(** [updateStats()]; [None] when its loop reads a record that does not
    exist and throws. *)
Definition updateStats (p : Page) : option Page :=
  match sim p with
  | None => Some (withCounters (0, 0) p)
  | Some o =>
      if stepIndex p =? 0 then Some (withCounters (0, 0) p)
      else match countShown (steps o) (stepIndex p) with
           | Some c => Some (withCounters c p)
           | None => None
           end
  end.

Definition buildTable (p : Page) : Page := withBody (Some []) p.

(** [formatCell(s.frames[i])]: the dash for [null] and for [undefined]. *)
Definition formatCell (v : option (option Z)) : option Z :=
  match v with
  | Some (Some q) => Some q
  | _ => None
  end.

Definition tableRow (framesCount : nat) (i : nat) (s : Step) : TableRow :=
  mkTableRow (i + 1) s (map (λ j, formatCell (frames s !! j)) (seq 0 framesCount)).

Definition applyOneStep (p : Page) : Page :=
  match sim p with
  | None => p
  | Some o =>
      if length (steps o) <=? stepIndex p then
        withPlay true (withStep true (stopTimer p))
      else
        match parseFramesCount (framesField p) with
        | Ok (field, framesCount) =>
            let p := withFrames field p in
            match steps o !! stepIndex p with
            | Some s =>
                let p := match simBody p with
                         | None => buildTable p
                         | Some _ => p
                         end in
                let row := tableRow (toCount framesCount) (stepIndex p) s in
                let p := withBody (Some (default [] (simBody p) ++ [row])%list) p in
                let p := withSim (sim p) (S (stepIndex p)) p in
                match updateStats p with
                | Some p =>
                    if length (steps o) <=? stepIndex p then
                      withPause true (withPlay true (withStep true (stopTimer p)))
                    else p
                | None => p
                end
            | None => p
            end
        | _ => p
        end
  end.

(** The [catch] of [initSimulation]. *)
Definition catchInit (p : Page) : Page :=
  setInitializedUI false (stopTimer (withSim None 0 p)).

Definition initSimulation (algo : string) (refText : jsstring) (p : Page) : Page :=
  let p := stopTimer p in
  match parseFramesCount (framesField p) with
  | Ok (field, framesCount) =>
      let p := withFrames field p in
      match parseRefs refText with
      | inr refs =>
          if length refs =? 0 then p
          else
            match simulate algo framesCount refs with
            | Ok o =>
                let p := buildTable (withSim (Some o) 0 p) in
                match updateStats p with
                | Some p => setInitializedUI true p
                | None => catchInit p
                end
            | _ => catchInit p
            end
      | inl _ => catchInit p
      end
  | _ => catchInit p
  end.

Definition play (p : Page) : Page :=
  match sim p with
  | None => p
  | Some o =>
      if timerOn p then p
      else if length (steps o) <=? stepIndex p then p
      else withTimer true (withStep true (withPause false (withPlay true p)))
  end.

(** The callback of [setInterval]. *)
Definition tick (p : Page) : Page :=
  match sim p with
  | None => stopTimer p
  | Some o =>
      if length (steps o) <=? stepIndex p then withStep true (stopTimer p)
      else applyOneStep p
  end.

Definition pause (p : Page) : Page :=
  let p := stopTimer p in
  withStep (negb (stepsLeft p)) p.

Definition resetAll (p : Page) : Page :=
  resetUIOnly (withSim None 0 (stopTimer p)).

(** What [runAllCompare] does to the state: it stops the timer and
    [parseFramesCount] writes the frames field. *)
Definition runAllCompare (p : Page) : Page :=
  let p := stopTimer p in
  match parseFramesCount (framesField p) with
  | Ok (field, _) => withFrames field p
  | _ => p
  end.

(** What can happen to the page: a click on a button ([Init] also stands
    for the Enter key in the reference field) with the values the selection
    list and the reference field hold at that moment, a timer callback, and
    the user editing the frames field. *)
Inductive Event : Type :=
| Init (algo : string) (refText : jsstring)
| StepClick
| PlayClick
| PauseClick
| ResetClick
| RunAllClick
| Tick
| EditFrames (v : jsval).

Definition handle (e : Event) (p : Page) : Page :=
  match e with
  | Init algo refText => initSimulation algo refText p
  | StepClick => applyOneStep p
  | PlayClick => play p
  | PauseClick => pause p
  | ResetClick => resetAll p
  | RunAllClick => runAllCompare p
  | Tick => tick p
  | EditFrames v => withFrames v p
  end.

(** A disabled button gets no click, and the callback runs only while the
    timer is set. *)
Definition enabled (e : Event) (p : Page) : bool :=
  match e with
  | StepClick => negb (stepDisabled p)
  | PlayClick => negb (playDisabled p)
  | PauseClick => negb (pauseDisabled p)
  | Tick => timerOn p
  | _ => true
  end.

(** The page once the script has run: [resetUIOnly()] on the variables'
    initial values, whatever the page held before. *)
Definition loaded (field : jsval) (body : option (list TableRow))
    (shown : nat * nat) (b1 b2 b3 : bool) : Page :=
  resetUIOnly (mkPage None 0 false field b1 b2 b3 body shown).

End Controller.

(** * Vocabulary of the properties *)

(** No identifier occupies two slots. *)
Definition NoDupPages (fr : list (option Z)) : Prop :=
  ∀ i j q, fr !! i = Some (Some q) → fr !! j = Some (Some q) → i = j.

(** Does the slot hold a page that occurs in [u]? *)
Definition inWindow (u : list Z) (s : option Z) : bool :=
  match s with
  | Some q => bool_decide (q ∈ u)
  | None => false
  end.

(** How many slots of [fr] hold a page that occurs in [u]. *)
Fixpoint cnt (u : list Z) (fr : list (option Z)) : nat :=
  match fr with
  | [] => 0
  | s :: fr' => (if inWindow u s then 1 else 0) + cnt u fr'
  end.

(** ** Demand paging and the farthest-next-use rule
    What the four engines have in common, on the slot table alone: a
    reference to a resident page changes nothing, a reference to a page that
    is not resident overwrites one slot with it. *)

Definition demandStep (p : Z) (fr fr' : list (option Z)) (isFault : bool) : Prop :=
  if isFault
  then (Some p ∉ fr) ∧ (∃ j, j < length fr ∧ fr' = <[j := Some p]> fr)
  else Some p ∈ fr ∧ fr' = fr.

(** [demandRun w fr n]: serving [w] from table [fr] by demand paging, with
    [n] faults. *)
Inductive demandRun : list Z → list (option Z) → nat → Prop :=
| demandRun_nil fr : demandRun [] fr 0
| demandRun_cons p w fr fr' b n :
    demandStep p fr fr' b →
    demandRun w fr' n →
    demandRun (p :: w) fr ((if b then 1 else 0) + n).

(** Slot [j] is a farthest one for the references [w'] still to come: if its
    occupant is asked for within the first [n] of them, so is every other
    slot's.  An empty slot is never asked for. *)
Definition farthestSlot (w' : list Z) (fr : list (option Z)) (j : nat) : Prop :=
  ∀ n s, inWindow (take n w') (slotAt fr j) = true →
         s ∈ fr → inWindow (take n w') s = true.

(** A demand-paging step that, on a fault, overwrites a farthest slot for
    the references [w'] that follow. *)
Definition beladyStep (w' : list Z) (p : Z) (fr fr' : list (option Z))
    (isFault : bool) : Prop :=
  if isFault
  then (Some p ∉ fr) ∧
       (∃ j, j < length fr ∧ fr' = <[j := Some p]> fr ∧ farthestSlot w' fr j)
  else Some p ∈ fr ∧ fr' = fr.

(** [beladyRun w fr n]: serving [w] from table [fr] by the
    farthest-next-use rule, with [n] faults. *)
Inductive beladyRun : list Z → list (option Z) → nat → Prop :=
| beladyRun_nil fr : beladyRun [] fr 0
| beladyRun_cons p w fr fr' b n :
    beladyStep w p fr fr' b →
    beladyRun w fr' n →
    beladyRun (p :: w) fr ((if b then 1 else 0) + n).

(** The part of an engine's state every engine has. *)
Class Engine (St : Type) : Type := {
  stFrames : St → list (option Z);
  stHits : St → nat;
  stFaults : St → nat
}.

#[global] Instance fifoEngine : Engine FifoState :=
  {| stFrames := fifoFrames; stHits := fifoHits; stFaults := fifoFaults |}.
#[global] Instance lruEngine : Engine LruState :=
  {| stFrames := lruFrames; stHits := lruHits; stFaults := lruFaults |}.
#[global] Instance optEngine : Engine OptState :=
  {| stFrames := optFrames; stHits := optHits; stFaults := optFaults |}.
#[global] Instance clockEngine : Engine ClockState :=
  {| stFrames := clockFrames; stHits := clockHits; stFaults := clockFaults |}.

(** What one turn of the loop does to the shared part of the state and what
    it records. *)
Record stepOK {St : Type} `{Engine St} (i : nat) (p : Z) (st st' : St) (s : Step)
  : Prop := mkStepOK {
  ok_index : index s = i;
  ok_page : page s = p;
  ok_frames : frames s = stFrames st';
  ok_flags : hit s = negb (fault s);
  ok_hits : stHits st' = stHits st + (if hit s then 1 else 0);
  ok_faults : stFaults st' = stFaults st + (if fault s then 1 else 0);
  ok_demand : demandStep p (stFrames st) (stFrames st') (fault s)
}.

(** The hit records and the fault records of a trace. *)
Definition countHits (ss : list Step) : nat := length (filter (λ s, hit s = true) ss).
Definition countFaults (ss : list Step) : nat := length (filter (λ s, fault s = true) ss).

(** [trace body i rest st stf ss]: the loop with body [body], started at
    position [i] in state [st] with [rest] still to serve, ends in [stf]
    having pushed [ss]. *)
Inductive trace {St : Type} `{Engine St}
    (body : nat → Z → St → result (St * Step))
  : nat → list Z → St → St → list Step → Prop :=
| trace_nil i st : trace body i [] st st []
| trace_cons i p rest st st' s stf ss :
    body i p st = Ok (st', s) →
    stepOK i p st st' s →
    trace body (S i) rest st' stf ss →
    trace body i (p :: rest) st stf (s :: ss).

(** One turn of a victim scan over the slots: the running triple
    [(victimIndex, victimPage, best)] is replaced by slot [fi] when its key is
    better than [best].  [lruScanStep] and [optScanStep] are instances. *)
Definition scanStep {I : Type} (inj : nat → I) (key : nat → xnum)
    (slot : nat → option Z) (better : xnum → xnum → bool)
    (acc : I * option Z * xnum) (fi : nat) : I * option Z * xnum :=
  let '(victimIndex, victimPage, best) := acc in
  if better (key fi) best then (inj fi, slot fi, key fi)
  else (victimIndex, victimPage, best).

(** What holds of each engine's state throughout a run with [framesCount]
    slots, [framesCount >= 1]. *)
Definition fifoInv (framesCount : nat) (st : FifoState) : Prop :=
  length (fifoFrames st) = framesCount ∧ fifoPointer st < framesCount.

(** The bookkeeping map knows exactly the resident pages. *)
Definition lruTracked (st : LruState) : Prop :=
  ∀ q, is_Some (lruLastUsed st !! q) ↔ Some q ∈ lruFrames st.

Definition lruInv (framesCount : nat) (st : LruState) : Prop :=
  length (lruFrames st) = framesCount ∧ 1 ≤ framesCount ∧
  NoDupPages (lruFrames st) ∧ lruTracked st.

Definition optInv (framesCount : nat) (st : OptState) : Prop :=
  length (optFrames st) = framesCount ∧ 1 ≤ framesCount.

(** The bits after [k] turns of the scan that did not evict: the slots
    [hand], [hand+1], ... (around the table) cleared. *)
Fixpoint clearRun (framesCount : nat) (refBits : list Z) (hand k : nat) : list Z :=
  match k with
  | 0 => refBits
  | S k' => clearRun framesCount (<[hand := 0%Z]> refBits)
                     ((hand + 1) mod framesCount) k'
  end.

(** The [z] slots behind the hand have bit 0. *)
Definition clearedBehind (framesCount z hand : nat) (refBits : list Z) : Prop :=
  ∀ d, 1 ≤ d ≤ z →
       refBits !! ((hand + (framesCount - d)) mod framesCount) = Some 0%Z.

Definition clockInv (framesCount : nat) (st : ClockState) : Prop :=
  length (clockFrames st) = framesCount ∧
  length (clockRefBits st) = framesCount ∧
  clockHand st < framesCount.

(** The value [v] is the integer [c]. *)
Definition isCapacity (v : jsval) (c : Z) : Prop :=
  ∃ q, v = JsFinite q ∧ (q == inject_Z c)%Q.

(** The capacity the specification accepts: an integer from 1 to 50. *)
Definition validCapacity (v : jsval) : Prop :=
  ∃ c, isCapacity v c ∧ (1 ≤ c ≤ 50)%Z.

(** The four policy names [simulate] dispatches on. *)
Definition knownPolicy (algoName : string) : Prop :=
  algoName = "FIFO" ∨ algoName = "LRU" ∨ algoName = "OPT" ∨ algoName = "CLOCK".

(** The condition of [simulate]'s first assertion. *)
Definition capacityCheck (v : jsval) : bool :=
  Number_isInteger v && jsGe v 1 && jsLe v 50.

(** The slot table of an engine once its loop has completed [n] turns. *)
Definition framesAfter {St : Type} `{Engine St}
    (body : nat → Z → St → result (St * Step)) (init : St)
    (refs : list Z) (n : nat) : result (list (option Z)) :=
  '(st, _) ← forLoop body 0 (take n refs) init;
  Ok (stFrames st).

(** The contents of the engine's [frames] array once the loop has completed
    [n] turns. *)
Definition tableAfter (algoName : string) (framesCount : nat) (refs : list Z)
    (n : nat) : result (list (option Z)) :=
  if String.eqb algoName "FIFO" then
    framesAfter (fifoBody framesCount) (fifoInit framesCount) refs n
  else if String.eqb algoName "LRU" then
    framesAfter (lruBody framesCount) (lruInit framesCount) refs n
  else if String.eqb algoName "OPT" then
    framesAfter (optBody framesCount refs) (optInit framesCount) refs n
  else if String.eqb algoName "CLOCK" then
    framesAfter (clockBody framesCount) (clockInit framesCount) refs n
  else Throw (msgUnknown algoName).

(** What a completed run hands back, whatever the engine. *)
Record wellFormed (framesCount : nat) (refs : list Z) (o : Output) : Prop := {
  wf_length : length (steps o) = length refs;
  wf_records : ∀ k p, refs !! k = Some p →
     ∃ s, steps o !! k = Some s ∧ index s = k ∧ page s = p;
  wf_flags : ∀ s, s ∈ steps o → hit s = negb (fault s);
  wf_hits : hits (summary o) = countHits (steps o);
  wf_faults : faults (summary o) = countFaults (steps o);
  wf_total : hits (summary o) + faults (summary o) = length refs;
  wf_tables : ∀ s, s ∈ steps o →
     length (frames s) = framesCount ∧ NoDupPages (frames s);
  wf_demand : demandRun refs (fill framesCount None) (faults (summary o))
}.

(** The reference sequence of the specification's FIFO example. *)
Definition beladySequence : list Z := [1;2;3;4;1;2;5;1;2;3;4;5]%Z.

(** The next use of page [q] after position [i], in the words of the
    specification: the smallest position [j > i] with [refs[j] = q], and
    infinity when there is none. *)
Definition specNextUse (refs : list Z) (i : nat) (q : Z) (x : xnum) : Prop :=
  (x = PosInf ∧ ∀ j, i < j → refs !! j ≠ Some q) ∨
  (∃ j, x = Fin (Z.of_nat j) ∧ i < j ∧ refs !! j = Some q ∧
        ∀ m, i < m < j → refs !! m ≠ Some q).

(** The counts [(hits, faults)] of a completed run. *)
Definition summaryOf (r : result Output) : option (nat * nat) :=
  match r with
  | Ok o => Some (hits (summary o), faults (summary o))
  | _ => None
  end.

(** For each step of a run, the page it evicted. *)
Definition evictions (r : result Output) : list (option Z) :=
  match r with
  | Ok o => map replaced (steps o)
  | _ => []
  end.

(** ** The decision of one turn and the tables of a run *)

(** The three ways a turn of any of the four loops goes: the page is in slot
    [h]; it is not and goes into the lowest empty slot [e]; it is not, no slot
    is empty, and it replaces page [v] in slot [vi].  [fr] is the table before
    the turn, [fr'] the table after it, [s] the record of the turn. *)
Inductive decision (p : Z) (fr fr' : list (option Z)) (s : Step) : Prop :=
| decision_hit h :
    indexOf (Some p) fr = Some h → fr' = fr →
    hit s = true → fault s = false →
    replaced s = None → replacedIndex s = None →
    decision p fr fr' s
| decision_fill e :
    indexOf (Some p) fr = None → indexOf None fr = Some e →
    fr' = <[e := Some p]> fr →
    hit s = false → fault s = true →
    replaced s = None → replacedIndex s = None →
    decision p fr fr' s
| decision_evict vi v :
    indexOf (Some p) fr = None → indexOf None fr = None →
    fr !! vi = Some (Some v) → fr' = <[vi := Some p]> fr →
    hit s = false → fault s = true →
    replaced s = Some v → replacedIndex s = Some (Z.of_nat vi) →
    decision p fr fr' s.

(** [tableRun w fr ss]: the records [ss] serve the references [w] from the
    table [fr], each snapshot being the table the next turn starts from. *)
Inductive tableRun : list Z → list (option Z) → list Step → Prop :=
| tableRun_nil fr : tableRun [] fr []
| tableRun_cons p w fr s ss :
    page s = p → decision p fr (frames s) s →
    tableRun w (frames s) ss →
    tableRun (p :: w) fr (s :: ss).

(** The table a step starts from: the snapshot of the step before it, the
    empty table for the first step. *)
Definition tableBefore (framesCount : nat) (ss : list Step) (k : nat)
  : list (option Z) :=
  match k with
  | 0 => fill framesCount None
  | S k' => default [] (frames <$> ss !! k')
  end.

(** The number of slots in use. *)
Definition occupied (fr : list (option Z)) : nat := length (omap id fr).

(** The records that report an eviction. *)
Definition countEvictions (ss : list Step) : nat :=
  length (filter (λ s, replacedIndex s ≠ None) ss).

(** The slots in use come first: behind an empty slot every slot is empty. *)
Definition packed (fr : list (option Z)) : Prop :=
  ∀ i j, i < j → j < length fr → fr !! i = Some None → fr !! j = Some None.

(** The number of different pages a reference sequence asks for. *)
Definition distinctPages (refs : list Z) : nat :=
  size (list_to_set refs : gset Z).

(** The snapshot of the last record, [fr] when there is none. *)
Definition finalTable (fr : list (option Z)) (ss : list Step) : list (option Z) :=
  default fr (frames <$> last ss).

(** Every stamp in the LRU bookkeeping is the position, among the first [n]
    references, of the latest reference to its page. *)
Definition lruStamps (refs : list Z) (n : nat) (st : LruState) : Prop :=
  ∀ q t, lruLastUsed st !! q = Some t →
         t < n ∧ refs !! t = Some q ∧ ∀ m, t < m < n → refs !! m ≠ Some q.

(** The pages of the fault records, in order. *)
Definition faultPages (ss : list Step) : list Z :=
  page <$> filter (λ s, fault s = true) ss.

(** The FIFO table as a ring over the pages [fs] that have faulted so far:
    the page of fault number [k] sits in slot [k mod framesCount] for the last
    [framesCount] faults, the slots no fault has reached are empty, and the
    pointer is the slot of the next fault once the table is full. *)
Definition fifoRing (framesCount : nat) (fs : list Z) (st : FifoState) : Prop :=
  length (fifoFrames st) = framesCount ∧ 1 ≤ framesCount ∧
  (∀ k, k < length fs → length fs ≤ k + framesCount →
        fifoFrames st !! (k mod framesCount) = Some (fs !! k)) ∧
  (∀ j, length fs ≤ j → j < framesCount → fifoFrames st !! j = Some None) ∧
  (framesCount ≤ length fs → indexOf None (fifoFrames st) = None) ∧
  fifoPointer st = (if length fs <? framesCount then 0
                    else length fs mod framesCount).

(** Every reference bit is 0 or 1, and the bit of an empty slot is 0. *)
Definition clockBits (st : ClockState) : Prop :=
  (∀ j b, clockRefBits st !! j = Some b → b = 0%Z ∨ b = 1%Z) ∧
  (∀ j, clockFrames st !! j = Some None → clockRefBits st !! j = Some 0%Z).

(** The hand a CLOCK record shows, 0 when it shows none. *)
Definition handOf (s : Step) : nat := default 0 (metaHand <$> meta s).

(** The code units of a text given in ASCII. *)
Definition codes (s : string) : jsstring :=
  map Ascii.N_of_ascii (list_ascii_of_string s).

(** Row [x] may stand before row [y] in the ranking. *)
Definition rowLe (x y : Row) : Prop := (compareRows x y ≤ 0)%Z.

(** The ranking condition on a list of rows: every row may stand before
    all the rows after it. *)
Inductive ranked : list Row → Prop :=
| ranked_nil : ranked []
| ranked_cons x rows : Forall (rowLe x) rows → ranked rows → ranked (x :: rows).

(** The rows of [rows] with [f] faults, in their order. *)
Definition rowsWithFaults (f : nat) (rows : list Row) : list Row :=
  filter (λ r, rowFaults r = f) rows.

(** The two alerts for an empty reference list. *)
Definition msgNoRefsInit : Message :=
  MsgText "Please enter a reference string (integers separated by spaces/commas).".
Definition msgNoRefsCompare : Message :=
  MsgText "Please enter a reference string first.".

(** The counters after one more step [s] has been shown. *)
Definition countStep (s : Step) (shown : nat * nat) : nat * nat :=
  (if hit s then S (fst shown) else fst shown,
   if fault s then S (snd shown) else snd shown).

(** A text without separators, and a text of separators only. *)
Definition sepFree (t : jsstring) : bool := forallb (λ c, negb (isSep c)) t.
Definition allSep (s : jsstring) : bool := forallb isSep s.

(** A reference text laid out as tokens: the separators [lead], then each
    token followed by its separators. *)
Definition layout (lead : jsstring) (items : list (jsstring * jsstring)) : jsstring :=
  (lead ++ concat ((λ it, it.1 ++ it.2) <$> items))%list.

(** The tokens are not empty and hold no separator; what follows a token
    is separators, at least one unless the token is the last. *)
Fixpoint layoutOK (items : list (jsstring * jsstring)) : Prop :=
  match items with
  | [] => True
  | it :: rest =>
      it.1 ≠ [] ∧ sepFree it.1 = true ∧ allSep it.2 = true ∧
      (rest ≠ [] → it.2 ≠ []) ∧ layoutOK rest
  end.

(** The pieces of a split that are not empty. *)
Definition pieces (inRun : bool) (s : jsstring) : list jsstring :=
  filter (λ p, nonEmpty p = true) (splitGo inRun s).

(** The decimal digits of [n >= 0] in front of [acc], most significant
    first; [fuel] bounds their number. *)
Fixpoint digitsOf (fuel : nat) (n : Z) (acc : jsstring) : jsstring :=
  match fuel with
  | 0 => acc
  | S fuel' =>
      let acc' := Z.to_N (48 + n mod 10) :: acc in
      if (n <? 10)%Z then acc' else digitsOf fuel' (n / 10) acc'
  end.

(** An integer written in decimal, with a minus sign when negative. *)
Definition decimal (z : Z) : jsstring :=
  if (z <? 0)%Z then 45%N :: digitsOf (S (Z.to_nat (Z.log2 (- z)))) (- z) []
  else digitsOf (S (Z.to_nat (Z.log2 z))) z [].

(** Integers written in decimal, each with the separators after it. *)
Definition written (items : list (Z * jsstring)) : list (jsstring * jsstring) :=
  (λ it, (decimal it.1, it.2)) <$> items.

(** The pages the handlers can produce from the loaded page, in whatever
    order events arrive. *)
Inductive reachable : Controller.Page → Prop :=
| reach_loaded field body shown b1 b2 b3 :
    reachable (Controller.loaded field body shown b1 b2 b3)
| reach_event e p :
    reachable p → reachable (Controller.handle e p).

(** The rows that show the first [k] records of a run. *)
Definition showsFirst (k : nat) (o : Output) (rows : list Controller.TableRow) : Prop :=
  Controller.trRecord <$> rows = take k (steps o) ∧
  Controller.trStep <$> rows = seq 1 k.

(** What the handlers keep true of the page. *)
Definition pageInv (p : Controller.Page) : Prop :=
  match Controller.sim p with
  | None =>
      Controller.stepIndex p = 0 ∧ Controller.timerOn p = false ∧
      Controller.stepDisabled p = true ∧ Controller.playDisabled p = true ∧
      Controller.pauseDisabled p = true
  | Some o =>
      (∃ algo v c refs, simulate algo v refs = Ok o ∧ isCapacity v c ∧
                        (1 ≤ c ≤ 50)%Z ∧ wellFormed (Z.to_nat c) refs o) ∧
      Controller.stepIndex p ≤ length (steps o) ∧
      (∃ rows, Controller.simBody p = Some rows ∧
               showsFirst (Controller.stepIndex p) o rows) ∧
      Controller.counters p
      = (countHits (take (Controller.stepIndex p) (steps o)),
         countFaults (take (Controller.stepIndex p) (steps o))) ∧
      Controller.pauseDisabled p = negb (Controller.timerOn p) ∧
      (Controller.timerOn p = true →
         Controller.stepDisabled p = true ∧ Controller.playDisabled p = true) ∧
      (Controller.stepDisabled p = false ∨ Controller.playDisabled p = false ∨
       Controller.timerOn p = true →
         Controller.stepIndex p < length (steps o))
  end.

(** The rows of a step table that shows each of the records [ss] with its
    own frame table. *)
Definition rowsOf (ss : list Step) : list Controller.TableRow :=
  imap (λ i s, Controller.mkTableRow (i + 1) s (frames s)) ss.

(** [k] clicks on Step after a click on Init. *)
Definition stepped (algo : string) (refText : jsstring) (k : nat)
    (p : Controller.Page) : Controller.Page :=
  Nat.iter k Controller.applyOneStep (Controller.initSimulation algo refText p).

(** Two pages for the examples: after Init and one click on Step, and after
    Init and a click on Play. *)
Definition pageStepped : Controller.Page :=
  Controller.handle Controller.StepClick
    (Controller.handle (Controller.Init "LRU" (codes "1 2 1"))
       (Controller.loaded (jsInt 2) None (0, 0) false false false)).

Definition pagePlaying : Controller.Page :=
  Controller.handle Controller.PlayClick
    (Controller.handle (Controller.Init "CLOCK" (codes "1 2 1"))
       (Controller.loaded (jsInt 2) None (0, 0) false false false)).

(** Two LRU runs over the same references, side by side after [i] turns,
    the second with at least as many slots: every page resident in the
    first is resident in the second, and as long as the first has an empty
    slot both hold the same pages. *)
Definition lruPair (c c' : nat) (refs : list Z) (i : nat) (st st' : LruState) : Prop :=
  lruInv c st ∧ lruInv c' st' ∧ lruStamps refs i st ∧ lruStamps refs i st' ∧
  (∀ q, Some q ∈ lruFrames st → Some q ∈ lruFrames st') ∧
  (None ∈ lruFrames st → ∀ q, Some q ∈ lruFrames st' → Some q ∈ lruFrames st).

(** * Properties *)

(** ** Array facts *)

Lemma indexOf_Some {A : Type} `{EqDecision A} (x : A) (arr : list A) (k : nat) :
  indexOf x arr = Some k →
  arr !! k = Some x ∧ k < length arr ∧ ∀ j, j < k → arr !! j ≠ Some x.
Proof.
  revert k. induction arr as [|y arr IH]; intros k Hk; simpl in Hk; [done|].
  destruct (decide (y = x)) as [->|Hne].
  - injection Hk as <-. simpl. split_and!; [done|lia|intros j Hj; lia].
  - destruct (indexOf x arr) as [k'|] eqn:E; [|done].
    injection Hk as <-. destruct (IH k' eq_refl) as (H1 & H2 & H3).
    simpl. split_and!; [done|lia|].
    intros [|j] Hj; simpl; [congruence|]. apply H3. lia.
Qed.

Lemma indexOf_None {A : Type} `{EqDecision A} (x : A) (arr : list A) :
  indexOf x arr = None ↔ x ∉ arr.
Proof.
  induction arr as [|y arr IH]; simpl.
  - split; [intros _; apply not_elem_of_nil|done].
  - destruct (decide (y = x)) as [->|Hne].
    + split; [done|]. intros H. exfalso. apply H. left.
    + destruct (indexOf x arr) as [k|] eqn:E.
      * split; [done|]. intros H. exfalso.
        assert (x ∉ arr) as H' by (intros ?; apply H; by right).
        apply IH in H'. done.
      * split; [|done]. intros _ Hin. apply elem_of_cons in Hin as [->|Hin]; [done|].
        by apply IH in Hin.
Qed.

Lemma slotAt_lookup (arr : list (option Z)) (i : nat) (s : option Z) :
  arr !! i = Some s → slotAt arr i = s.
Proof. unfold slotAt. by intros ->. Qed.

Lemma NoDupPages_fill (n : nat) : NoDupPages (fill n None).
Proof.
  intros i j q Hi _. unfold fill in Hi.
  apply lookup_replicate in Hi as [? _]. done.
Qed.

Lemma NoDupPages_insert (fr : list (option Z)) (j : nat) (p : Z) :
  NoDupPages fr → Some p ∉ fr → NoDupPages (<[j := Some p]> fr).
Proof.
  intros Hnd Hp a b q Ha Hb.
  destruct (decide (a = j)) as [->|Haj], (decide (b = j)) as [->|Hbj]; [done|..].
  - apply list_lookup_insert_Some in Ha as [(_ & Hq & _)|[? _]]; [|done].
    rewrite list_lookup_insert_ne in Hb by done.
    exfalso. apply Hp. rewrite Hq. by eapply list_elem_of_lookup_2.
  - apply list_lookup_insert_Some in Hb as [(_ & Hq & _)|[? _]]; [|done].
    rewrite list_lookup_insert_ne in Ha by done.
    exfalso. apply Hp. rewrite Hq. by eapply list_elem_of_lookup_2.
  - rewrite list_lookup_insert_ne in Ha by done.
    rewrite list_lookup_insert_ne in Hb by done. eauto.
Qed.

Lemma NoDupPages_tail (s : option Z) (fr : list (option Z)) :
  NoDupPages (s :: fr) → NoDupPages fr.
Proof. intros H i j q Hi Hj. specialize (H (S i) (S j) q Hi Hj). lia. Qed.

Lemma NoDupPages_head (p : Z) (fr : list (option Z)) :
  NoDupPages (Some p :: fr) → Some p ∉ fr.
Proof.
  intros H Hin. apply list_elem_of_lookup in Hin as [j Hj].
  specialize (H 0 (S j) p eq_refl Hj). lia.
Qed.

(** ** Counting the resident pages that a stretch of references asks for *)

Lemma cnt_le_length u fr : cnt u fr ≤ length fr.
Proof. induction fr as [|s fr IH]; simpl; [lia|]. destruct (inWindow u s); lia. Qed.

Lemma cnt_all u fr :
  (∀ s, s ∈ fr → inWindow u s = true) → cnt u fr = length fr.
Proof.
  induction fr as [|s fr IH]; intros H; simpl; [done|].
  rewrite (H s) by left. rewrite IH; [done|]. intros s' Hs'. apply H. by right.
Qed.

Lemma cnt_outsider u fr s :
  s ∈ fr → inWindow u s = false → cnt u fr < length fr.
Proof.
  induction fr as [|s' fr IH]; intros Hin Hs; [by apply elem_of_nil in Hin|].
  simpl. apply elem_of_cons in Hin as [->|Hin].
  - rewrite Hs. pose proof (cnt_le_length u fr). lia.
  - specialize (IH Hin Hs). destruct (inWindow u s'); lia.
Qed.

Lemma cnt_insert u fr j x :
  j < length fr →
  cnt u (<[j := x]> fr) + (if inWindow u (slotAt fr j) then 1 else 0)
  = cnt u fr + (if inWindow u x then 1 else 0).
Proof.
  revert j. induction fr as [|s fr IH]; intros j Hj; simpl in *; [lia|].
  destruct j as [|j]; simpl.
  - unfold slotAt. simpl. destruct (inWindow u s), (inWindow u x); lia.
  - specialize (IH j ltac:(lia)). unfold slotAt in *. simpl.
    destruct (inWindow u s); lia.
Qed.

Lemma inWindow_cons p u s :
  inWindow (p :: u) s = inWindow u s || inWindow [p] s.
Proof.
  destruct s as [q|]; simpl; [|done].
  destruct (decide (q ∈ u)) as [Hq|Hq].
  - rewrite (bool_decide_eq_true_2 _ Hq). simpl.
    apply bool_decide_eq_true_2. by right.
  - rewrite (bool_decide_eq_false_2 _ Hq). simpl.
    destruct (decide (q = p)) as [->|Hne].
    + rewrite !bool_decide_eq_true_2; [done|left|left].
    + rewrite !bool_decide_eq_false_2; [done| |].
      * intros H. apply list_elem_of_singleton in H. done.
      * intros H. apply elem_of_cons in H as [?|?]; done.
Qed.

Lemma cnt_cons p u fr :
  cnt (p :: u) fr = cnt u fr + (if bool_decide (p ∈ u) then 0 else cnt [p] fr).
Proof.
  induction fr as [|s fr IH]; simpl; [by destruct (bool_decide _)|].
  rewrite IH, inWindow_cons.
  destruct (inWindow u s) eqn:Eu, (inWindow [p] s) eqn:Ep, (bool_decide (p ∈ u)) eqn:Ed;
    simpl; try lia.
  - exfalso. destruct s as [q|]; [|done]. simpl in *.
    apply bool_decide_eq_true_1 in Eu, Ep.
    apply list_elem_of_singleton in Ep as ->.
    apply bool_decide_eq_false_1 in Ed. done.
  - exfalso. destruct s as [q|]; [|done]. simpl in *.
    apply bool_decide_eq_true_1 in Ep, Ed.
    apply list_elem_of_singleton in Ep as ->.
    apply bool_decide_eq_false_1 in Eu. done.
Qed.

Lemma cnt_single_resident p fr : Some p ∈ fr → 1 ≤ cnt [p] fr.
Proof.
  induction fr as [|s fr IH]; intros Hin; [by apply elem_of_nil in Hin|].
  simpl. apply elem_of_cons in Hin as [<-|Hin].
  - simpl. rewrite bool_decide_eq_true_2 by left. lia.
  - specialize (IH Hin). lia.
Qed.

Lemma cnt_single_absent p fr : Some p ∉ fr → cnt [p] fr = 0.
Proof.
  induction fr as [|s fr IH]; intros Hin; [done|].
  simpl. rewrite IH; [|intros ?; apply Hin; by right].
  destruct s as [q|]; simpl; [|done].
  rewrite bool_decide_eq_false_2; [done|].
  intros H. apply list_elem_of_singleton in H as ->. apply Hin. left.
Qed.

Lemma cnt_single_NoDup p fr : NoDupPages fr → cnt [p] fr ≤ 1.
Proof.
  induction fr as [|s fr IH]; intros Hnd; simpl; [lia|].
  specialize (IH (NoDupPages_tail _ _ Hnd)).
  destruct s as [q|]; simpl; [|lia].
  destruct (decide (q = p)) as [->|Hne].
  - rewrite (cnt_single_absent p fr (NoDupPages_head _ _ Hnd)).
    destruct (bool_decide _); lia.
  - rewrite bool_decide_eq_false_2; [lia|].
    intros H. apply list_elem_of_singleton in H. done.
Qed.

(** The exchange argument as a counting invariant: as long as, for every
    stretch of the coming references, the other table holds at most [d] more
    of the pages it asks for than the farthest-next-use table, the latter
    ends with at most [d] more faults. *)
Lemma belady_lead (w : list Z) :
  ∀ (S T : list (option Z)) (fO fA d : nat),
    beladyRun w S fO → demandRun w T fA →
    NoDupPages S → length S = length T →
    (∀ n, cnt (take n w) T ≤ cnt (take n w) S + d) →
    fO ≤ fA + d.
Proof.
  induction w as [|p w IH]; intros S T fO fA d HO HA Hnd Hlen Hcnt.
  - inversion HO; subst. lia.
  - inversion HO as [|? ? ? S' bO fO' HsO HrO]; subst.
    inversion HA as [|? ? ? T' bA fA' HsA HrA]; subst.
    pose proof (Hcnt 1) as H1. simpl in H1. rewrite take_0 in H1.
    assert (∀ n, cnt (take n w) T
                 + (if bool_decide (p ∈ take n w) then 0 else cnt [p] T)
                 ≤ cnt (take n w) S
                   + (if bool_decide (p ∈ take n w) then 0 else cnt [p] S) + d)
      as Hc.
    { intros n. specialize (Hcnt (Datatypes.S n)). simpl in Hcnt.
      by rewrite (cnt_cons p (take n w) T), (cnt_cons p (take n w) S) in Hcnt. }
    pose proof (cnt_single_NoDup p S Hnd) as HoccS.
    destruct bO, bA; simpl in HsO, HsA.
    + (* both fault *)
      destruct HsO as (HpS & j & Hj & -> & Hfar).
      destruct HsA as (HpT & jA & HjA & ->).
      enough (fO' ≤ fA' + d) by lia.
      eapply IH; [done|done| | |].
      * by apply NoDupPages_insert.
      * by rewrite !length_insert.
      * intros n. specialize (Hc n).
        rewrite (cnt_single_absent p S HpS), (cnt_single_absent p T HpT) in Hc.
        pose proof (cnt_insert (take n w) S j (Some p) Hj) as HiS.
        pose proof (cnt_insert (take n w) T jA (Some p) HjA) as HiT.
        pose proof (cnt_le_length (take n w) (<[jA := Some p]> T)) as HleT.
        rewrite length_insert in HleT.
        assert (Some p ∈ <[jA := Some p]> T) as HpT'.
        { eapply list_elem_of_lookup_2. by apply list_lookup_insert_eq. }
        simpl in HiS, HiT.
        destruct (inWindow (take n w) (slotAt S j)) eqn:Ev.
        -- rewrite (cnt_all _ S (λ s, Hfar n s Ev)) in HiS.
           destruct (bool_decide (p ∈ take n w)) eqn:Ep; [lia|].
           pose proof (cnt_outsider (take n w) _ (Some p) HpT' Ep) as Hout.
           rewrite length_insert in Hout. lia.
        -- destruct (bool_decide (p ∈ take n w));
             destruct (inWindow (take n w) (slotAt T jA)); lia.
    + (* the farthest-next-use table faults, the other hits *)
      destruct HsO as (HpS & j & Hj & -> & Hfar).
      destruct HsA as (HpT & ->).
      pose proof (cnt_single_resident p T HpT) as HoccT.
      rewrite (cnt_single_absent p S HpS) in H1.
      destruct d as [|d]; [lia|].
      enough (fO' ≤ fA' + d) by lia.
      eapply IH; [done|done| | |].
      * by apply NoDupPages_insert.
      * by rewrite length_insert.
      * intros n. specialize (Hc n).
        rewrite (cnt_single_absent p S HpS) in Hc.
        pose proof (cnt_insert (take n w) S j (Some p) Hj) as HiS.
        pose proof (cnt_le_length (take n w) T) as HleT.
        simpl in HiS.
        destruct (inWindow (take n w) (slotAt S j)) eqn:Ev.
        -- rewrite (cnt_all _ S (λ s, Hfar n s Ev)) in HiS.
           destruct (bool_decide (p ∈ take n w)) eqn:Ep; [lia|].
           pose proof (cnt_outsider (take n w) _ (Some p) HpT Ep) as Hout. lia.
        -- destruct (bool_decide (p ∈ take n w)); lia.
    + (* the farthest-next-use table hits, the other faults *)
      destruct HsO as (HpS & ->).
      destruct HsA as (HpT & jA & HjA & ->).
      enough (fO' ≤ fA' + Datatypes.S d) by lia.
      eapply IH; [done|done|done| |].
      * by rewrite length_insert.
      * intros n. specialize (Hc n).
        rewrite (cnt_single_absent p T HpT) in Hc.
        pose proof (cnt_insert (take n w) T jA (Some p) HjA) as HiT.
        simpl in HiT.
        destruct (bool_decide (p ∈ take n w));
          destruct (inWindow (take n w) (slotAt T jA)); lia.
    + (* both hit *)
      destruct HsO as (HpS & ->). destruct HsA as (HpT & ->).
      pose proof (cnt_single_resident p T HpT) as HoccT.
      enough (fO' ≤ fA' + d) by lia.
      eapply IH; [done|done|done|done|].
      intros n. specialize (Hc n).
      destruct (bool_decide (p ∈ take n w)); lia.
Qed.

(** ** Runs of an engine *)

Section Runs.
Context {St : Type} `{Engine St}.
Variable body : nat → Z → St → result (St * Step).

Lemma trace_forLoop i rest st stf ss :
  trace body i rest st stf ss → forLoop body i rest st = Ok (stf, ss).
Proof.
  induction 1 as [|i p rest st st' s stf ss Hb _ _ IH]; simpl; [done|].
  rewrite Hb. simpl. rewrite IH. done.
Qed.

Lemma trace_length i rest st stf ss :
  trace body i rest st stf ss → length ss = length rest.
Proof. induction 1; simpl; congruence. Qed.

Lemma trace_lookup i rest st stf ss k p :
  trace body i rest st stf ss → rest !! k = Some p →
  ∃ s, ss !! k = Some s ∧ index s = i + k ∧ page s = p ∧ hit s = negb (fault s).
Proof.
  intros Ht. revert k.
  induction Ht as [|i q rest st st' s stf ss _ Hs _ IH]; intros k Hk; [done|].
  destruct k as [|k]; simpl in *.
  - injection Hk as ->. exists s. destruct Hs. split_and!; [done|lia|done|done].
  - destruct (IH k Hk) as (s' & ? & ? & ? & ?). exists s'.
    split_and!; [done|lia|done|done].
Qed.

Lemma trace_flags i rest st stf ss s :
  trace body i rest st stf ss → s ∈ ss → hit s = negb (fault s).
Proof.
  induction 1 as [|i q rest st st' s' stf ss _ Hs _ IH]; intros Hin.
  - by apply elem_of_nil in Hin.
  - apply elem_of_cons in Hin as [->|Hin]; [by destruct Hs|auto].
Qed.

Lemma trace_counts i rest st stf ss :
  trace body i rest st stf ss →
  stHits stf = stHits st + countHits ss ∧
  stFaults stf = stFaults st + countFaults ss.
Proof.
  unfold countHits, countFaults.
  induction 1 as [|i q rest st st' s stf ss _ Hs _ [IH1 IH2]]; simpl; [lia|].
  destruct Hs as [_ _ _ _ Hh Hf _]. rewrite !filter_cons.
  destruct (hit s), (fault s); repeat case_decide; simpl; try done; lia.
Qed.

Lemma trace_tables i rest st stf ss n :
  trace body i rest st stf ss →
  length (stFrames st) = n → NoDupPages (stFrames st) →
  (length (stFrames stf) = n ∧ NoDupPages (stFrames stf)) ∧
  ∀ s, s ∈ ss → length (frames s) = n ∧ NoDupPages (frames s).
Proof.
  induction 1 as [|i q rest st st' s stf ss _ Hs _ IH]; intros Hlen Hnd.
  - split; [done|]. intros s Hin. by apply elem_of_nil in Hin.
  - assert (length (stFrames st') = n ∧ NoDupPages (stFrames st')) as [Hl' Hn'].
    { destruct Hs as [_ _ _ _ _ _ Hd]. unfold demandStep in Hd.
      destruct (fault s).
      - destruct Hd as (Hp & j & Hj & ->). rewrite length_insert.
        split; [done|by apply NoDupPages_insert].
      - destruct Hd as (_ & ->). done. }
    destruct (IH Hl' Hn') as [Hf Hall]. split; [done|].
    intros s' Hin. apply elem_of_cons in Hin as [->|Hin]; [|auto].
    destruct Hs as [_ _ -> _ _ _ _]. done.
Qed.

Lemma trace_demandRun i rest st stf ss :
  trace body i rest st stf ss →
  demandRun rest (stFrames st) (countFaults ss).
Proof.
  unfold countFaults.
  induction 1 as [|i q rest st st' s stf ss _ Hs _ IH]; simpl; [constructor|].
  rewrite filter_cons. destruct Hs as [_ _ _ _ _ _ Hd].
  pose proof (demandRun_cons q rest _ _ (fault s) _ Hd IH) as Hr.
  destruct (fault s); case_decide; simpl in *; done.
Qed.

Lemma trace_take i rest st stf ss n :
  trace body i rest st stf ss →
  ∃ stn, trace body i (take n rest) st stn (take n ss).
Proof.
  intros Ht. revert n.
  induction Ht as [|i q rest st st' s stf ss Hb Hs _ IH]; intros n.
  - exists st. rewrite !take_nil. constructor.
  - destruct n as [|n]; simpl; [exists st; constructor|].
    destruct (IH n) as [stn Hn]. exists stn. by econstructor.
Qed.

Lemma trace_last i rest st stf ss s :
  trace body i rest st stf ss → last ss = Some s → frames s = stFrames stf.
Proof.
  induction 1 as [|i q rest st st' s' stf ss _ Hs Ht IH]; intros Hl; [done|].
  destruct ss as [|s'' ss].
  - inversion Ht; subst. simpl in Hl. injection Hl as <-. by destruct Hs.
  - apply IH. by rewrite last_cons_cons in Hl.
Qed.

(** An engine whose loop body never fails on a state satisfying [Inv],
    keeps [Inv], and acts as [stepOK] says. *)
Variable Inv : St → Prop.
Hypothesis body_ok : ∀ i p st, Inv st →
  ∃ st' s, body i p st = Ok (st', s) ∧ Inv st' ∧ stepOK i p st st' s.

Lemma trace_exists i rest st :
  Inv st → ∃ stf ss, trace body i rest st stf ss ∧ Inv stf.
Proof.
  revert i st. induction rest as [|p rest IH]; intros i st HI.
  - exists st, []. split; [constructor|done].
  - destruct (body_ok i p st HI) as (st' & s & Hb & HI' & Hs).
    destruct (IH (S i) st' HI') as (stf & ss & Ht & HIf).
    exists stf, (s :: ss). split; [by econstructor|done].
Qed.
End Runs.

(** ** Order facts on numbers with infinities *)

Lemma xlt_irrefl a : xlt a a = false.
Proof. destruct a; simpl; [done| |done]. apply Z.ltb_irrefl. Qed.

(** [a < b] and not [c < b] give [a < c]. *)
Lemma xlt_lt_le a b c : xlt a b = true → xlt c b = false → xlt a c = true.
Proof.
  destruct a, b, c; simpl; try done.
  rewrite !Z.ltb_lt, Z.ltb_ge. lia.
Qed.

(** not [b < a] and [b < c] give [a < c]. *)
Lemma xlt_le_lt a b c : xlt b a = false → xlt b c = true → xlt a c = true.
Proof.
  destruct a, b, c; simpl; try done.
  rewrite Z.ltb_ge, !Z.ltb_lt. lia.
Qed.

(** not [a < b] and [c < b] give not [a < c]. *)
Lemma xlt_ge_gt a b c : xlt a b = false → xlt c b = true → xlt a c = false.
Proof.
  destruct a, b, c; simpl; try done.
  rewrite !Z.ltb_ge, Z.ltb_lt. lia.
Qed.

(** ** Victim scans: the first best slot wins
    The LRU and OPT scans are the same loop over the slots [0 .. k-1]: a
    running best that a slot replaces only when its key is strictly better.
    [better cand best] is the test of the source, [xlt cand best] for LRU and
    [xgt cand best] for OPT. *)

Section Scan.
Context {I : Type}.
Variable inj : nat → I.
Variable key : nat → xnum.
Variable slot : nat → option Z.
Variable better : xnum → xnum → bool.

Hypothesis better_irrefl : ∀ a, better a a = false.
Hypothesis better_keep : ∀ a b c,
  better a b = false → better c b = true → better a c = false.
Hypothesis better_pass : ∀ a b c,
  better a b = true → better c b = false → better a c = true.

Lemma scan_first_best (init : I * option Z * xnum) (k : nat) :
  better (key 0) (init.2) = true →
  1 ≤ k →
  ∃ vi, foldl (scanStep inj key slot better) init (seq 0 k) = (inj vi, slot vi, key vi) ∧
        vi < k ∧
        (∀ fi, fi < k → better (key fi) (key vi) = false) ∧
        (∀ fi, fi < vi → better (key vi) (key fi) = true).
Proof.
  intros Hinit Hk. destruct k as [|k]; [lia|]. clear Hk.
  induction k as [|k IH].
  - exists 0. simpl. destruct init as [[i0 p0] b0]. simpl in *. rewrite Hinit.
    split_and!; [done|lia| |intros; lia].
    intros fi Hfi. replace fi with 0 by lia. apply better_irrefl.
  - destruct IH as (vi & Hfold & Hvi & Hall & Hfirst).
    rewrite seq_S, foldl_app, Hfold. simpl.
    destruct (better (key (S k)) (key vi)) eqn:Eb.
    + exists (S k). split_and!; [done|lia| |].
      * intros fi Hfi. destruct (decide (fi = S k)) as [->|Hne].
        -- apply better_irrefl.
        -- eapply better_keep; [|exact Eb]. apply Hall. lia.
      * intros fi Hfi. eapply better_pass; [exact Eb|]. by apply Hall.
    + exists vi. split_and!; [done|lia| |done].
      intros fi Hfi. destruct (decide (fi = S k)) as [->|Hne]; [done|].
      apply Hall. lia.
Qed.
End Scan.

(** The next use of a slot's occupant is either never or a position after
    the current one. *)
Lemma scanNextUse_range page j rest :
  scanNextUse page j rest = PosInf ∨
  ∃ k, scanNextUse page j rest = Fin (Z.of_nat k) ∧ j ≤ k < j + length rest.
Proof.
  revert j. induction rest as [|r rest IH]; intros j; simpl; [by left|].
  destruct (decide (Some r = page)); [right; exists j; split; [done|lia]|].
  destruct (IH (S j)) as [->|(k & -> & Hk)]; [by left|].
  right. exists k. split; [done|lia].
Qed.

(** What [scanNextUse] computes: the smallest position, counted from [j],
    at which [page] occurs in [rest]. *)
Lemma scanNextUse_Fin page j rest (k : nat) :
  scanNextUse page j rest = Fin (Z.of_nat k) ↔
  j ≤ k ∧ (Some <$> (rest !! (k - j))) = Some page ∧
  ∀ m, m < k - j → (Some <$> (rest !! m)) ≠ Some page.
Proof.
  revert j. induction rest as [|r rest IH]; intros j; simpl.
  - split; [done|]. intros (_ & H & _). done.
  - destruct (decide (Some r = page)) as [Heq|Hne].
    + split.
      * intros Hk. assert (k = j) as -> by (injection Hk; lia).
        rewrite Nat.sub_diag. simpl. split_and!; [lia|by rewrite Heq|intros; lia].
      * intros (Hjk & Hat & Hmin).
        destruct (decide (k = j)) as [->|Hkj]; [done|].
        exfalso. apply (Hmin 0); [lia|]. simpl. by rewrite Heq.
    + rewrite IH. split.
      * intros (Hjk & Hat & Hmin).
        replace (k - j) with (S (k - S j)) by lia. simpl.
        split_and!; [lia|done|].
        intros [|m] Hm; simpl; [congruence|]. apply Hmin. lia.
      * intros (Hjk & Hat & Hmin).
        destruct (decide (k = j)) as [->|Hkj].
        { rewrite Nat.sub_diag in Hat. simpl in Hat. congruence. }
        replace (k - j) with (S (k - S j)) in * by lia. simpl in Hat.
        split_and!; [lia|done|].
        intros m Hm. apply (Hmin (S m)). lia.
Qed.

Lemma scanNextUse_PosInf page j rest :
  scanNextUse page j rest = PosInf ↔ ∀ m, (Some <$> (rest !! m)) ≠ Some page.
Proof.
  revert j. induction rest as [|r rest IH]; intros j; simpl.
  - split; [|done]. intros _ m. by destruct m.
  - destruct (decide (Some r = page)) as [Heq|Hne].
    + split; [done|]. intros H. exfalso. apply (H 0). simpl. by rewrite Heq.
    + rewrite IH. split.
      * intros H [|m]; simpl; [congruence|apply H].
      * intros H m. apply (H (S m)).
Qed.

(** The occupant of a slot is asked for within the next [n] references
    exactly when its next use is less than [n] positions away. *)
Lemma inWindow_scanNextUse page j rest n :
  inWindow (take n rest) page = xlt (scanNextUse page j rest) (Fin (Z.of_nat (j + n))).
Proof.
  revert j n. induction rest as [|r rest IH]; intros j n; simpl.
  - rewrite take_nil. by destruct page.
  - destruct n as [|n].
    + rewrite take_0. replace (inWindow [] page) with false.
      2:{ by destruct page. }
      destruct (decide (Some r = page)); simpl.
      * symmetry. apply Z.ltb_ge. lia.
      * destruct (scanNextUse_range page (S j) rest) as [->|(k & -> & Hk)]; [done|].
        simpl. symmetry. apply Z.ltb_ge. lia.
    + simpl. rewrite inWindow_cons, (IH (S j) n).
      replace (S j + n) with (j + S n) by lia.
      destruct (decide (Some r = page)) as [<-|Hne]; simpl.
      * rewrite bool_decide_eq_true_2 by left. rewrite orb_true_r.
        symmetry. apply Z.ltb_lt. lia.
      * replace (inWindow [r] page) with false; [by rewrite orb_false_r|].
        destruct page as [q|]; simpl; [|done]. symmetry.
        apply bool_decide_eq_false_2. intros Hq.
        apply list_elem_of_singleton in Hq. congruence.
Qed.

Lemma xlt_asym a b : xlt a b = true → xlt b a = false.
Proof.
  destruct a, b; simpl; try done. rewrite Z.ltb_lt, Z.ltb_ge. lia.
Qed.

(** ** FIFO: one turn of the loop *)

Lemma fifoBody_ok framesCount i p st :
  fifoInv framesCount st →
  ∃ st' s, fifoBody framesCount i p st = Ok (st', s) ∧
           fifoInv framesCount st' ∧ stepOK i p st st' s.
Proof.
  intros [Hlen Hptr]. unfold fifoBody, fifoPush.
  destruct (indexOf (Some p) (fifoFrames st)) as [hitIndex|] eqn:Eh.
  - apply indexOf_Some in Eh as (Hat & _ & _).
    eexists _, _. split; [reflexivity|]. split; [by split|].
    constructor; simpl; try done; try lia.
    split; [by eapply list_elem_of_lookup_2|done].
  - apply indexOf_None in Eh.
    destruct (indexOf None (fifoFrames st)) as [emptyIndex|] eqn:Ee.
    + apply indexOf_Some in Ee as (_ & Hlt & _).
      eexists _, _. split; [reflexivity|]. split.
      { split; simpl; [by rewrite length_insert|done]. }
      constructor; simpl; try done; try lia.
      split; [done|]. by exists emptyIndex.
    + eexists _, _. split; [reflexivity|]. split.
      { split; simpl; [by rewrite length_insert|].
        apply Nat.mod_upper_bound. lia. }
      constructor; simpl; try done; try lia.
      split; [done|]. exists (fifoPointer st). split; [lia|done].
Qed.

Lemma fifoInv_init framesCount :
  1 ≤ framesCount → fifoInv framesCount (fifoInit framesCount).
Proof. intros H. split; simpl; [apply length_replicate|lia]. Qed.

(** ** LRU: the victim scan and one turn of the loop *)

Lemma lruStamp_finite lastUsed page : xlt (lruStamp lastUsed page) PosInf = true.
Proof. unfold lruStamp. destruct page as [q|]; [destruct (lastUsed !! q)|]; done. Qed.

Lemma lruVictim_spec framesCount fr lastUsed :
  1 ≤ framesCount →
  ∃ vi, lruVictim framesCount fr lastUsed
        = (Z.of_nat vi, slotAt fr vi, lruStamp lastUsed (slotAt fr vi)) ∧
        vi < framesCount ∧
        (∀ fi, fi < framesCount →
               xlt (lruStamp lastUsed (slotAt fr fi))
                   (lruStamp lastUsed (slotAt fr vi)) = false) ∧
        (∀ fi, fi < vi →
               xlt (lruStamp lastUsed (slotAt fr vi))
                   (lruStamp lastUsed (slotAt fr fi)) = true).
Proof.
  intros Hfc.
  apply (scan_first_best Z.of_nat (λ fi, lruStamp lastUsed (slotAt fr fi))
           (slotAt fr) xlt xlt_irrefl xlt_ge_gt xlt_lt_le
           ((-1)%Z, None, PosInf) framesCount); [|done].
  apply lruStamp_finite.
Qed.

Lemma setAtZ_of_nat {A : Type} (arr : list A) (k : nat) (v : A) :
  setAtZ arr (Z.of_nat k) v = <[k := v]> arr.
Proof.
  unfold setAtZ. destruct (Z.ltb_spec (Z.of_nat k) 0); [lia|].
  by rewrite Nat2Z.id.
Qed.

Lemma elem_of_insert_slot (fr : list (option Z)) (j : nat) (x s : option Z) :
  j < length fr →
  s ∈ <[j := x]> fr ↔ s = x ∨ ∃ k, k ≠ j ∧ fr !! k = Some s.
Proof.
  intros Hj. split.
  - intros Hin. apply list_elem_of_lookup in Hin as [k Hk].
    destruct (decide (k = j)) as [->|Hne].
    + rewrite list_lookup_insert_eq in Hk by done. left. congruence.
    + rewrite list_lookup_insert_ne in Hk by done. right. by exists k.
  - intros [->|(k & Hne & Hk)].
    + eapply list_elem_of_lookup_2. by apply list_lookup_insert_eq.
    + eapply list_elem_of_lookup_2. by rewrite list_lookup_insert_ne.
Qed.

Lemma lruInv_init framesCount :
  1 ≤ framesCount → lruInv framesCount (lruInit framesCount).
Proof.
  intros H. split_and!; simpl; [apply length_replicate|done|apply NoDupPages_fill|].
  intros q. simpl. rewrite lookup_empty. split.
  - intros [? ?]. done.
  - intros Hin. apply elem_of_replicate in Hin as [? _]. done.
Qed.

Lemma lruBody_ok framesCount i p st :
  lruInv framesCount st →
  ∃ st' s, lruBody framesCount i p st = Ok (st', s) ∧
           lruInv framesCount st' ∧ stepOK i p st st' s.
Proof.
  intros (Hlen & Hfc & Hnd & Htr). unfold lruBody, lruPush.
  destruct (indexOf (Some p) (lruFrames st)) as [hitIndex|] eqn:Eh.
  - apply indexOf_Some in Eh as (Hat & _ & _).
    assert (Some p ∈ lruFrames st) as Hin by by eapply list_elem_of_lookup_2.
    eexists _, _. split; [reflexivity|]. split.
    { split_and!; simpl; try done. intros q. simpl.
      destruct (decide (q = p)) as [->|Hne].
      - rewrite lookup_insert_eq. split; [done|by eexists].
      - rewrite lookup_insert_ne by done. apply Htr. }
    constructor; simpl; try done; lia.
  - apply indexOf_None in Eh.
    destruct (indexOf None (lruFrames st)) as [emptyIndex|] eqn:Ee.
    + apply indexOf_Some in Ee as (Hat & Hlt & _).
      eexists _, _. split; [reflexivity|]. split.
      { split_and!; simpl; [by rewrite length_insert|done|
                            by apply NoDupPages_insert|].
        intros q. simpl. rewrite elem_of_insert_slot by done.
        destruct (decide (q = p)) as [->|Hne].
        - rewrite lookup_insert_eq. split; [by left|by eexists].
        - rewrite lookup_insert_ne by done. rewrite (Htr q). split.
          + intros Hin. right. apply list_elem_of_lookup in Hin as [k Hk].
            exists k. split; [congruence|done].
          + intros [?|(k & _ & Hk)]; [congruence|].
            by eapply list_elem_of_lookup_2. }
      constructor; simpl; try done; try lia.
      split; [done|]. by exists emptyIndex.
    + apply indexOf_None in Ee.
      destruct (lruVictim_spec framesCount (lruFrames st) (lruLastUsed st) Hfc)
        as (vi & -> & Hvi & _ & _).
      rewrite setAtZ_of_nat.
      assert (vi < length (lruFrames st)) as Hvl by lia.
      destruct (lookup_lt_is_Some_2 _ _ Hvl) as [vs Hvs].
      rewrite (slotAt_lookup _ _ _ Hvs).
      destruct vs as [v|]; [|exfalso; apply Ee; by eapply list_elem_of_lookup_2].
      eexists _, _. split; [reflexivity|]. split.
      { split_and!; simpl; [by rewrite length_insert|done|
                            by apply NoDupPages_insert|].
        intros q. simpl. rewrite elem_of_insert_slot by done.
        destruct (decide (q = p)) as [->|Hne].
        - rewrite lookup_insert_eq. split; [by left|by eexists].
        - rewrite lookup_insert_ne by done.
          destruct (decide (q = v)) as [->|Hqv].
          + rewrite lookup_delete_eq. split; [by intros [? ?]|].
            intros [?|(k & Hk & Hat)]; [congruence|].
            exfalso. apply Hk. by apply (Hnd k vi v).
          + rewrite lookup_delete_ne by done. rewrite (Htr q). split.
            * intros Hin. right. apply list_elem_of_lookup in Hin as [k Hk].
              exists k. split; [congruence|done].
            * intros [?|(k & _ & Hk)]; [congruence|].
              by eapply list_elem_of_lookup_2. }
      constructor; simpl; try done; try lia.
      split; [done|]. by exists vi.
Qed.

(** ** OPT: the victim scan and one turn of the loop *)

Lemma xgt_irrefl a : xgt a a = false.
Proof. apply xlt_irrefl. Qed.

Lemma xgt_keep a b c : xgt a b = false → xgt c b = true → xgt a c = false.
Proof. unfold xgt. intros H1 H2. apply xlt_asym. by eapply xlt_le_lt. Qed.

Lemma xgt_pass a b c : xgt a b = true → xgt c b = false → xgt a c = true.
Proof. unfold xgt. intros H1 H2. by eapply xlt_le_lt. Qed.

Lemma nextUse_after refs i page : xgt (nextUse refs i page) (Fin (-1)) = true.
Proof.
  unfold nextUse, xgt.
  destruct (scanNextUse_range page (i + 1) (drop (i + 1) refs))
    as [->|(k & -> & _)]; [done|].
  simpl. apply Z.ltb_lt. lia.
Qed.

Lemma optVictim_spec framesCount refs i fr :
  1 ≤ framesCount →
  ∃ vi, optVictim framesCount refs i fr
        = (vi, slotAt fr vi, nextUse refs i (slotAt fr vi)) ∧
        vi < framesCount ∧
        (∀ fi, fi < framesCount →
               xgt (nextUse refs i (slotAt fr fi))
                   (nextUse refs i (slotAt fr vi)) = false) ∧
        (∀ fi, fi < vi →
               xgt (nextUse refs i (slotAt fr vi))
                   (nextUse refs i (slotAt fr fi)) = true).
Proof.
  intros Hfc.
  apply (scan_first_best id (λ fi, nextUse refs i (slotAt fr fi))
           (slotAt fr) xgt xgt_irrefl xgt_keep xgt_pass
           (0, slotAt fr 0, Fin (-1)) framesCount); [|done].
  apply nextUse_after.
Qed.

(** The slot the scan settles on is a farthest one. *)
Lemma optVictim_farthest framesCount refs i fr vi :
  length fr = framesCount →
  (∀ fi, fi < framesCount →
         xgt (nextUse refs i (slotAt fr fi)) (nextUse refs i (slotAt fr vi)) = false) →
  farthestSlot (drop (i + 1) refs) fr vi.
Proof.
  intros Hlen Hmax n s Hv Hs.
  apply list_elem_of_lookup in Hs as [fi Hfi].
  pose proof (lookup_lt_Some _ _ _ Hfi) as Hlt.
  rewrite <- (slotAt_lookup _ _ _ Hfi).
  rewrite (inWindow_scanNextUse _ (i + 1)) in Hv.
  rewrite (inWindow_scanNextUse _ (i + 1)).
  specialize (Hmax fi ltac:(lia)). unfold xgt, nextUse in Hmax.
  by eapply xlt_le_lt.
Qed.

Lemma optInv_init framesCount :
  1 ≤ framesCount → optInv framesCount (optInit framesCount).
Proof. intros H. split; simpl; [apply length_replicate|done]. Qed.

Lemma optBody_ok framesCount refs i p st :
  optInv framesCount st →
  ∃ st' s, optBody framesCount refs i p st = Ok (st', s) ∧
           optInv framesCount st' ∧ stepOK i p st st' s ∧
           beladyStep (drop (i + 1) refs) p (optFrames st) (optFrames st') (fault s).
Proof.
  intros [Hlen Hfc]. unfold optBody, optPush.
  destruct (indexOf (Some p) (optFrames st)) as [hitIndex|] eqn:Eh.
  - apply indexOf_Some in Eh as (Hat & _ & _).
    assert (Some p ∈ optFrames st) as Hin by by eapply list_elem_of_lookup_2.
    eexists _, _. split; [reflexivity|]. split; [by split|]. split.
    + constructor; simpl; try done; lia.
    + simpl. done.
  - apply indexOf_None in Eh.
    destruct (indexOf None (optFrames st)) as [emptyIndex|] eqn:Ee.
    + apply indexOf_Some in Ee as (Hat & Hlt & _).
      eexists _, _. split; [reflexivity|]. split.
      { split; simpl; [by rewrite length_insert|done]. }
      split.
      * constructor; simpl; try done; try lia.
        split; [done|]. by exists emptyIndex.
      * simpl. split; [done|]. exists emptyIndex. split_and!; [done|done|].
        intros n s Hw _. rewrite (slotAt_lookup _ _ _ Hat) in Hw. done.
    + destruct (optVictim_spec framesCount refs i (optFrames st) Hfc)
        as (vi & -> & Hvi & Hmax & _).
      eexists _, _. split; [reflexivity|]. split.
      { split; simpl; [by rewrite length_insert|done]. }
      split.
      * constructor; simpl; try done; try lia.
        split; [done|]. exists vi. split; [lia|done].
      * simpl. split; [done|]. exists vi. split_and!; [lia|done|].
        by eapply optVictim_farthest.
Qed.

(** A run of the OPT loop from position [i] is a farthest-next-use run over
    the references from [i] on. *)
Lemma optLoop_belady framesCount refs rest :
  ∀ i st, drop i refs = rest → optInv framesCount st →
  ∃ stf ss, trace (optBody framesCount refs) i rest st stf ss ∧
            optInv framesCount stf ∧
            beladyRun rest (optFrames st) (countFaults ss).
Proof.
  induction rest as [|p rest IH]; intros i st Hdrop HI.
  - exists st, []. split_and!; [constructor|done|constructor].
  - destruct (optBody_ok framesCount refs i p st HI) as (st' & s & Hb & HI' & Hs & Hbel).
    assert (drop (i + 1) refs = rest) as Hdrop'.
    { by rewrite <- drop_drop, Hdrop. }
    rewrite Hdrop' in Hbel. replace (i + 1) with (S i) in Hdrop' by lia.
    destruct (IH (S i) st' Hdrop' HI') as (stf & ss & Ht & HIf & Hrun).
    exists stf, (s :: ss). split_and!; [by econstructor|done|].
    unfold countFaults in *. rewrite filter_cons.
    pose proof (beladyRun_cons p rest _ _ (fault s) _ Hbel Hrun) as Hr.
    destruct (fault s); case_decide; simpl in *; done.
Qed.

(** ** CLOCK: the scan and one turn of the loop *)

Lemma clearedBehind_step framesCount z hand refBits :
  length refBits = framesCount → hand < framesCount → z < framesCount →
  clearedBehind framesCount z hand refBits →
  clearedBehind framesCount (S z) ((hand + 1) mod framesCount)
                (<[hand := 0%Z]> refBits).
Proof.
  intros Hlen Hh Hz Hc d Hd.
  rewrite Nat.Div0.add_mod_idemp_l.
  destruct (decide (d = 1)) as [->|Hd1].
  - replace (hand + 1 + (framesCount - 1)) with (hand + 1 * framesCount) by lia.
    rewrite Nat.Div0.mod_add, Nat.mod_small by done.
    apply list_lookup_insert_eq. lia.
  - replace (hand + 1 + (framesCount - d)) with (hand + (framesCount - (d - 1))) by lia.
    destruct (decide (hand = (hand + (framesCount - (d - 1))) mod framesCount))
      as [<-|Hne].
    + apply list_lookup_insert_eq. lia.
    + rewrite list_lookup_insert_ne by done. apply Hc. lia.
Qed.

Lemma clockScan_S fuel framesCount p fr refBits hand scans :
  clockScan (S fuel) framesCount p fr refBits hand scans
  = if decide (refBits !! hand = Some 0%Z) then
      Ok (mkEviction (<[hand := Some p]> fr) (<[hand := 1%Z]> refBits)
                     ((hand + 1) mod framesCount) (slotAt fr hand) hand (S scans))
    else if framesCount * 5 <? S scans then
      Throw "Clock algorithm safety break (unexpected loop)."
    else clockScan fuel framesCount p fr (<[hand := 0%Z]> refBits)
                   ((hand + 1) mod framesCount) (S scans).
Proof. reflexivity. Qed.

(** The fuel [clockFuel] hands out is never used up, whatever the state the
    scan starts from: the guard of the source stops the loop first. *)
Lemma clockScan_fuel framesCount p fr :
  ∀ fuel refBits hand scans,
    scans ≤ framesCount * 5 → framesCount * 5 + 1 ≤ scans + fuel →
    clockScan fuel framesCount p fr refBits hand scans ≠ OutOfFuel.
Proof.
  induction fuel as [|fuel IH]; intros refBits hand scans Hle Hfuel; [lia|].
  rewrite clockScan_S. destruct (decide _); [done|].
  destruct (Nat.ltb_spec (framesCount * 5) (S scans)); [done|].
  apply IH; lia.
Qed.

Lemma clockScan_run framesCount p fr :
  ∀ m z fuel refBits hand scans,
    z + m = framesCount → clearedBehind framesCount z hand refBits →
    length refBits = framesCount → hand < framesCount →
    m < fuel → scans + m ≤ framesCount * 5 →
    ∃ k, k ≤ m ∧
         (∀ d, d < k → refBits !! ((hand + d) mod framesCount) ≠ Some 0%Z) ∧
         clearRun framesCount refBits hand k !! ((hand + k) mod framesCount)
           = Some 0%Z ∧
         clockScan fuel framesCount p fr refBits hand scans
         = Ok (mkEviction
                 (<[(hand + k) mod framesCount := Some p]> fr)
                 (<[(hand + k) mod framesCount := 1%Z]>
                    (clearRun framesCount refBits hand k))
                 (((hand + k) mod framesCount + 1) mod framesCount)
                 (slotAt fr ((hand + k) mod framesCount))
                 ((hand + k) mod framesCount)
                 (scans + k + 1)).
Proof.
  induction m as [|m IH]; intros z fuel refBits hand scans Hzm Hc Hlen Hh Hfuel Hsc.
  - exists 0. rewrite Nat.add_0_r, Nat.mod_small by done.
    assert (refBits !! hand = Some 0%Z) as Hbit.
    { specialize (Hc framesCount ltac:(lia)).
      by rewrite Nat.sub_diag, Nat.add_0_r, Nat.mod_small in Hc. }
    split_and!; [done|intros; lia|done|].
    destruct fuel as [|fuel]; [lia|].
    rewrite clockScan_S, decide_True by done. cbn [clearRun].
    by replace (scans + 0 + 1) with (S scans) by lia.
  - destruct fuel as [|fuel]; [lia|].
    destruct (decide (refBits !! hand = Some 0%Z)) as [Hbit|Hbit].
    + exists 0. rewrite Nat.add_0_r, Nat.mod_small by done.
      split_and!; [lia|intros; lia|done|].
      rewrite clockScan_S, decide_True by done. cbn [clearRun].
      by replace (scans + 0 + 1) with (S scans) by lia.
    + destruct (IH (S z) fuel (<[hand := 0%Z]> refBits)
                   ((hand + 1) mod framesCount) (S scans))
        as (k & Hk & Hones & Hzero & Hscan).
      * lia.
      * apply clearedBehind_step; [done|done|lia|done].
      * by rewrite length_insert.
      * apply Nat.mod_upper_bound. lia.
      * lia.
      * lia.
      * exists (S k).
        assert (((hand + 1) mod framesCount + k) mod framesCount
                = (hand + S k) mod framesCount) as Hpos.
        { rewrite Nat.Div0.add_mod_idemp_l. f_equal. lia. }
        rewrite Hpos in Hzero, Hscan.
        split_and!; [lia| |done|].
        -- intros d Hd. destruct d as [|d].
           { by rewrite Nat.add_0_r, Nat.mod_small. }
           specialize (Hones d ltac:(lia)).
           rewrite Nat.Div0.add_mod_idemp_l in Hones.
           replace (hand + 1 + d) with (hand + S d) in Hones by lia.
           destruct (decide (hand = (hand + S d) mod framesCount)) as [Heq|Hne].
           ++ exfalso. apply Hones. rewrite <- Heq.
              apply list_lookup_insert_eq. lia.
           ++ by rewrite list_lookup_insert_ne in Hones.
        -- rewrite clockScan_S, decide_False by done.
           destruct (Nat.ltb_spec (framesCount * 5) (S scans)); [lia|].
           rewrite Hscan. cbn [clearRun].
           by replace (S scans + k + 1) with (scans + S k + 1) by lia.
Qed.

Lemma clockInv_init framesCount :
  1 ≤ framesCount → clockInv framesCount (clockInit framesCount).
Proof. intros H. split_and!; simpl; [apply length_replicate..|lia]. Qed.

(** The scan of a full-table fault, from any state the loop can be in. *)
Lemma clockScan_spec framesCount p fr refBits hand :
  length refBits = framesCount → hand < framesCount →
  ∃ k, k ≤ framesCount ∧
       (∀ d, d < k → refBits !! ((hand + d) mod framesCount) ≠ Some 0%Z) ∧
       clearRun framesCount refBits hand k !! ((hand + k) mod framesCount)
         = Some 0%Z ∧
       clockScan (clockFuel framesCount) framesCount p fr refBits hand 0
       = Ok (mkEviction
               (<[(hand + k) mod framesCount := Some p]> fr)
               (<[(hand + k) mod framesCount := 1%Z]>
                  (clearRun framesCount refBits hand k))
               (((hand + k) mod framesCount + 1) mod framesCount)
               (slotAt fr ((hand + k) mod framesCount))
               ((hand + k) mod framesCount)
               (k + 1)).
Proof.
  intros Hlen Hh.
  destruct (clockScan_run framesCount p fr framesCount 0 (clockFuel framesCount)
              refBits hand 0) as (k & Hk & H1 & H2 & H3);
    [done|intros d Hd; lia|done|done|unfold clockFuel; lia|lia|].
  exists k. by split_and!.
Qed.

Lemma clearRun_length framesCount refBits hand k :
  length (clearRun framesCount refBits hand k) = length refBits.
Proof.
  revert refBits hand. induction k as [|k IH]; intros refBits hand; simpl; [done|].
  by rewrite IH, length_insert.
Qed.

Lemma clearRun_zero_stable framesCount refBits hand k pos :
  refBits !! pos = Some 0%Z →
  clearRun framesCount refBits hand k !! pos = Some 0%Z.
Proof.
  revert refBits hand. induction k as [|k IH]; intros refBits hand Hpos; [done|].
  cbn [clearRun]. apply IH.
  destruct (decide (hand = pos)) as [->|Hne].
  - apply list_lookup_insert_eq. by eapply lookup_lt_Some.
  - by rewrite list_lookup_insert_ne.
Qed.

(** A slot the scan went over is cleared. *)
Lemma clearRun_cleared framesCount refBits hand k d :
  length refBits = framesCount → hand < framesCount → d < k →
  clearRun framesCount refBits hand k !! ((hand + d) mod framesCount) = Some 0%Z.
Proof.
  revert refBits hand d.
  induction k as [|k IH]; intros refBits hand d Hlen Hh Hd; [lia|].
  cbn [clearRun]. destruct d as [|d].
  - rewrite Nat.add_0_r, Nat.mod_small by done.
    apply clearRun_zero_stable, list_lookup_insert_eq. lia.
  - replace ((hand + S d) mod framesCount)
      with (((hand + 1) mod framesCount + d) mod framesCount).
    2:{ rewrite Nat.Div0.add_mod_idemp_l. f_equal. lia. }
    apply IH; [by rewrite length_insert|apply Nat.mod_upper_bound; lia|lia].
Qed.

(** A slot the scan did not go over keeps its bit. *)
Lemma clearRun_other framesCount refBits hand k pos :
  hand < framesCount →
  (∀ d, d < k → pos ≠ (hand + d) mod framesCount) →
  clearRun framesCount refBits hand k !! pos = refBits !! pos.
Proof.
  revert refBits hand.
  induction k as [|k IH]; intros refBits hand Hh Hpos; [done|].
  cbn [clearRun]. rewrite IH.
  - apply list_lookup_insert_ne. specialize (Hpos 0 ltac:(lia)).
    rewrite Nat.add_0_r, Nat.mod_small in Hpos by done. done.
  - apply Nat.mod_upper_bound. lia.
  - intros d Hd. specialize (Hpos (S d) ltac:(lia)).
    rewrite Nat.Div0.add_mod_idemp_l.
    by replace (hand + 1 + d) with (hand + S d) by lia.
Qed.

Lemma clockBody_ok framesCount i p st :
  clockInv framesCount st →
  ∃ st' s, clockBody framesCount i p st = Ok (st', s) ∧
           clockInv framesCount st' ∧ stepOK i p st st' s.
Proof.
  intros (Hlen & Hbits & Hh). unfold clockBody, clockPush.
  destruct (indexOf (Some p) (clockFrames st)) as [hitIndex|] eqn:Eh.
  - apply indexOf_Some in Eh as (Hat & _ & _).
    assert (Some p ∈ clockFrames st) as Hin by by eapply list_elem_of_lookup_2.
    eexists _, _. split; [reflexivity|]. split.
    { split_and!; simpl; [done|by rewrite length_insert|done]. }
    constructor; simpl; try done; lia.
  - apply indexOf_None in Eh.
    destruct (indexOf None (clockFrames st)) as [emptyIndex|] eqn:Ee.
    + apply indexOf_Some in Ee as (Hat & Hlt & _).
      eexists _, _. split; [reflexivity|]. split.
      { split_and!; simpl; [by rewrite length_insert..|done]. }
      constructor; simpl; try done; try lia.
      split; [done|]. by exists emptyIndex.
    + destruct (clockScan_spec framesCount p (clockFrames st) (clockRefBits st)
                  (clockHand st) Hbits Hh) as (k & Hk & _ & _ & ->).
      assert ((clockHand st + k) mod framesCount < framesCount) as Hv
        by (apply Nat.mod_upper_bound; lia).
      eexists _, _. split; [reflexivity|]. split.
      { split_and!; simpl.
        - by rewrite length_insert.
        - by rewrite length_insert, clearRun_length.
        - apply Nat.mod_upper_bound. lia. }
      constructor; simpl; try done; try lia.
      split; [done|]. eexists. split; [|done]. lia.
Qed.

(** ** The runs of the four engines *)

Lemma run_of_loop {St : Type} `{Engine St}
    (body : nat → Z → St → result (St * Step)) (Inv : St → Prop)
    (init : St) (refs : list Z) :
  (∀ i p st, Inv st →
     ∃ st' s, body i p st = Ok (st', s) ∧ Inv st' ∧ stepOK i p st st' s) →
  Inv init →
  ∃ stf ss, trace body 0 refs init stf ss ∧ Inv stf ∧
            ('(st, steps) ← forLoop body 0 refs init;
             Ok (mkOutput steps (mkSummary (stHits st) (stFaults st))))
            = Ok (mkOutput ss (mkSummary (stHits stf) (stFaults stf))).
Proof.
  intros Hbody Hinit.
  destruct (trace_exists body Inv Hbody 0 refs init Hinit) as (stf & ss & Ht & HI).
  exists stf, ss. split_and!; [done|done|].
  by rewrite (trace_forLoop _ _ _ _ _ _ Ht).
Qed.

Lemma simulateFIFO_run framesCount refs :
  1 ≤ framesCount →
  ∃ stf ss, trace (fifoBody framesCount) 0 refs (fifoInit framesCount) stf ss ∧
            fifoInv framesCount stf ∧
            simulateFIFO framesCount refs
            = Ok (mkOutput ss (mkSummary (stHits stf) (stFaults stf))).
Proof.
  intros Hfc.
  exact (run_of_loop (fifoBody framesCount) (fifoInv framesCount)
           (fifoInit framesCount) refs
           (λ i p st HI, fifoBody_ok framesCount i p st HI)
           (fifoInv_init framesCount Hfc)).
Qed.

Lemma simulateLRU_run framesCount refs :
  1 ≤ framesCount →
  ∃ stf ss, trace (lruBody framesCount) 0 refs (lruInit framesCount) stf ss ∧
            lruInv framesCount stf ∧
            simulateLRU framesCount refs
            = Ok (mkOutput ss (mkSummary (stHits stf) (stFaults stf))).
Proof.
  intros Hfc.
  exact (run_of_loop (lruBody framesCount) (lruInv framesCount)
           (lruInit framesCount) refs
           (λ i p st HI, lruBody_ok framesCount i p st HI)
           (lruInv_init framesCount Hfc)).
Qed.

Lemma simulateOPT_run framesCount refs :
  1 ≤ framesCount →
  ∃ stf ss, trace (optBody framesCount refs) 0 refs (optInit framesCount) stf ss ∧
            optInv framesCount stf ∧
            simulateOPT framesCount refs
            = Ok (mkOutput ss (mkSummary (stHits stf) (stFaults stf))).
Proof.
  intros Hfc.
  refine (run_of_loop (optBody framesCount refs) (optInv framesCount)
            (optInit framesCount) refs _ (optInv_init framesCount Hfc)).
  intros i p st HI.
  destruct (optBody_ok framesCount refs i p st HI) as (st' & s & ? & ? & ? & _).
  by exists st', s.
Qed.

Lemma simulateCLOCK_run framesCount refs :
  1 ≤ framesCount →
  ∃ stf ss, trace (clockBody framesCount) 0 refs (clockInit framesCount) stf ss ∧
            clockInv framesCount stf ∧
            simulateCLOCK framesCount refs
            = Ok (mkOutput ss (mkSummary (stHits stf) (stFaults stf))).
Proof.
  intros Hfc.
  exact (run_of_loop (clockBody framesCount) (clockInv framesCount)
           (clockInit framesCount) refs
           (λ i p st HI, clockBody_ok framesCount i p st HI)
           (clockInv_init framesCount Hfc)).
Qed.

(** ** The dispatcher's checks *)

Lemma isCapacity_num q c :
  (q == inject_Z c)%Q → Qnum q = (c * Z.pos (Qden q))%Z.
Proof. unfold Qeq. simpl. lia. Qed.

Lemma capacityCheck_true v c :
  isCapacity v c → (1 ≤ c ≤ 50)%Z → capacityCheck v = true.
Proof.
  intros (q & -> & Hq) Hc. unfold capacityCheck. simpl.
  pose proof (isCapacity_num q c Hq) as Hn.
  rewrite !andb_true_iff. split_and!.
  - rewrite Hn, Z.rem_mul by lia. done.
  - apply Qle_bool_iff. rewrite Hq. unfold Qle. simpl. lia.
  - apply Qle_bool_iff. rewrite Hq. unfold Qle. simpl. lia.
Qed.

Lemma capacityCheck_valid v : capacityCheck v = true → validCapacity v.
Proof.
  unfold capacityCheck. destruct v as [q|]; simpl; [|done].
  rewrite !andb_true_iff. intros [[Hi Hge] Hle].
  apply Z.eqb_eq in Hi. apply Qle_bool_iff in Hge, Hle.
  unfold Qle in Hge, Hle. simpl in Hge, Hle.
  apply Z.rem_divide in Hi as [c Hc]; [|lia].
  exists c. split.
  - exists q. split; [done|]. unfold Qeq. simpl. lia.
  - nia.
Qed.

Lemma toCount_capacity v c : isCapacity v c → toCount v = Z.to_nat c.
Proof.
  intros (q & -> & Hq). simpl.
  rewrite (isCapacity_num q c Hq), Z.div_mul by lia. done.
Qed.

Lemma simulate_checks algoName v refs :
  simulate algoName v refs =
  if capacityCheck v then
    match refs with
    | [] => Throw msgEmpty
    | _ :: _ =>
        if String.eqb algoName "FIFO" then simulateFIFO (toCount v) refs
        else if String.eqb algoName "LRU" then simulateLRU (toCount v) refs
        else if String.eqb algoName "OPT" then simulateOPT (toCount v) refs
        else if String.eqb algoName "CLOCK" then simulateCLOCK (toCount v) refs
        else Throw (msgUnknown algoName)
    end
  else Throw msgFrames.
Proof.
  unfold simulate, capacityCheck.
  destruct (Number_isInteger v && jsGe v 1 && jsLe v 50); [|done].
  by destruct refs.
Qed.

(** ** The slot table after a given number of references *)

Lemma trace_framesAfter {St : Type} `{Engine St}
    (body : nat → Z → St → result (St * Step)) init refs stf ss k s :
  trace body 0 refs init stf ss → ss !! k = Some s →
  framesAfter body init refs (S k) = Ok (frames s).
Proof.
  intros Ht Hk.
  destruct (trace_take body 0 refs init stf ss (S k) Ht) as [stn Hn].
  unfold framesAfter. rewrite (trace_forLoop _ _ _ _ _ _ Hn). simpl.
  f_equal. symmetry. eapply trace_last; [exact Hn|].
  rewrite last_lookup, length_take.
  pose proof (lookup_lt_Some _ _ _ Hk) as Hlt.
  replace (Nat.pred (S k `min` length ss)) with k by lia.
  rewrite lookup_take_lt by lia. done.
Qed.

Lemma trace_Forall {St : Type} `{Engine St}
    (body : nat → Z → St → result (St * Step))
    (Inv : St → Prop) (Q : Step → Prop) :
  (∀ i p st st' s, Inv st → body i p st = Ok (st', s) → Inv st' ∧ Q s) →
  ∀ i rest st stf ss, trace body i rest st stf ss → Inv st →
    ∀ s, s ∈ ss → Q s.
Proof.
  intros Hq i rest st stf ss Ht.
  induction Ht as [|i p rest st st' s' stf ss Hb _ _ IH]; intros HI s Hin.
  - by apply elem_of_nil in Hin.
  - destruct (Hq _ _ _ _ _ HI Hb) as [HI' Hs'].
    apply elem_of_cons in Hin as [->|Hin]; [done|by apply IH].
Qed.

Lemma counts_add (ss : list Step) :
  (∀ s, s ∈ ss → hit s = negb (fault s)) →
  countHits ss + countFaults ss = length ss.
Proof.
  unfold countHits, countFaults.
  induction ss as [|s ss IH]; intros Hf; [done|].
  rewrite !filter_cons. specialize (IH (λ s' Hs', Hf s' (list_elem_of_further _ _ _ Hs'))).
  specialize (Hf s ltac:(left)).
  destruct (hit s), (fault s); repeat case_decide; simpl in *; try done; lia.
Qed.

Lemma trace_wellFormed {St : Type} `{Engine St}
    (body : nat → Z → St → result (St * Step)) framesCount refs init stf ss :
  trace body 0 refs init stf ss →
  stFrames init = fill framesCount None → stHits init = 0 → stFaults init = 0 →
  wellFormed framesCount refs (mkOutput ss (mkSummary (stHits stf) (stFaults stf))).
Proof.
  intros Ht Hfr Hh Hf.
  pose proof (trace_counts _ _ _ _ _ _ Ht) as [Hc1 Hc2].
  pose proof (trace_length _ _ _ _ _ _ Ht) as Hlen.
  assert (∀ s, s ∈ ss → hit s = negb (fault s)) as Hflags
    by (intros s; by eapply trace_flags).
  constructor; simpl.
  - done.
  - intros k p Hk.
    destruct (trace_lookup _ _ _ _ _ _ _ _ Ht Hk) as (s & ? & ? & ? & _).
    by exists s.
  - done.
  - lia.
  - lia.
  - rewrite Hc1, Hc2, Hh, Hf, <- Hlen. simpl. by apply counts_add.
  - apply (trace_tables _ _ _ _ _ _ framesCount Ht).
    + rewrite Hfr. apply length_replicate.
    + rewrite Hfr. apply NoDupPages_fill.
  - rewrite Hc2, Hf, <- Hfr. simpl. by eapply trace_demandRun.
Qed.

(** A valid call reaches the engine and the engine completes. *)
Lemma simulate_run algoName v c refs :
  knownPolicy algoName → isCapacity v c → (1 ≤ c ≤ 50)%Z → refs ≠ [] →
  ∃ o, simulate algoName v refs = Ok o ∧
       wellFormed (Z.to_nat c) refs o ∧
       ∀ k s, steps o !! k = Some s →
              tableAfter algoName (Z.to_nat c) refs (S k) = Ok (frames s).
Proof.
  intros Hk Hv Hc Hrefs.
  rewrite simulate_checks, (capacityCheck_true v c Hv Hc), (toCount_capacity v c Hv).
  destruct refs as [|r refs']; [done|]. set (refs := r :: refs').
  assert (1 ≤ Z.to_nat c) as Hfc by lia.
  unfold tableAfter.
  destruct Hk as [-> | [-> | [-> | ->]]]; simpl String.eqb; cbv iota.
  - destruct (simulateFIFO_run (Z.to_nat c) refs Hfc) as (stf & ss & Ht & _ & ->).
    eexists. split; [done|]. split.
    + by eapply trace_wellFormed.
    + intros k s Hs. by eapply trace_framesAfter.
  - destruct (simulateLRU_run (Z.to_nat c) refs Hfc) as (stf & ss & Ht & _ & ->).
    eexists. split; [done|]. split.
    + by eapply trace_wellFormed.
    + intros k s Hs. by eapply trace_framesAfter.
  - destruct (simulateOPT_run (Z.to_nat c) refs Hfc) as (stf & ss & Ht & _ & ->).
    eexists. split; [done|]. split.
    + by eapply trace_wellFormed.
    + intros k s Hs. by eapply trace_framesAfter.
  - destruct (simulateCLOCK_run (Z.to_nat c) refs Hfc) as (stf & ss & Ht & _ & ->).
    eexists. split; [done|]. split.
    + by eapply trace_wellFormed.
    + intros k s Hs. by eapply trace_framesAfter.
Qed.

Lemma simulateOPT_belady framesCount refs :
  1 ≤ framesCount →
  ∃ o, simulateOPT framesCount refs = Ok o ∧
       beladyRun refs (fill framesCount None) (faults (summary o)).
Proof.
  intros Hfc.
  destruct (optLoop_belady framesCount refs refs 0 (optInit framesCount)
              eq_refl (optInv_init framesCount Hfc)) as (stf & ss & Ht & _ & Hrun).
  exists (mkOutput ss (mkSummary (optHits stf) (optFaults stf))). split.
  - unfold simulateOPT. by rewrite (trace_forLoop _ _ _ _ _ _ Ht).
  - pose proof (trace_counts _ _ _ _ _ _ Ht) as [_ Hc]. simpl in *.
    by rewrite Hc.
Qed.

(** ** The scenarios of the specification, evaluated *)

Example lru_scenario :
  summaryOf (simulate "LRU" (jsInt 2) [1;2;1;3;2]%Z) = Some (1, 4) ∧
  evictions (simulate "LRU" (jsInt 2) [1;2;1;3;2]%Z)
  = [None; None; None; Some 2%Z; Some 1%Z].
Proof. split; vm_compute; reflexivity. Qed.

Example opt_scenario :
  summaryOf (simulate "OPT" (jsInt 2) [1;2;1;3;2]%Z) = Some (2, 3) ∧
  evictions (simulate "OPT" (jsInt 2) [1;2;1;3;2]%Z)
  = [None; None; None; Some 1%Z; None].
Proof. split; vm_compute; reflexivity. Qed.

Example clock_scenario :
  summaryOf (simulate "CLOCK" (jsInt 2) [1;2;1;3;2]%Z) = Some (2, 3) ∧
  (note <$> (match simulate "CLOCK" (jsInt 2) [1;2;1;3;2]%Z with
             | Ok o => steps o !! 3
             | _ => None
             end)) = Some (NoteClock (Some 1%Z) 0 3).
Proof. split; vm_compute; reflexivity. Qed.

(** * The claims *)

(** C1.  For a capacity that is an integer from 1 to 50 and a non-empty
    reference sequence, [simulate "OPT"] completes and its fault count is at
    most the fault count of [simulate] with "FIFO", with "LRU" and with "CLOCK"
    on the same capacity and references. *)
Theorem opt_fewest_faults (v : jsval) (c : Z) (refs : list Z) :
  isCapacity v c → (1 ≤ c ≤ 50)%Z → refs ≠ [] →
  ∃ o, simulate "OPT" v refs = Ok o ∧
       ∀ algoName, algoName ∈ ["FIFO"; "LRU"; "CLOCK"] →
         ∃ a, simulate algoName v refs = Ok a ∧
              faults (summary o) ≤ faults (summary a).
Proof.
  intros Hv Hc Hrefs.
  assert (1 ≤ Z.to_nat c) as Hfc by lia.
  destruct (simulateOPT_belady (Z.to_nat c) refs Hfc) as (o & Ho & Hbel).
  exists o. split.
  - rewrite simulate_checks, (capacityCheck_true v c Hv Hc), (toCount_capacity v c Hv).
    by destruct refs.
  - intros algoName Hin.
    assert (knownPolicy algoName) as Hk.
    { unfold knownPolicy. rewrite !elem_of_cons in Hin.
      destruct Hin as [-> | [-> | [-> | Hin]]]; auto.
      by apply elem_of_nil in Hin. }
    destruct (simulate_run algoName v c refs Hk Hv Hc Hrefs) as (a & Ha & Hwf & _).
    exists a. split; [done|].
    pose proof (belady_lead refs (fill (Z.to_nat c) None) (fill (Z.to_nat c) None)
                  _ _ 0 Hbel (wf_demand _ _ _ Hwf)
                  (NoDupPages_fill _) eq_refl (λ n, ltac:(lia))) as Hle.
    lia.
Qed.

Lemma opt_fewest_faults_witness :
  ∃ o, simulate "OPT" (jsInt 2) [1;2;1;3;2]%Z = Ok o ∧
       ∀ algoName, algoName ∈ ["FIFO"; "LRU"; "CLOCK"] →
         ∃ a, simulate algoName (jsInt 2) [1;2;1;3;2]%Z = Ok a ∧
              faults (summary o) ≤ faults (summary a).
Proof.
  apply (opt_fewest_faults (jsInt 2) 2 [1;2;1;3;2]%Z).
  - exists (inject_Z 2). split; reflexivity.
  - lia.
  - discriminate.
Defined.

(** C6.  On the reference sequence 1,2,3,4,1,2,5,1,2,3,4,5 FIFO has exactly
    9 faults and 3 hits with 3 slots and exactly 10 faults and 2 hits with 4
    slots: more slots, more faults. *)
Theorem fifo_belady_anomaly :
  ∃ o3 o4,
    simulate "FIFO" (jsInt 3) beladySequence = Ok o3 ∧
    simulate "FIFO" (jsInt 4) beladySequence = Ok o4 ∧
    faults (summary o3) = 9 ∧ hits (summary o3) = 3 ∧
    faults (summary o4) = 10 ∧ hits (summary o4) = 2 ∧
    faults (summary o3) < faults (summary o4).
Proof.
  eexists _, _. split; [vm_compute; reflexivity|].
  split; [vm_compute; reflexivity|].
  simpl. split_and!; [done..|lia].
Qed.

(** C7.  For each of the four policies, a valid capacity and a non-empty
    reference sequence, the run completes, and the slot-table snapshot of
    every step record has exactly capacity entries, holds no identifier in
    two slots, and is the engine's slot table as it stands once that step has
    been carried out. *)
Theorem snapshots_well_formed (algoName : string) (v : jsval) (c : Z)
    (refs : list Z) :
  knownPolicy algoName → isCapacity v c → (1 ≤ c ≤ 50)%Z → refs ≠ [] →
  ∃ o, simulate algoName v refs = Ok o ∧
       ∀ k s, steps o !! k = Some s →
         length (frames s) = Z.to_nat c ∧
         NoDupPages (frames s) ∧
         tableAfter algoName (Z.to_nat c) refs (S k) = Ok (frames s).
Proof.
  intros Hk Hv Hc Hrefs.
  destruct (simulate_run algoName v c refs Hk Hv Hc Hrefs) as (o & Ho & Hwf & Htab).
  exists o. split; [done|]. intros k s Hs.
  destruct (wf_tables _ _ _ Hwf s) as [Hl Hn]; [by eapply list_elem_of_lookup_2|].
  split_and!; [done|done|by apply Htab].
Qed.

Lemma snapshots_well_formed_witness :
  ∃ o, simulate "LRU" (jsInt 2) [1;2;1;3;2]%Z = Ok o ∧
       ∀ k s, steps o !! k = Some s →
         length (frames s) = Z.to_nat 2 ∧
         NoDupPages (frames s) ∧
         tableAfter "LRU" (Z.to_nat 2) [1;2;1;3;2]%Z (S k) = Ok (frames s).
Proof.
  apply (snapshots_well_formed "LRU" (jsInt 2) 2 [1;2;1;3;2]%Z).
  - right. left. reflexivity.
  - exists (inject_Z 2). split; reflexivity.
  - lia.
  - discriminate.
Defined.

(** C8.  For each of the four policies, a valid capacity and a non-empty
    reference sequence, the trace has one step record per reference, in
    order; every step record has exactly one of its hit and fault flags set;
    and the summary counts the hit records and the fault records, which
    together are as many as the references. *)
Theorem trace_and_summary_agree (algoName : string) (v : jsval) (c : Z)
    (refs : list Z) :
  knownPolicy algoName → isCapacity v c → (1 ≤ c ≤ 50)%Z → refs ≠ [] →
  ∃ o, simulate algoName v refs = Ok o ∧
       length (steps o) = length refs ∧
       (∀ k p, refs !! k = Some p →
          ∃ s, steps o !! k = Some s ∧ index s = k ∧ page s = p) ∧
       (∀ s, s ∈ steps o → hit s = negb (fault s)) ∧
       hits (summary o) + faults (summary o) = length refs ∧
       hits (summary o) = countHits (steps o) ∧
       faults (summary o) = countFaults (steps o).
Proof.
  intros Hk Hv Hc Hrefs.
  destruct (simulate_run algoName v c refs Hk Hv Hc Hrefs) as (o & Ho & Hwf & _).
  exists o. destruct Hwf. by split_and!.
Qed.

Lemma trace_and_summary_agree_witness :
  ∃ o, simulate "CLOCK" (jsInt 2) [1;2;1;3;2]%Z = Ok o ∧
       length (steps o) = length [1;2;1;3;2]%Z ∧
       (∀ k p, [1;2;1;3;2]%Z !! k = Some p →
          ∃ s, steps o !! k = Some s ∧ index s = k ∧ page s = p) ∧
       (∀ s, s ∈ steps o → hit s = negb (fault s)) ∧
       hits (summary o) + faults (summary o) = length [1;2;1;3;2]%Z ∧
       hits (summary o) = countHits (steps o) ∧
       faults (summary o) = countFaults (steps o).
Proof.
  apply (trace_and_summary_agree "CLOCK" (jsInt 2) 2 [1;2;1;3;2]%Z).
  - right. right. right. reflexivity.
  - exists (inject_Z 2). split; reflexivity.
  - lia.
  - discriminate.
Defined.

(** C9 as the code has it.  [simulate] makes its checks in a fixed order and
    the first one that fails decides the error: a capacity that is not an
    integer from 1 to 50 gives the frames error whatever the other arguments
    are; with a valid capacity an empty reference sequence gives the
    empty-sequence error; with a valid capacity and a non-empty sequence a
    policy name other than FIFO, LRU, OPT and CLOCK gives the unknown-policy
    error.  The three errors differ from each other, and a failed call hands
    back no trace at all. *)
Theorem validation_errors (algoName : string) (v : jsval) (refs : list Z) :
  (¬ validCapacity v → simulate algoName v refs = Throw msgFrames) ∧
  (validCapacity v → refs = [] → simulate algoName v refs = Throw msgEmpty) ∧
  (validCapacity v → refs ≠ [] → ¬ knownPolicy algoName →
     simulate algoName v refs = Throw (msgUnknown algoName)) ∧
  msgFrames ≠ msgEmpty ∧ msgUnknown algoName ≠ msgFrames ∧
  msgUnknown algoName ≠ msgEmpty ∧
  (¬ validCapacity v ∨ refs = [] ∨ ¬ knownPolicy algoName →
     ∀ o, simulate algoName v refs ≠ Ok o).
Proof.
  assert (¬ validCapacity v → capacityCheck v = false) as Hbad.
  { intros Hn. destruct (capacityCheck v) eqn:E; [|done].
    exfalso. by apply Hn, capacityCheck_valid. }
  assert (validCapacity v → capacityCheck v = true) as Hgood.
  { intros (c & Hc & Hr). by eapply capacityCheck_true. }
  assert (¬ knownPolicy algoName →
          String.eqb algoName "FIFO" = false ∧ String.eqb algoName "LRU" = false ∧
          String.eqb algoName "OPT" = false ∧ String.eqb algoName "CLOCK" = false)
    as Hunk.
  { intros Hn. unfold knownPolicy in Hn.
    split_and!; apply String.eqb_neq; intros ->; apply Hn; auto. }
  rewrite simulate_checks. split_and!.
  - intros Hn. by rewrite (Hbad Hn).
  - intros Hval ->. by rewrite (Hgood Hval).
  - intros Hval Hrefs Hn. rewrite (Hgood Hval).
    destruct refs; [done|].
    destruct (Hunk Hn) as (-> & -> & -> & ->). done.
  - done.
  - done.
  - done.
  - intros [Hn|[->|Hn]] o.
    + by rewrite (Hbad Hn).
    + by destruct (capacityCheck v).
    + destruct (capacityCheck v); [|done]. destruct refs; [done|].
      destruct (Hunk Hn) as (-> & -> & -> & ->). done.
Qed.

Lemma validation_errors_witness :
  simulate "FIFO" (JsFinite (5 # 2)) [1%Z] = Throw msgFrames ∧
  simulate "FIFO" (jsInt 3) [] = Throw msgEmpty ∧
  simulate "MRU" (jsInt 3) [1%Z] = Throw (msgUnknown "MRU").
Proof.
  assert (validCapacity (jsInt 3)) as Hv.
  { exists 3%Z. split; [exists (inject_Z 3); split; reflexivity|lia]. }
  split_and!.
  - apply (validation_errors "FIFO" (JsFinite (5 # 2)) [1%Z]).
    intros (c & (q & Hq & Heq) & _). injection Hq as <-.
    unfold Qeq in Heq. simpl in Heq. lia.
  - by apply (validation_errors "FIFO" (jsInt 3) []).
  - apply (validation_errors "MRU" (jsInt 3) [1%Z]); [done|discriminate|].
    unfold knownPolicy. intros [H|[H|[H|H]]]; discriminate.
Defined.

(** C9 as the specification words it does not hold: with capacity 0 and an
    empty reference sequence the call fails with the frames error, not with
    the empty-sequence error, and with capacity 0 an unknown policy name
    fails with the frames error as well. *)
Lemma validation_order_counterexample :
  simulate "FIFO" (jsInt 0) [] = Throw msgFrames ∧
  simulate "FIFO" (jsInt 0) [] ≠ Throw msgEmpty ∧
  simulate "MRU" (jsInt 0) [1%Z] = Throw msgFrames ∧
  simulate "MRU" (jsInt 0) [1%Z] ≠ Throw (msgUnknown "MRU").
Proof. split_and!; [reflexivity|discriminate|reflexivity|discriminate]. Qed.

Lemma nextUse_spec refs i q : specNextUse refs i q (nextUse refs i (Some q)).
Proof.
  unfold nextUse.
  destruct (scanNextUse_range (Some q) (i + 1) (drop (i + 1) refs))
    as [Hinf|(k & Hk & Hr)].
  - left. split; [done|]. intros j Hj Hat.
    apply scanNextUse_PosInf with (m := j - (i + 1)) in Hinf. apply Hinf.
    rewrite lookup_drop. replace (i + 1 + (j - (i + 1))) with j by lia.
    by rewrite Hat.
  - right. exists k. split; [done|].
    apply scanNextUse_Fin in Hk as (Hle & Hat & Hmin).
    rewrite lookup_drop in Hat.
    replace (i + 1 + (k - (i + 1))) with k in Hat by lia.
    split_and!; [lia| |].
    + destruct (refs !! k); simpl in Hat; congruence.
    + intros m Hm Hq. apply (Hmin (m - (i + 1))); [lia|].
      rewrite lookup_drop. replace (i + 1 + (m - (i + 1))) with m by lia.
      by rewrite Hq.
Qed.

Lemma full_table_slot (fr : list (option Z)) (fi : nat) :
  indexOf None fr = None → fi < length fr →
  ∃ q, fr !! fi = Some (Some q) ∧ slotAt fr fi = Some q.
Proof.
  intros Hfull Hfi. apply indexOf_None in Hfull.
  destruct (lookup_lt_is_Some_2 _ _ Hfi) as [[q|] Hq].
  - exists q. split; [done|by apply slotAt_lookup].
  - exfalso. apply Hfull. by eapply list_elem_of_lookup_2.
Qed.

(** C2.  On a full-table fault at position [i] the OPT engine works out, for
    each slot in ascending order, the next position after [i] at which the
    slot's occupant is referenced again (infinity when there is none), and
    evicts the occupant of the first slot whose next use is greatest: no
    slot has a greater next use, and every slot before it has a strictly
    smaller one. *)
Theorem opt_evicts_first_farthest (framesCount : nat) (refs : list Z)
    (i : nat) (p : Z) (st : OptState) :
  optInv framesCount st →
  indexOf (Some p) (optFrames st) = None →
  indexOf None (optFrames st) = None →
  ∃ vi s,
    vi < framesCount ∧
    (∀ fi, fi < framesCount →
       ∃ q, optFrames st !! fi = Some (Some q) ∧
            specNextUse refs i q (nextUse refs i (slotAt (optFrames st) fi))) ∧
    (∀ fi, fi < framesCount →
       xgt (nextUse refs i (slotAt (optFrames st) fi))
           (nextUse refs i (slotAt (optFrames st) vi)) = false) ∧
    (∀ fi, fi < vi →
       xlt (nextUse refs i (slotAt (optFrames st) fi))
           (nextUse refs i (slotAt (optFrames st) vi)) = true) ∧
    optBody framesCount refs i p st
    = Ok (mkOpt (<[vi := Some p]> (optFrames st)) (optHits st) (S (optFaults st)), s) ∧
    fault s = true ∧ hit s = false ∧
    replaced s = slotAt (optFrames st) vi ∧
    replacedIndex s = Some (Z.of_nat vi) ∧
    frames s = <[vi := Some p]> (optFrames st).
Proof.
  intros [Hlen Hfc] Hmiss Hfull.
  destruct (optVictim_spec framesCount refs i (optFrames st) Hfc)
    as (vi & Hv & Hvi & Hmax & Hfirst).
  exists vi. eexists. split; [done|]. split.
  { intros fi Hfi.
    destruct (full_table_slot (optFrames st) fi Hfull ltac:(lia)) as (q & Hq & ->).
    exists q. split; [done|apply nextUse_spec]. }
  split; [done|]. split; [done|].
  unfold optBody, optPush. rewrite Hmiss, Hfull, Hv. simpl.
  split_and!; reflexivity.
Qed.

Lemma opt_evicts_first_farthest_witness :
  ∃ vi s,
    vi < 2 ∧
    (∀ fi, fi < 2 →
       ∃ q, [Some 1%Z; Some 2%Z] !! fi = Some (Some q) ∧
            specNextUse [1;2;1;3;2]%Z 3 q
              (nextUse [1;2;1;3;2]%Z 3 (slotAt [Some 1%Z; Some 2%Z] fi))) ∧
    (∀ fi, fi < 2 →
       xgt (nextUse [1;2;1;3;2]%Z 3 (slotAt [Some 1%Z; Some 2%Z] fi))
           (nextUse [1;2;1;3;2]%Z 3 (slotAt [Some 1%Z; Some 2%Z] vi)) = false) ∧
    (∀ fi, fi < vi →
       xlt (nextUse [1;2;1;3;2]%Z 3 (slotAt [Some 1%Z; Some 2%Z] fi))
           (nextUse [1;2;1;3;2]%Z 3 (slotAt [Some 1%Z; Some 2%Z] vi)) = true) ∧
    optBody 2 [1;2;1;3;2]%Z 3 3%Z (mkOpt [Some 1%Z; Some 2%Z] 1 2)
    = Ok (mkOpt (<[vi := Some 3%Z]> [Some 1%Z; Some 2%Z]) 1 3, s) ∧
    fault s = true ∧ hit s = false ∧
    replaced s = slotAt [Some 1%Z; Some 2%Z] vi ∧
    replacedIndex s = Some (Z.of_nat vi) ∧
    frames s = <[vi := Some 3%Z]> [Some 1%Z; Some 2%Z].
Proof.
  apply (opt_evicts_first_farthest 2 [1;2;1;3;2]%Z 3 3%Z
           (mkOpt [Some 1%Z; Some 2%Z] 1 2)).
  - split; [reflexivity|lia].
  - reflexivity.
  - reflexivity.
Defined.

(** C3.  The LRU engine records in its bookkeeping map the current
    position for the referenced page on every hit and on every insertion,
    first-fill included.  On a full-table fault it goes over all slots in
    ascending order and evicts the occupant of the first slot whose entry
    in the map is smallest: when the evicted page has the entry [tv], every
    occupant of the table has an entry, none smaller than [tv] and those of
    the slots before the victim's strictly greater (an occupant without an
    entry counts as older than all others; in a run every occupant has one).
    It then removes the evicted page's entry and records the current
    position for the inserted page. *)
Theorem lru_evicts_first_oldest (framesCount : nat) (i : nat) (p : Z)
    (st : LruState) :
  length (lruFrames st) = framesCount → 1 ≤ framesCount →
  (∀ h, indexOf (Some p) (lruFrames st) = Some h →
     ∃ s, lruBody framesCount i p st
          = Ok (mkLru (lruFrames st) (<[p := i]> (lruLastUsed st))
                      (S (lruHits st)) (lruFaults st), s) ∧
          hit s = true ∧ fault s = false ∧ replaced s = None) ∧
  (indexOf (Some p) (lruFrames st) = None →
   ∀ e, indexOf None (lruFrames st) = Some e →
     ∃ s, lruBody framesCount i p st
          = Ok (mkLru (<[e := Some p]> (lruFrames st))
                      (<[p := i]> (lruLastUsed st))
                      (lruHits st) (S (lruFaults st)), s) ∧
          hit s = false ∧ fault s = true ∧ replaced s = None) ∧
  (indexOf (Some p) (lruFrames st) = None →
   indexOf None (lruFrames st) = None →
     ∃ vi v s,
       vi < framesCount ∧ lruFrames st !! vi = Some (Some v) ∧ v ≠ p ∧
       (∀ tv, lruLastUsed st !! v = Some tv →
          ∀ fi q, fi < framesCount → lruFrames st !! fi = Some (Some q) →
            ∃ tq, lruLastUsed st !! q = Some tq ∧ tv ≤ tq ∧ (fi < vi → tv < tq)) ∧
       (lruLastUsed st !! v = None →
          ∀ fi q, fi < vi → lruFrames st !! fi = Some (Some q) →
            is_Some (lruLastUsed st !! q)) ∧
       (lruTracked st → is_Some (lruLastUsed st !! v)) ∧
       (∀ fi, fi < framesCount →
          xlt (lruStamp (lruLastUsed st) (slotAt (lruFrames st) fi))
              (lruStamp (lruLastUsed st) (Some v)) = false) ∧
       (∀ fi, fi < vi →
          xlt (lruStamp (lruLastUsed st) (Some v))
              (lruStamp (lruLastUsed st) (slotAt (lruFrames st) fi)) = true) ∧
       lruBody framesCount i p st
       = Ok (mkLru (<[vi := Some p]> (lruFrames st))
                   (<[p := i]> (delete v (lruLastUsed st)))
                   (lruHits st) (S (lruFaults st)), s) ∧
       hit s = false ∧ fault s = true ∧
       replaced s = Some v ∧ replacedIndex s = Some (Z.of_nat vi) ∧
       frames s = <[vi := Some p]> (lruFrames st)).
Proof.
  intros Hlen Hfc. split_and!.
  - intros h Hh. unfold lruBody, lruPush. rewrite Hh.
    eexists. split_and!; reflexivity.
  - intros Hmiss e He. unfold lruBody, lruPush. rewrite Hmiss, He.
    eexists. split_and!; reflexivity.
  - intros Hmiss Hfull.
    destruct (lruVictim_spec framesCount (lruFrames st) (lruLastUsed st) Hfc)
      as (vi & Hv & Hvi & Hmin & Hfirst).
    destruct (full_table_slot (lruFrames st) vi Hfull ltac:(lia)) as (v & Hat & Hsl).
    rewrite Hsl in Hv, Hmin, Hfirst.
    exists vi, v. eexists. split_and!; [done|done| | | | |done|done|..].
    + intros ->. apply indexOf_None in Hmiss. apply Hmiss.
      by eapply list_elem_of_lookup_2.
    + intros tv Htv fi q Hfi Hq.
      specialize (Hmin fi Hfi). rewrite (slotAt_lookup _ _ _ Hq) in Hmin.
      unfold lruStamp in Hmin. rewrite Htv in Hmin.
      destruct (lruLastUsed st !! q) as [tq|] eqn:Etq; [|done].
      exists tq. simpl in Hmin. apply Z.ltb_ge in Hmin.
      split_and!; [done|lia|]. intros Hlt.
      specialize (Hfirst fi Hlt). rewrite (slotAt_lookup _ _ _ Hq) in Hfirst.
      unfold lruStamp in Hfirst. rewrite Htv, Etq in Hfirst. simpl in Hfirst.
      apply Z.ltb_lt in Hfirst. lia.
    + intros Hnone fi q Hlt Hq.
      specialize (Hfirst fi Hlt). rewrite (slotAt_lookup _ _ _ Hq) in Hfirst.
      unfold lruStamp in Hfirst. rewrite Hnone in Hfirst.
      by destruct (lruLastUsed st !! q).
    + intros Htr. apply Htr. by eapply list_elem_of_lookup_2.
    + unfold lruBody, lruPush. rewrite Hmiss, Hfull, Hv, setAtZ_of_nat. simpl.
      reflexivity.
    + reflexivity.
    + reflexivity.
    + reflexivity.
    + reflexivity.
    + reflexivity.
Qed.

Lemma lru_evicts_first_oldest_witness :
  ∃ vi v s,
    vi < 2 ∧ [Some 1%Z; Some 2%Z] !! vi = Some (Some v) ∧ v ≠ 3%Z ∧
    (∀ tv, ({[1%Z := 2; 2%Z := 1]} : gmap Z nat) !! v = Some tv →
       ∀ fi q, fi < 2 → [Some 1%Z; Some 2%Z] !! fi = Some (Some q) →
         ∃ tq, ({[1%Z := 2; 2%Z := 1]} : gmap Z nat) !! q = Some tq ∧
               tv ≤ tq ∧ (fi < vi → tv < tq)) ∧
    (({[1%Z := 2; 2%Z := 1]} : gmap Z nat) !! v = None →
       ∀ fi q, fi < vi → [Some 1%Z; Some 2%Z] !! fi = Some (Some q) →
         is_Some (({[1%Z := 2; 2%Z := 1]} : gmap Z nat) !! q)) ∧
    (lruTracked (mkLru [Some 1%Z; Some 2%Z] {[1%Z := 2; 2%Z := 1]} 1 2) →
       is_Some (({[1%Z := 2; 2%Z := 1]} : gmap Z nat) !! v)) ∧
    (∀ fi, fi < 2 →
       xlt (lruStamp {[1%Z := 2; 2%Z := 1]} (slotAt [Some 1%Z; Some 2%Z] fi))
           (lruStamp {[1%Z := 2; 2%Z := 1]} (Some v)) = false) ∧
    (∀ fi, fi < vi →
       xlt (lruStamp {[1%Z := 2; 2%Z := 1]} (Some v))
           (lruStamp {[1%Z := 2; 2%Z := 1]} (slotAt [Some 1%Z; Some 2%Z] fi))
       = true) ∧
    lruBody 2 3 3%Z (mkLru [Some 1%Z; Some 2%Z] {[1%Z := 2; 2%Z := 1]} 1 2)
    = Ok (mkLru (<[vi := Some 3%Z]> [Some 1%Z; Some 2%Z])
                (<[3%Z := 3]> (delete v {[1%Z := 2; 2%Z := 1]})) 1 3, s) ∧
    hit s = false ∧ fault s = true ∧
    replaced s = Some v ∧ replacedIndex s = Some (Z.of_nat vi) ∧
    frames s = <[vi := Some 3%Z]> [Some 1%Z; Some 2%Z].
Proof.
  apply (proj2 (proj2 (lru_evicts_first_oldest 2 3 3%Z
           (mkLru [Some 1%Z; Some 2%Z] {[1%Z := 2; 2%Z := 1]} 1 2)
           eq_refl ltac:(lia)))).
  - reflexivity.
  - reflexivity.
Defined.

(** C10.  After any number of turns of the LRU loop the bookkeeping map has
    an entry for a page exactly when the page is resident; so at a full
    table every slot's occupant has an entry and the victim scan reads a
    recorded stamp for it, never the fallback. *)
Theorem lru_bookkeeping_tracks_residents (framesCount : nat) (refs : list Z)
    (n : nat) :
  1 ≤ framesCount →
  ∃ st ss,
    forLoop (lruBody framesCount) 0 (take n refs) (lruInit framesCount)
    = Ok (st, ss) ∧
    (∀ q, is_Some (lruLastUsed st !! q) ↔ Some q ∈ lruFrames st) ∧
    (indexOf None (lruFrames st) = None →
     ∀ fi, fi < framesCount →
       ∃ q t, lruFrames st !! fi = Some (Some q) ∧
              lruLastUsed st !! q = Some t ∧
              lruStamp (lruLastUsed st) (slotAt (lruFrames st) fi)
              = Fin (Z.of_nat t)).
Proof.
  intros Hfc.
  destruct (trace_exists (lruBody framesCount) (lruInv framesCount)
              (λ i p st HI, lruBody_ok framesCount i p st HI)
              0 (take n refs) (lruInit framesCount) (lruInv_init framesCount Hfc))
    as (st & ss & Ht & (Hlen & _ & _ & Htr)).
  exists st, ss. split_and!; [by apply trace_forLoop|done|].
  intros Hfull fi Hfi.
  destruct (full_table_slot (lruFrames st) fi Hfull ltac:(lia)) as (q & Hat & Hsl).
  assert (is_Some (lruLastUsed st !! q)) as [t Ht'].
  { apply Htr. by eapply list_elem_of_lookup_2. }
  exists q, t. split_and!; [done|done|].
  rewrite Hsl. simpl. by rewrite Ht'.
Qed.

Lemma lru_bookkeeping_tracks_residents_witness :
  ∃ st ss,
    forLoop (lruBody 2) 0 (take 3 [1;2;1;3;2]%Z) (lruInit 2) = Ok (st, ss) ∧
    (∀ q, is_Some (lruLastUsed st !! q) ↔ Some q ∈ lruFrames st) ∧
    (indexOf None (lruFrames st) = None →
     ∀ fi, fi < 2 →
       ∃ q t, lruFrames st !! fi = Some (Some q) ∧
              lruLastUsed st !! q = Some t ∧
              lruStamp (lruLastUsed st) (slotAt (lruFrames st) fi)
              = Fin (Z.of_nat t)).
Proof. apply (lru_bookkeeping_tracks_residents 2 [1;2;1;3;2]%Z 3). lia. Defined.

(** C5.  In the CLOCK engine a hit sets the bit of the slot that was hit and
    moves nothing; a first-fill fault puts the page into the lowest empty
    slot with bit 1 and leaves the hand where it is; a full-table fault scans
    from the hand, clearing the bit of each slot it passes whose bit is not
    0, evicts at the first slot it finds with bit 0, puts the page there with
    bit 1 and leaves the hand one past that slot, modulo the capacity. *)
Theorem clock_second_chance (framesCount : nat) (i : nat) (p : Z)
    (st : ClockState) :
  clockInv framesCount st →
  (∀ h, indexOf (Some p) (clockFrames st) = Some h →
     ∃ s, clockBody framesCount i p st
          = Ok (mkClock (clockFrames st) (<[h := 1%Z]> (clockRefBits st))
                        (clockHand st) (S (clockHits st)) (clockFaults st), s) ∧
          hit s = true ∧ fault s = false ∧
          replaced s = None ∧ replacedIndex s = None) ∧
  (indexOf (Some p) (clockFrames st) = None →
   ∀ e, indexOf None (clockFrames st) = Some e →
     clockFrames st !! e = Some None ∧
     (∀ j, j < e → clockFrames st !! j ≠ Some None) ∧
     ∃ s, clockBody framesCount i p st
          = Ok (mkClock (<[e := Some p]> (clockFrames st))
                        (<[e := 1%Z]> (clockRefBits st))
                        (clockHand st) (clockHits st) (S (clockFaults st)), s) ∧
          hit s = false ∧ fault s = true ∧
          replaced s = None ∧ replacedIndex s = None) ∧
  (indexOf (Some p) (clockFrames st) = None →
   indexOf None (clockFrames st) = None →
     ∃ k v bits' s,
       k ≤ framesCount ∧ v = (clockHand st + k) mod framesCount ∧
       (∀ d, d < k →
          clockRefBits st !! ((clockHand st + d) mod framesCount) ≠ Some 0%Z) ∧
       clearRun framesCount (clockRefBits st) (clockHand st) k !! v = Some 0%Z ∧
       bits' = <[v := 1%Z]> (clearRun framesCount (clockRefBits st) (clockHand st) k) ∧
       bits' !! v = Some 1%Z ∧
       (∀ d, d < k → (clockHand st + d) mod framesCount ≠ v →
          bits' !! ((clockHand st + d) mod framesCount) = Some 0%Z) ∧
       (∀ pos, (∀ d, d ≤ k → pos ≠ (clockHand st + d) mod framesCount) →
          bits' !! pos = clockRefBits st !! pos) ∧
       clockBody framesCount i p st
       = Ok (mkClock (<[v := Some p]> (clockFrames st)) bits'
                     ((v + 1) mod framesCount)
                     (clockHits st) (S (clockFaults st)), s) ∧
       hit s = false ∧ fault s = true ∧
       replaced s = slotAt (clockFrames st) v ∧
       replacedIndex s = Some (Z.of_nat v) ∧
       note s = NoteClock (slotAt (clockFrames st) v) v (k + 1)).
Proof.
  intros (Hlen & Hbits & Hh). split_and!.
  - intros h Hhit. unfold clockBody, clockPush. rewrite Hhit.
    eexists. split_and!; reflexivity.
  - intros Hmiss e He. pose proof (indexOf_Some _ _ _ He) as (Hat & _ & Hlow).
    split_and!; [done|done|].
    unfold clockBody, clockPush. rewrite Hmiss, He.
    eexists. split_and!; reflexivity.
  - intros Hmiss Hfull.
    destruct (clockScan_spec framesCount p (clockFrames st) (clockRefBits st)
                (clockHand st) Hbits Hh) as (k & Hk & Hones & Hzero & Hscan).
    assert ((clockHand st + k) mod framesCount < framesCount) as Hv
      by (apply Nat.mod_upper_bound; lia).
    exists k, ((clockHand st + k) mod framesCount). eexists _, _.
    split_and!; [done|done|done|done|reflexivity|..].
    + apply list_lookup_insert_eq. by rewrite clearRun_length, Hbits.
    + intros d Hd Hne. rewrite list_lookup_insert_ne by done.
      by apply clearRun_cleared.
    + intros pos Hpos. rewrite list_lookup_insert_ne.
      2:{ intros Heq. by apply (Hpos k). }
      apply clearRun_other; [done|]. intros d Hd. apply Hpos. lia.
    + unfold clockBody, clockPush. rewrite Hmiss, Hfull, Hscan. simpl.
      reflexivity.
    + reflexivity.
    + reflexivity.
    + reflexivity.
    + reflexivity.
    + reflexivity.
Qed.

Lemma clock_second_chance_witness :
  ∃ k v bits' s,
    k ≤ 2 ∧ v = (0 + k) mod 2 ∧
    (∀ d, d < k → [1%Z; 1%Z] !! ((0 + d) mod 2) ≠ Some 0%Z) ∧
    clearRun 2 [1%Z; 1%Z] 0 k !! v = Some 0%Z ∧
    bits' = <[v := 1%Z]> (clearRun 2 [1%Z; 1%Z] 0 k) ∧
    bits' !! v = Some 1%Z ∧
    (∀ d, d < k → (0 + d) mod 2 ≠ v → bits' !! ((0 + d) mod 2) = Some 0%Z) ∧
    (∀ pos, (∀ d, d ≤ k → pos ≠ (0 + d) mod 2) →
       bits' !! pos = [1%Z; 1%Z] !! pos) ∧
    clockBody 2 3 3%Z (mkClock [Some 1%Z; Some 2%Z] [1%Z; 1%Z] 0 1 2)
    = Ok (mkClock (<[v := Some 3%Z]> [Some 1%Z; Some 2%Z]) bits'
                  ((v + 1) mod 2) 1 3, s) ∧
    hit s = false ∧ fault s = true ∧
    replaced s = slotAt [Some 1%Z; Some 2%Z] v ∧
    replacedIndex s = Some (Z.of_nat v) ∧
    note s = NoteClock (slotAt [Some 1%Z; Some 2%Z] v) v (k + 1).
Proof.
  assert (clockInv 2 (mkClock [Some 1%Z; Some 2%Z] [1%Z; 1%Z] 0 1 2)) as HI.
  { split_and!; [reflexivity|reflexivity|simpl; lia]. }
  apply (proj2 (proj2 (clock_second_chance 2 3 3%Z
           (mkClock [Some 1%Z; Some 2%Z] [1%Z; 1%Z] 0 1 2) HI))).
  - reflexivity.
  - reflexivity.
Defined.

Lemma clockBody_scans framesCount i p st st' s :
  clockInv framesCount st → clockBody framesCount i p st = Ok (st', s) →
  clockInv framesCount st' ∧
  ∀ vp vi scans, note s = NoteClock vp vi scans →
                 1 ≤ scans ≤ framesCount + 1.
Proof.
  intros HI Hb.
  destruct (clockBody_ok framesCount i p st HI) as (st2 & s2 & Hb2 & HI2 & _).
  rewrite Hb in Hb2. injection Hb2 as <- <-. split; [done|].
  destruct HI as (Hlen & Hbits & Hh). revert Hb. unfold clockBody, clockPush.
  destruct (indexOf (Some p) (clockFrames st)) as [h|].
  { intros Hb. injection Hb as <- <-. simpl. intros ???; discriminate. }
  destruct (indexOf None (clockFrames st)) as [e|].
  { intros Hb. injection Hb as <- <-. simpl. intros ???; discriminate. }
  destruct (clockScan_spec framesCount p (clockFrames st) (clockRefBits st)
              (clockHand st) Hbits Hh) as (k & Hk & _ & _ & ->).
  simpl. intros Hb. injection Hb as <- <-. simpl.
  intros vp vi scans Hn. injection Hn as <- <- <-. lia.
Qed.

(** The turn that serves reference [n] of a run: the state the loop is in
    after the first [n] references, and the record it pushes. *)
Lemma trace_step_at {St : Type} `{Engine St}
    (body : nat → Z → St → result (St * Step)) i rest st stf ss n p :
  trace body i rest st stf ss → rest !! n = Some p →
  ∃ stn stn' s, trace body i (take n rest) st stn (take n ss) ∧
                body (i + n) p stn = Ok (stn', s) ∧ ss !! n = Some s.
Proof.
  intros Ht. revert n.
  induction Ht as [|i q rest st st' s stf ss Hb Hs _ IH]; intros n Hn; [done|].
  destruct n as [|n]; simpl in Hn.
  - injection Hn as ->. exists st, st', s. rewrite Nat.add_0_r.
    split_and!; [constructor|done|done].
  - destruct (IH n Hn) as (stn & stn' & s' & Htn & Hbn & Hsn).
    exists stn, stn', s'. replace (i + S n) with (S i + n) by lia.
    split_and!; [by econstructor|done|done].
Qed.

(** C4.  For a valid capacity and a non-empty reference sequence the CLOCK
    run completes: no scan ends in the safety break and none runs on.  Every
    eviction recorded in the trace took at most twice the capacity scan
    turns.  From every state the loop passes through, a scan returns within
    that many turns, and what it returns is an eviction: the turns before
    the last passed slots whose bit was not 0, the last turn is at the slot
    that many places past the hand, whose bit is 0 by then; the page is put
    into that slot, its bit set to 1 and the hand left one past it.  When
    the reference at that position faults on a full table, this scan is the
    one the run makes: the record of the step reports the page the scan
    took out, a page that was in the slot, and shows the table the scan
    left. *)
Theorem clock_scan_bounded (v : jsval) (c : Z) (refs : list Z) :
  isCapacity v c → (1 ≤ c ≤ 50)%Z → refs ≠ [] →
  ∃ o, simulate "CLOCK" v refs = Ok o ∧
       (∀ s vp vi scans, s ∈ steps o → note s = NoteClock vp vi scans →
          1 ≤ scans ≤ 2 * Z.to_nat c) ∧
       ∀ n p, ∃ st ss ev,
         forLoop (clockBody (Z.to_nat c)) 0 (take n refs) (clockInit (Z.to_nat c))
         = Ok (st, ss) ∧
         clockScan (clockFuel (Z.to_nat c)) (Z.to_nat c) p (clockFrames st)
                   (clockRefBits st) (clockHand st) 0 = Ok ev ∧
         1 ≤ evScans ev ≤ 2 * Z.to_nat c ∧
         clearRun (Z.to_nat c) (clockRefBits st) (clockHand st) (evScans ev - 1)
           !! evVictimIndex ev = Some 0%Z ∧
         evVictimIndex ev = (clockHand st + (evScans ev - 1)) mod Z.to_nat c ∧
         evVictimIndex ev < length (clockFrames st) ∧
         (∀ d, d < evScans ev - 1 →
            clockRefBits st !! ((clockHand st + d) mod Z.to_nat c) ≠ Some 0%Z) ∧
         evVictimPage ev = slotAt (clockFrames st) (evVictimIndex ev) ∧
         evFrames ev = <[evVictimIndex ev := Some p]> (clockFrames st) ∧
         evFrames ev !! evVictimIndex ev = Some (Some p) ∧
         evRefBits ev
         = <[evVictimIndex ev := 1%Z]>
             (clearRun (Z.to_nat c) (clockRefBits st) (clockHand st) (evScans ev - 1)) ∧
         evHand ev = (evVictimIndex ev + 1) mod Z.to_nat c ∧
         (refs !! n = Some p →
          indexOf (Some p) (clockFrames st) = None →
          indexOf None (clockFrames st) = None →
          ∃ s w, steps o !! n = Some s ∧ hit s = false ∧ fault s = true ∧
                 evVictimPage ev = Some w ∧
                 clockFrames st !! evVictimIndex ev = Some (Some w) ∧
                 replaced s = Some w ∧
                 replacedIndex s = Some (Z.of_nat (evVictimIndex ev)) ∧
                 note s = NoteClock (Some w) (evVictimIndex ev) (evScans ev) ∧
                 frames s = evFrames ev).
Proof.
  intros Hv Hc Hrefs.
  assert (1 ≤ Z.to_nat c) as Hfc by lia.
  rewrite simulate_checks, (capacityCheck_true v c Hv Hc), (toCount_capacity v c Hv).
  destruct refs as [|r refs']; [done|]. set (refs := r :: refs').
  simpl String.eqb. cbv iota.
  destruct (simulateCLOCK_run (Z.to_nat c) refs Hfc) as (stf & ss & Ht & _ & ->).
  eexists. split; [done|]. split.
  - intros s vp vi scans Hin Hn. simpl in Hin.
    pose proof (trace_Forall (clockBody (Z.to_nat c)) (clockInv (Z.to_nat c))
                  (λ s, ∀ vp vi scans, note s = NoteClock vp vi scans →
                                       1 ≤ scans ≤ Z.to_nat c + 1)
                  (λ i p st st' s, clockBody_scans (Z.to_nat c) i p st st' s)
                  _ _ _ _ _ Ht (clockInv_init _ Hfc) s Hin vp vi scans Hn).
    lia.
  - intros n p.
    destruct (trace_exists (clockBody (Z.to_nat c)) (clockInv (Z.to_nat c))
                (λ i p st HI, clockBody_ok (Z.to_nat c) i p st HI)
                0 (take n refs) (clockInit (Z.to_nat c)) (clockInv_init _ Hfc))
      as (st & ss' & Ht' & (Hlen & Hbits & Hh)).
    destruct (clockScan_spec (Z.to_nat c) p (clockFrames st) (clockRefBits st)
                (clockHand st) Hbits Hh) as (k & Hk & Hones & Hzero & Hscan).
    assert ((clockHand st + k) mod Z.to_nat c < length (clockFrames st)) as Hvi.
    { rewrite Hlen. apply Nat.mod_upper_bound. lia. }
    exists st, ss'. eexists.
    split; [by apply trace_forLoop|]. split; [exact Hscan|].
    cbn [evScans evVictimIndex evVictimPage evFrames evRefBits evHand].
    replace (k + 1 - 1) with k by lia.
    split_and!; [lia|lia|done|done|done|done|done|done| |done|done|].
    + by apply list_lookup_insert_eq.
    + intros Hp Hmiss Hfull. simpl steps.
      destruct (trace_step_at _ _ _ _ _ _ n p Ht Hp) as (stn & stn' & s & Htn & Hb & Hs).
      pose proof (trace_forLoop _ _ _ _ _ _ Ht') as Hf1.
      pose proof (trace_forLoop _ _ _ _ _ _ Htn) as Hf2.
      rewrite Hf1 in Hf2. injection Hf2 as <- _.
      destruct (full_table_slot (clockFrames st) _ Hfull Hvi) as (w & Hw & Hsl).
      revert Hb. unfold clockBody, clockPush. rewrite Hmiss, Hfull, Hscan. simpl.
      rewrite Hsl. intros Hb. injection Hb as _ <-.
      eexists _, w. split_and!; [done|reflexivity|reflexivity|done|done|
        reflexivity|reflexivity|reflexivity|reflexivity].
Qed.

Lemma clock_scan_bounded_witness :
  ∃ o, simulate "CLOCK" (jsInt 2) [1;2;1;3;2]%Z = Ok o ∧
       (∀ s vp vi scans, s ∈ steps o → note s = NoteClock vp vi scans →
          1 ≤ scans ≤ 2 * Z.to_nat 2) ∧
       ∀ n p, ∃ st ss ev,
         forLoop (clockBody (Z.to_nat 2)) 0 (take n [1;2;1;3;2]%Z)
                 (clockInit (Z.to_nat 2)) = Ok (st, ss) ∧
         clockScan (clockFuel (Z.to_nat 2)) (Z.to_nat 2) p (clockFrames st)
                   (clockRefBits st) (clockHand st) 0 = Ok ev ∧
         1 ≤ evScans ev ≤ 2 * Z.to_nat 2 ∧
         clearRun (Z.to_nat 2) (clockRefBits st) (clockHand st) (evScans ev - 1)
           !! evVictimIndex ev = Some 0%Z ∧
         evVictimIndex ev = (clockHand st + (evScans ev - 1)) mod Z.to_nat 2 ∧
         evVictimIndex ev < length (clockFrames st) ∧
         (∀ d, d < evScans ev - 1 →
            clockRefBits st !! ((clockHand st + d) mod Z.to_nat 2) ≠ Some 0%Z) ∧
         evVictimPage ev = slotAt (clockFrames st) (evVictimIndex ev) ∧
         evFrames ev = <[evVictimIndex ev := Some p]> (clockFrames st) ∧
         evFrames ev !! evVictimIndex ev = Some (Some p) ∧
         evRefBits ev
         = <[evVictimIndex ev := 1%Z]>
             (clearRun (Z.to_nat 2) (clockRefBits st) (clockHand st) (evScans ev - 1)) ∧
         evHand ev = (evVictimIndex ev + 1) mod Z.to_nat 2 ∧
         ([1;2;1;3;2]%Z !! n = Some p →
          indexOf (Some p) (clockFrames st) = None →
          indexOf None (clockFrames st) = None →
          ∃ s w, steps o !! n = Some s ∧ hit s = false ∧ fault s = true ∧
                 evVictimPage ev = Some w ∧
                 clockFrames st !! evVictimIndex ev = Some (Some w) ∧
                 replaced s = Some w ∧
                 replacedIndex s = Some (Z.of_nat (evVictimIndex ev)) ∧
                 note s = NoteClock (Some w) (evVictimIndex ev) (evScans ev) ∧
                 frames s = evFrames ev).
Proof.
  apply (clock_scan_bounded (jsInt 2) 2 [1;2;1;3;2]%Z).
  - exists (inject_Z 2). split; reflexivity.
  - lia.
  - discriminate.
Defined.

(** * Further properties *)

(** ** The decision of one turn, engine by engine *)

Lemma full_table_lookup (fr : list (option Z)) (vi : nat) :
  indexOf None fr = None → vi < length fr →
  ∃ v, fr !! vi = Some (Some v) ∧ slotAt fr vi = Some v.
Proof. apply full_table_slot. Qed.

Lemma fifoBody_decision framesCount i p st st' s :
  fifoInv framesCount st → fifoBody framesCount i p st = Ok (st', s) →
  fifoInv framesCount st' ∧ decision p (fifoFrames st) (fifoFrames st') s.
Proof.
  intros HI Hb.
  destruct (fifoBody_ok framesCount i p st HI) as (st2 & s2 & Hb2 & HI2 & _).
  rewrite Hb in Hb2. injection Hb2 as <- <-. split; [done|].
  destruct HI as [Hlen Hptr]. revert Hb. unfold fifoBody, fifoPush.
  destruct (indexOf (Some p) (fifoFrames st)) as [h|] eqn:Eh.
  { intros Hb. injection Hb as <- <-. by eapply decision_hit. }
  destruct (indexOf None (fifoFrames st)) as [e|] eqn:Ee.
  { intros Hb. injection Hb as <- <-. by eapply decision_fill. }
  destruct (full_table_lookup (fifoFrames st) (fifoPointer st) Ee ltac:(lia))
    as (v & Hat & Hsl).
  rewrite Hsl. intros Hb. injection Hb as <- <-. by eapply decision_evict.
Qed.

Lemma lruBody_decision framesCount i p st st' s :
  lruInv framesCount st → lruBody framesCount i p st = Ok (st', s) →
  lruInv framesCount st' ∧ decision p (lruFrames st) (lruFrames st') s.
Proof.
  intros HI Hb.
  destruct (lruBody_ok framesCount i p st HI) as (st2 & s2 & Hb2 & HI2 & _).
  rewrite Hb in Hb2. injection Hb2 as <- <-. split; [done|].
  destruct HI as (Hlen & Hfc & _ & _). revert Hb. unfold lruBody, lruPush.
  destruct (indexOf (Some p) (lruFrames st)) as [h|] eqn:Eh.
  { intros Hb. injection Hb as <- <-. by eapply decision_hit. }
  destruct (indexOf None (lruFrames st)) as [e|] eqn:Ee.
  { intros Hb. injection Hb as <- <-. by eapply decision_fill. }
  destruct (lruVictim_spec framesCount (lruFrames st) (lruLastUsed st) Hfc)
    as (vi & -> & Hvi & _ & _).
  destruct (full_table_lookup (lruFrames st) vi Ee ltac:(lia)) as (v & Hat & Hsl).
  rewrite Hsl, setAtZ_of_nat. intros Hb. injection Hb as <- <-.
  by eapply decision_evict.
Qed.

Lemma optBody_decision framesCount refs i p st st' s :
  optInv framesCount st → optBody framesCount refs i p st = Ok (st', s) →
  optInv framesCount st' ∧ decision p (optFrames st) (optFrames st') s.
Proof.
  intros HI Hb.
  destruct (optBody_ok framesCount refs i p st HI) as (st2 & s2 & Hb2 & HI2 & _).
  rewrite Hb in Hb2. injection Hb2 as <- <-. split; [done|].
  destruct HI as (Hlen & Hfc). revert Hb. unfold optBody, optPush.
  destruct (indexOf (Some p) (optFrames st)) as [h|] eqn:Eh.
  { intros Hb. injection Hb as <- <-. by eapply decision_hit. }
  destruct (indexOf None (optFrames st)) as [e|] eqn:Ee.
  { intros Hb. injection Hb as <- <-. by eapply decision_fill. }
  destruct (optVictim_spec framesCount refs i (optFrames st) Hfc)
    as (vi & -> & Hvi & _ & _).
  destruct (full_table_lookup (optFrames st) vi Ee ltac:(lia)) as (v & Hat & Hsl).
  rewrite Hsl. intros Hb. injection Hb as <- <-.
  by eapply decision_evict.
Qed.

Lemma clockBody_decision framesCount i p st st' s :
  clockInv framesCount st → clockBody framesCount i p st = Ok (st', s) →
  clockInv framesCount st' ∧ decision p (clockFrames st) (clockFrames st') s.
Proof.
  intros HI Hb.
  destruct (clockBody_ok framesCount i p st HI) as (st2 & s2 & Hb2 & HI2 & _).
  rewrite Hb in Hb2. injection Hb2 as <- <-. split; [done|].
  destruct HI as (Hlen & Hbits & Hh). revert Hb. unfold clockBody, clockPush.
  destruct (indexOf (Some p) (clockFrames st)) as [h|] eqn:Eh.
  { intros Hb. injection Hb as <- <-. by eapply decision_hit. }
  destruct (indexOf None (clockFrames st)) as [e|] eqn:Ee.
  { intros Hb. injection Hb as <- <-. by eapply decision_fill. }
  destruct (clockScan_spec framesCount p (clockFrames st) (clockRefBits st)
              (clockHand st) Hbits Hh) as (k & Hk & _ & _ & ->).
  assert ((clockHand st + k) mod framesCount < framesCount) as Hv
    by (apply Nat.mod_upper_bound; lia).
  destruct (full_table_lookup (clockFrames st) _ Ee ltac:(rewrite Hlen; exact Hv))
    as (v & Hat & Hsl).
  simpl. rewrite Hsl. intros Hb. injection Hb as <- <-.
  by eapply decision_evict.
Qed.

Lemma trace_tableRun {St : Type} {E : Engine St}
    (body : nat → Z → St → result (St * Step)) (Inv : St → Prop) :
  (∀ i p st st' s, Inv st → body i p st = Ok (st', s) →
     Inv st' ∧ decision p (stFrames st) (stFrames st') s) →
  ∀ i rest st stf ss, trace body i rest st stf ss → Inv st →
    tableRun rest (stFrames st) ss.
Proof.
  intros Hdec i rest st stf ss Ht.
  induction Ht as [|i p rest st st' s stf ss Hb Hs _ IH]; intros HI.
  - constructor.
  - destruct (Hdec _ _ _ _ _ HI Hb) as [HI' Hd].
    destruct Hs as [_ Hp Hfr _ _ _ _].
    constructor; [done|by rewrite Hfr|]. rewrite Hfr. by apply IH.
Qed.

(** A valid call completes with a well-formed output whose records are a
    run of decisions from the empty table. *)
Lemma simulate_tableRun algoName v c refs :
  knownPolicy algoName → isCapacity v c → (1 ≤ c ≤ 50)%Z → refs ≠ [] →
  ∃ o, simulate algoName v refs = Ok o ∧
       wellFormed (Z.to_nat c) refs o ∧
       tableRun refs (fill (Z.to_nat c) None) (steps o).
Proof.
  intros Hk Hv Hc Hrefs.
  rewrite simulate_checks, (capacityCheck_true v c Hv Hc), (toCount_capacity v c Hv).
  destruct refs as [|r refs']; [done|]. set (refs := r :: refs').
  assert (1 ≤ Z.to_nat c) as Hfc by lia.
  destruct Hk as [-> | [-> | [-> | ->]]]; simpl String.eqb; cbv iota.
  - destruct (simulateFIFO_run (Z.to_nat c) refs Hfc) as (stf & ss & Ht & _ & ->).
    eexists. split; [done|]. split; [by eapply trace_wellFormed|].
    apply (trace_tableRun (E := fifoEngine) _ (fifoInv (Z.to_nat c))
             (fifoBody_decision (Z.to_nat c)) _ _ _ _ _ Ht).
    by apply fifoInv_init.
  - destruct (simulateLRU_run (Z.to_nat c) refs Hfc) as (stf & ss & Ht & _ & ->).
    eexists. split; [done|]. split; [by eapply trace_wellFormed|].
    apply (trace_tableRun (E := lruEngine) _ (lruInv (Z.to_nat c))
             (lruBody_decision (Z.to_nat c)) _ _ _ _ _ Ht).
    by apply lruInv_init.
  - destruct (simulateOPT_run (Z.to_nat c) refs Hfc) as (stf & ss & Ht & _ & ->).
    eexists. split; [done|]. split; [by eapply trace_wellFormed|].
    apply (trace_tableRun (E := optEngine) _ (optInv (Z.to_nat c))
             (optBody_decision (Z.to_nat c) refs) _ _ _ _ _ Ht).
    by apply optInv_init.
  - destruct (simulateCLOCK_run (Z.to_nat c) refs Hfc) as (stf & ss & Ht & _ & ->).
    eexists. split; [done|]. split; [by eapply trace_wellFormed|].
    apply (trace_tableRun (E := clockEngine) _ (clockInv (Z.to_nat c))
             (clockBody_decision (Z.to_nat c)) _ _ _ _ _ Ht).
    by apply clockInv_init.
Qed.

(** ** What every run of decisions satisfies *)

Lemma decision_resident p fr fr' s :
  decision p fr fr' s →
  (hit s = true ↔ Some p ∈ fr) ∧ Some p ∈ fr' ∧ length fr' = length fr ∧
  fault s = negb (hit s).
Proof.
  intros [h Hh -> Hhit Hf _ _|e Hm He -> Hhit Hf _ _|vi v Hm Hfull Hat -> Hhit Hf _ _].
  - apply indexOf_Some in Hh as (Hat & _ & _).
    assert (Some p ∈ fr) by by eapply list_elem_of_lookup_2.
    rewrite Hhit, Hf. by split_and!.
  - apply indexOf_None in Hm. apply indexOf_Some in He as (_ & Hlt & _).
    rewrite Hhit, Hf, length_insert. split_and!; [by split| |done|done].
    eapply list_elem_of_lookup_2. by apply list_lookup_insert_eq.
  - apply indexOf_None in Hm. pose proof (lookup_lt_Some _ _ _ Hat) as Hlt.
    rewrite Hhit, Hf, length_insert. split_and!; [by split| |done|done].
    eapply list_elem_of_lookup_2. by apply list_lookup_insert_eq.
Qed.

Lemma tableRun_lookup w fr ss k s :
  tableRun w fr ss → ss !! k = Some s →
  w !! k = Some (page s) ∧
  decision (page s)
    (match k with 0 => fr | S k' => default [] (frames <$> ss !! k') end)
    (frames s) s.
Proof.
  intros Hr. revert k.
  induction Hr as [|p w fr s0 ss Hp Hd _ IH]; intros k Hk; [done|].
  destruct k as [|k]; simpl in Hk.
  - injection Hk as <-. simpl. by rewrite Hp.
  - destruct (IH k Hk) as [Hw Hdec]. split; [done|].
    destruct k as [|k]; simpl; [done|]. done.
Qed.

Lemma tableRun_length w fr ss : tableRun w fr ss → length ss = length w.
Proof. induction 1; simpl; congruence. Qed.

Lemma simulate_decisions algoName v c refs :
  knownPolicy algoName → isCapacity v c → (1 ≤ c ≤ 50)%Z → refs ≠ [] →
  ∃ o, simulate algoName v refs = Ok o ∧
       wellFormed (Z.to_nat c) refs o ∧
       ∀ k s, steps o !! k = Some s →
         refs !! k = Some (page s) ∧
         decision (page s) (tableBefore (Z.to_nat c) (steps o) k) (frames s) s.
Proof.
  intros Hk Hv Hc Hrefs.
  destruct (simulate_tableRun algoName v c refs Hk Hv Hc Hrefs) as (o & Ho & Hwf & Hr).
  exists o. split_and!; [done|done|]. intros k s Hs.
  destruct (tableRun_lookup _ _ _ k s Hr Hs) as [Hw Hd].
  split; [done|]. by destruct k.
Qed.

(** X1.  In a run of any of the four policies a step is a hit exactly when
    its page is in the table the step starts from (the snapshot of the step
    before, the empty table for the first step), and after every step the
    page is in the table.  So the first reference always faults, and a
    reference to the page just referenced always hits. *)
Theorem hit_iff_resident (algoName : string) (v : jsval) (c : Z) (refs : list Z) :
  knownPolicy algoName → isCapacity v c → (1 ≤ c ≤ 50)%Z → refs ≠ [] →
  ∃ o, simulate algoName v refs = Ok o ∧
       (∀ k s, steps o !! k = Some s →
          refs !! k = Some (page s) ∧
          (hit s = true ↔ Some (page s) ∈ tableBefore (Z.to_nat c) (steps o) k) ∧
          Some (page s) ∈ frames s) ∧
       (∀ s, steps o !! 0 = Some s → fault s = true) ∧
       (∀ k p s, refs !! k = Some p → refs !! (S k) = Some p →
          steps o !! (S k) = Some s → hit s = true).
Proof.
  intros Hk Hv Hc Hrefs.
  destruct (simulate_decisions algoName v c refs Hk Hv Hc Hrefs) as (o & Ho & Hwf & Hd).
  exists o. split; [done|].
  assert (∀ k s, steps o !! k = Some s →
            refs !! k = Some (page s) ∧
            (hit s = true ↔ Some (page s) ∈ tableBefore (Z.to_nat c) (steps o) k) ∧
            Some (page s) ∈ frames s) as Hall.
  { intros k s Hs. destruct (Hd k s Hs) as [Hw Hdec].
    destruct (decision_resident _ _ _ _ Hdec) as (H1 & H2 & _). by split_and!. }
  split_and!; [done| |].
  - intros s Hs. destruct (Hd 0 s Hs) as [_ Hdec].
    destruct (decision_resident _ _ _ _ Hdec) as (H1 & _ & _ & H4).
    rewrite H4. destruct (hit s) eqn:E; [|done].
    exfalso. assert (Some (page s) ∈ tableBefore (Z.to_nat c) (steps o) 0) as Hin
      by by apply H1.
    simpl in Hin. apply elem_of_replicate in Hin as [? _]. done.
  - intros k p s Hk0 Hk1 Hs.
    destruct (Hall (S k) s Hs) as (Hw & Hiff & _).
    assert (page s = p) as Hp by congruence.
    apply Hiff. simpl.
    assert (k < length (steps o)) as Hlt.
    { rewrite (wf_length _ _ _ Hwf). by eapply lookup_lt_Some. }
    destruct (lookup_lt_is_Some_2 _ _ Hlt) as [s0 Hs0]. rewrite Hs0. simpl.
    destruct (Hall k s0 Hs0) as (Hw0 & _ & Hres).
    assert (page s0 = p) as Hp0 by congruence. by rewrite Hp, <- Hp0.
Qed.

Lemma hit_iff_resident_witness :
  ∃ o, simulate "FIFO" (jsInt 2) [1;1;2;3]%Z = Ok o ∧
       (∀ k s, steps o !! k = Some s →
          [1;1;2;3]%Z !! k = Some (page s) ∧
          (hit s = true ↔ Some (page s) ∈ tableBefore (Z.to_nat 2) (steps o) k) ∧
          Some (page s) ∈ frames s) ∧
       (∀ s, steps o !! 0 = Some s → fault s = true) ∧
       (∀ k p s, [1;1;2;3]%Z !! k = Some p → [1;1;2;3]%Z !! (S k) = Some p →
          steps o !! (S k) = Some s → hit s = true).
Proof.
  apply (hit_iff_resident "FIFO" (jsInt 2) 2 [1;1;2;3]%Z).
  - left. reflexivity.
  - exists (inject_Z 2). split; reflexivity.
  - lia.
  - discriminate.
Defined.

Lemma tableBefore_wf framesCount refs o k s :
  wellFormed framesCount refs o → steps o !! k = Some s →
  length (tableBefore framesCount (steps o) k) = framesCount ∧
  NoDupPages (tableBefore framesCount (steps o) k).
Proof.
  intros Hwf Hs. destruct k as [|k]; simpl.
  - split; [apply length_replicate|apply NoDupPages_fill].
  - pose proof (lookup_lt_Some _ _ _ Hs) as Hlt.
    destruct (lookup_lt_is_Some_2 (steps o) k ltac:(lia)) as [s0 Hs0].
    rewrite Hs0. simpl. apply (wf_tables _ _ _ Hwf).
    by eapply list_elem_of_lookup_2.
Qed.

(** X2.  In a run of any of the four policies each snapshot differs from
    the table the step started from in at most one slot.  A record that
    reports no eviction belongs to a hit, which leaves the table as it was,
    or to a fault that put the page into the lowest empty slot.  A record
    that reports an eviction belongs to a fault on a table without empty
    slot: the reported page was in the reported slot, the requested page has
    taken its place, and the evicted page is no longer in the table. *)
Theorem eviction_records (algoName : string) (v : jsval) (c : Z) (refs : list Z) :
  knownPolicy algoName → isCapacity v c → (1 ≤ c ≤ 50)%Z → refs ≠ [] →
  ∃ o, simulate algoName v refs = Ok o ∧
       ∀ k s, steps o !! k = Some s →
         let before := tableBefore (Z.to_nat c) (steps o) k in
         (replacedIndex s = None ∧ replaced s = None ∧
          ((hit s = true ∧ frames s = before) ∨
           (fault s = true ∧
            ∃ e, before !! e = Some None ∧
                 (∀ j, j < e → before !! j ≠ Some None) ∧
                 frames s = <[e := Some (page s)]> before))) ∨
         (fault s = true ∧
          ∃ vi w, replacedIndex s = Some (Z.of_nat vi) ∧ replaced s = Some w ∧
                  (None ∉ before) ∧ before !! vi = Some (Some w) ∧
                  frames s = <[vi := Some (page s)]> before ∧
                  w ≠ page s ∧ Some w ∉ frames s).
Proof.
  intros Hk Hv Hc Hrefs.
  destruct (simulate_decisions algoName v c refs Hk Hv Hc Hrefs) as (o & Ho & Hwf & Hd).
  exists o. split; [done|]. intros k s Hs before.
  destruct (Hd k s Hs) as [_ Hdec]. fold before in Hdec.
  destruct (tableBefore_wf _ _ _ k s Hwf Hs) as [Hlen Hnd]. fold before in Hlen, Hnd.
  destruct Hdec as [h Hh Heq Hhit Hf Hr Hri|e Hm He Heq Hhit Hf Hr Hri
                   |vi w Hm Hfull Hat Heq Hhit Hf Hr Hri].
  - left. split_and!; [done|done|]. left. done.
  - left. split_and!; [done|done|]. right. split; [done|].
    apply indexOf_Some in He as (Hat & _ & Hlow). by exists e.
  - right. split; [done|]. exists vi, w.
    apply indexOf_None in Hm, Hfull.
    pose proof (lookup_lt_Some _ _ _ Hat) as Hlt.
    assert (w ≠ page s) as Hne.
    { intros ->. apply Hm. by eapply list_elem_of_lookup_2. }
    split_and!; [done|done|done|done|done|done|].
    rewrite Heq, elem_of_insert_slot by done.
    intros [Heq'|(j & Hj & Hatj)]; [congruence|].
    apply Hj. by apply (Hnd j vi w).
Qed.

Lemma eviction_records_witness :
  ∃ o, simulate "LRU" (jsInt 2) [1;2;1;3;2]%Z = Ok o ∧
       ∀ k s, steps o !! k = Some s →
         let before := tableBefore (Z.to_nat 2) (steps o) k in
         (replacedIndex s = None ∧ replaced s = None ∧
          ((hit s = true ∧ frames s = before) ∨
           (fault s = true ∧
            ∃ e, before !! e = Some None ∧
                 (∀ j, j < e → before !! j ≠ Some None) ∧
                 frames s = <[e := Some (page s)]> before))) ∨
         (fault s = true ∧
          ∃ vi w, replacedIndex s = Some (Z.of_nat vi) ∧ replaced s = Some w ∧
                  (None ∉ before) ∧ before !! vi = Some (Some w) ∧
                  frames s = <[vi := Some (page s)]> before ∧
                  w ≠ page s ∧ Some w ∉ frames s).
Proof.
  apply (eviction_records "LRU" (jsInt 2) 2 [1;2;1;3;2]%Z).
  - right. left. reflexivity.
  - exists (inject_Z 2). split; reflexivity.
  - lia.
  - discriminate.
Defined.

Lemma occupied_cons s fr :
  occupied (s :: fr) = match s with Some _ => 1 | None => 0 end + occupied fr.
Proof. by destruct s. Qed.

Lemma occupied_fill n : occupied (fill n None) = 0.
Proof.
  unfold fill. induction n as [|n IH]; [done|].
  simpl replicate. by rewrite occupied_cons, IH.
Qed.

Lemma occupied_le_length fr : occupied fr ≤ length fr.
Proof.
  induction fr as [|s fr IH]; [done|].
  rewrite occupied_cons. destruct s; simpl; lia.
Qed.

Lemma occupied_insert fr j p :
  j < length fr →
  occupied (<[j := Some p]> fr)
  = occupied fr + match slotAt fr j with Some _ => 0 | None => 1 end.
Proof.
  unfold slotAt. revert j.
  induction fr as [|s fr IH]; intros j Hj; simpl in Hj; [lia|].
  destruct j as [|j]; simpl.
  - rewrite !occupied_cons. destruct s; simpl; lia.
  - specialize (IH j ltac:(lia)). rewrite !occupied_cons, IH. lia.
Qed.

Lemma occupied_full fr : occupied fr = length fr ↔ None ∉ fr.
Proof.
  induction fr as [|[q|] fr IH].
  - split; [intros _; apply not_elem_of_nil|done].
  - rewrite occupied_cons, not_elem_of_cons. simpl. split.
    + intros Hl. split; [done|]. apply IH. lia.
    + intros [_ Hn]. f_equal. by apply IH.
  - rewrite occupied_cons. pose proof (occupied_le_length fr) as Hle. simpl.
    split; [lia|]. intros Hn. exfalso. apply Hn. left.
Qed.

Lemma finalTable_cons fr s ss : finalTable fr (s :: ss) = finalTable (frames s) ss.
Proof.
  unfold finalTable. destruct ss as [|s' ss]; [done|]. rewrite last_cons_cons.
  destruct (last (s' :: ss)) eqn:E; [done|]. by apply last_None in E.
Qed.

Lemma tableRun_accounting w fr ss :
  tableRun w fr ss →
  countFaults ss + occupied fr = countEvictions ss + occupied (finalTable fr ss).
Proof.
  unfold countFaults, countEvictions.
  induction 1 as [|p w fr s ss Hp Hd _ IH]; [done|].
  rewrite finalTable_cons, !filter_cons.
  destruct Hd as [h Hh Heq Hhit Hf Hr Hri|e Hm He Heq Hhit Hf Hr Hri
                 |vi v Hm Hfull Hat Heq Hhit Hf Hr Hri].
  - rewrite Heq in IH |- *. rewrite Hf, Hri.
    rewrite decide_False by done. rewrite decide_False by (intros H; by apply H).
    done.
  - apply indexOf_Some in He as (Hat & Hlt & _).
    rewrite Heq in IH |- *.
    rewrite occupied_insert, (slotAt_lookup _ _ _ Hat) in IH by done.
    rewrite Hf, Hri. rewrite decide_True by done.
    rewrite decide_False by (intros H; by apply H). simpl. lia.
  - pose proof (lookup_lt_Some _ _ _ Hat) as Hlt.
    rewrite Heq in IH |- *.
    rewrite occupied_insert, (slotAt_lookup _ _ _ Hat) in IH by done.
    rewrite Hf, Hri. rewrite decide_True by done.
    rewrite decide_True by done. simpl. lia.
Qed.

(** X3.  In a run of any of the four policies the number of faults is the
    number of evictions plus the number of slots in use at the end: every
    fault either fills a slot that was empty or evicts. *)
Theorem faults_are_fills_plus_evictions (algoName : string) (v : jsval) (c : Z)
    (refs : list Z) :
  knownPolicy algoName → isCapacity v c → (1 ≤ c ≤ 50)%Z → refs ≠ [] →
  ∃ o s, simulate algoName v refs = Ok o ∧ last (steps o) = Some s ∧
         faults (summary o) = countEvictions (steps o) + occupied (frames s) ∧
         occupied (frames s) ≤ Z.to_nat c.
Proof.
  intros Hk Hv Hc Hrefs.
  destruct (simulate_tableRun algoName v c refs Hk Hv Hc Hrefs) as (o & Ho & Hwf & Hr).
  pose proof (tableRun_accounting _ _ _ Hr) as Hacc.
  rewrite occupied_fill in Hacc.
  destruct (last (steps o)) as [s|] eqn:El.
  - exists o, s. split_and!; [done|done| |].
    + unfold finalTable in Hacc. rewrite El in Hacc. simpl in Hacc.
      rewrite (wf_faults _ _ _ Hwf). lia.
    + destruct (wf_tables _ _ _ Hwf s) as [Hl _].
      { apply last_Some in El as [l' ->]. apply elem_of_app. right. left. }
      pose proof (occupied_le_length (frames s)). lia.
  - exfalso. apply last_None in El.
    pose proof (wf_length _ _ _ Hwf) as Hl. rewrite El in Hl.
    destruct refs; [done|simpl in Hl; lia].
Qed.

Lemma faults_are_fills_plus_evictions_witness :
  ∃ o s, simulate "CLOCK" (jsInt 2) [1;2;1;3;2]%Z = Ok o ∧
         last (steps o) = Some s ∧
         faults (summary o) = countEvictions (steps o) + occupied (frames s) ∧
         occupied (frames s) ≤ Z.to_nat 2.
Proof.
  apply (faults_are_fills_plus_evictions "CLOCK" (jsInt 2) 2 [1;2;1;3;2]%Z).
  - right. right. right. reflexivity.
  - exists (inject_Z 2). split; reflexivity.
  - lia.
  - discriminate.
Defined.

(** ** Faults and the number of different pages *)

Lemma countFaults_cons s ss :
  countFaults (s :: ss) = (if fault s then 1 else 0) + countFaults ss.
Proof.
  unfold countFaults. rewrite filter_cons.
  destruct (fault s); case_decide; simpl; done.
Qed.

Lemma decision_tables p fr fr' s q :
  decision p fr fr' s → Some q ∈ fr' → q = p ∨ Some q ∈ fr.
Proof.
  intros [h _ -> _ _ _ _|e _ He -> _ _ _ _|vi v _ _ Hat -> _ _ _ _] Hin.
  - by right.
  - apply indexOf_Some in He as (_ & Hlt & _).
    rewrite elem_of_insert_slot in Hin by done.
    destruct Hin as [Heq|(k & _ & Hk)].
    + left. congruence.
    + right. by eapply list_elem_of_lookup_2.
  - pose proof (lookup_lt_Some _ _ _ Hat) as Hlt.
    rewrite elem_of_insert_slot in Hin by done.
    destruct Hin as [Heq|(k & _ & Hk)].
    + left. congruence.
    + right. by eapply list_elem_of_lookup_2.
Qed.

Lemma diff_cons_seen (p : Z) (W seen : gset Z) :
  p ∈ seen → ({[p]} ∪ W) ∖ seen = W ∖ seen.
Proof.
  intros Hp. apply set_eq. intros x.
  rewrite !elem_of_difference, elem_of_union, elem_of_singleton.
  split; [|tauto]. intros [[->|?] ?]; tauto.
Qed.

Lemma diff_cons_new (p : Z) (W seen : gset Z) :
  p ∉ seen → ({[p]} ∪ W) ∖ seen = {[p]} ∪ (W ∖ (seen ∪ {[p]})).
Proof.
  intros Hp. apply set_eq. intros x.
  rewrite !elem_of_difference, !elem_of_union, !elem_of_difference,
    elem_of_union, elem_of_singleton.
  destruct (decide (x = p)) as [->|Hne]; tauto.
Qed.

Lemma size_diff_cons_new (p : Z) (W seen : gset Z) :
  p ∉ seen → size (({[p]} ∪ W) ∖ seen) = S (size (W ∖ (seen ∪ {[p]}))).
Proof.
  intros Hp. rewrite diff_cons_new by done.
  rewrite size_union, size_singleton; [done|].
  intros x. rewrite elem_of_singleton, elem_of_difference, elem_of_union,
    elem_of_singleton. tauto.
Qed.

Lemma diff_empty_r (W : gset Z) : W ∖ ∅ = W.
Proof.
  apply set_eq. intros x. rewrite elem_of_difference.
  split; [tauto|]. intros ?. split; [done|]. apply not_elem_of_empty.
Qed.

Lemma size_union_mono_l (A B C : gset Z) : B ⊆ C → size (A ∪ B) ≤ size (A ∪ C).
Proof.
  intros Hs. apply subseteq_size. intros x.
  rewrite !elem_of_union. intros [?|?]; [by left|right; by apply Hs].
Qed.

Lemma tableRun_compulsory w fr ss :
  tableRun w fr ss → ∀ seen : gset Z,
  (∀ q, Some q ∈ fr → q ∈ seen) →
  size (list_to_set w ∖ seen) ≤ countFaults ss.
Proof.
  induction 1 as [fr|p w fr s ss Hp Hd _ IH]; intros seen Hres.
  - simpl. etrans; [apply subseteq_size, subseteq_difference_l; done|].
    rewrite size_empty. lia.
  - rewrite countFaults_cons. simpl.
    destruct (decide (p ∈ seen)) as [Hin|Hnin].
    + rewrite diff_cons_seen by done.
      specialize (IH seen). destruct (fault s); simpl; [|apply IH].
      * etrans; [apply IH|lia].
        intros q Hq. destruct (decision_tables _ _ _ _ _ Hd Hq) as [->|?]; auto.
      * intros q Hq. destruct (decision_tables _ _ _ _ _ Hd Hq) as [->|?]; auto.
    + destruct (decision_resident _ _ _ _ Hd) as (Hiff & _ & _ & Hf).
      assert (fault s = true) as ->.
      { rewrite Hf. destruct (hit s); [|done]. exfalso.
        apply Hnin, Hres. by apply Hiff. }
      rewrite size_diff_cons_new by done.
      specialize (IH (seen ∪ {[p]})). simpl. apply le_n_S, IH.
      intros q Hq. rewrite elem_of_union, elem_of_singleton.
      destruct (decision_tables _ _ _ _ _ Hd Hq) as [->|?]; auto.
Qed.

Lemma NoDupPages_omap fr : NoDupPages fr → NoDup (omap id fr).
Proof.
  induction fr as [|[q|] fr IH]; intros Hnd; simpl.
  - constructor.
  - constructor.
    + intros Hin. apply list_elem_of_omap in Hin as (x & Hx & Hid).
      simpl in Hid. subst x. by apply (NoDupPages_head q fr).
    + apply IH. by eapply NoDupPages_tail.
  - apply IH. by eapply NoDupPages_tail.
Qed.

Lemma occupied_size fr (seen : gset Z) :
  NoDupPages fr → (∀ q, Some q ∈ fr ↔ q ∈ seen) → occupied fr = size seen.
Proof.
  intros Hnd Hres. unfold occupied.
  rewrite <- (size_list_to_set (C := gset Z)) by by apply NoDupPages_omap.
  f_equal. apply set_eq. intros q.
  rewrite elem_of_list_to_set, list_elem_of_omap, <- Hres. split.
  - intros (x & Hx & Hid). simpl in Hid. by subst x.
  - intros Hq. by exists (Some q).
Qed.

Lemma tableRun_roomy w fr ss :
  tableRun w fr ss → ∀ seen : gset Z,
  NoDupPages fr → (∀ q, Some q ∈ fr ↔ q ∈ seen) →
  size (seen ∪ list_to_set w) ≤ length fr →
  countFaults ss = size (list_to_set w ∖ seen) ∧
  ∀ s, s ∈ ss → replacedIndex s = None ∧ replaced s = None.
Proof.
  induction 1 as [fr|p w fr s ss Hp Hd _ IH]; intros seen Hnd Hres Hroom.
  - simpl. split; [|intros s Hs; by apply elem_of_nil in Hs].
    symmetry. apply Nat.le_0_r. rewrite <- (size_empty (C := gset Z)).
    apply subseteq_size, subseteq_difference_l. done.
  - rewrite countFaults_cons. simpl in *.
    destruct (decide (p ∈ seen)) as [Hin|Hnin].
    + assert (Some p ∈ fr) as Hpfr by by apply Hres.
      destruct Hd as [h Hh Heq Hhit Hf Hr Hri|e Hm He Heq Hhit Hf Hr Hri
                     |vi v Hm Hfull Hat Heq Hhit Hf Hr Hri].
      2:{ exfalso. by apply indexOf_None in Hm. }
      2:{ exfalso. by apply indexOf_None in Hm. }
      rewrite Heq in IH.
      destruct (IH seen Hnd Hres) as [Hc Hall].
      { etrans; [|exact Hroom]. apply size_union_mono_l, union_subseteq_r. }
      rewrite Hf, Hc. simpl. split.
      * by rewrite diff_cons_seen.
      * intros s' Hs'. apply elem_of_cons in Hs' as [->|Hs']; [done|auto].
    + assert (Some p ∉ fr) as Hpfr by (intros ?; by apply Hnin, Hres).
      destruct Hd as [h Hh Heq Hhit Hf Hr Hri|e Hm He Heq Hhit Hf Hr Hri
                     |vi v Hm Hfull Hat Heq Hhit Hf Hr Hri].
      * exfalso. apply indexOf_Some in Hh as (Hat & _ & _).
        apply Hpfr. by eapply list_elem_of_lookup_2.
      * apply indexOf_Some in He as (Hat & Hlt & _).
        rewrite Heq in IH.
        destruct (IH (seen ∪ {[p]})) as [Hc Hall].
        -- by apply NoDupPages_insert.
        -- intros q. rewrite elem_of_insert_slot by done.
           rewrite elem_of_union, elem_of_singleton, <- Hres. split.
           ++ intros [Hq|(k & _ & Hk)]; [right; congruence|].
              left. by eapply list_elem_of_lookup_2.
           ++ intros [Hq| ->]; [|by left]. right.
              apply list_elem_of_lookup in Hq as [k Hk]. exists k.
              split; [congruence|done].
        -- rewrite length_insert. etrans; [|exact Hroom].
           apply subseteq_size. intros x.
           rewrite !elem_of_union, elem_of_singleton. tauto.
        -- rewrite Hf, Hc. simpl. split.
           ++ by rewrite size_diff_cons_new.
           ++ intros s' Hs'. apply elem_of_cons in Hs' as [->|Hs']; [done|auto].
      * exfalso. apply indexOf_None, occupied_full in Hfull.
        rewrite (occupied_size fr seen Hnd Hres) in Hfull.
        assert (size (seen ∪ {[p]}) ≤ size (seen ∪ ({[p]} ∪ list_to_set w))) as Hle
          by apply size_union_mono_l, union_subseteq_l.
        rewrite size_union, size_singleton in Hle; [lia|].
        intros x. rewrite elem_of_singleton. by intros ? ->.
Qed.

(** X4.  In a run of any of the four policies the number of faults is at
    least the number of different pages referenced, because the first
    reference to each page faults.  When the capacity is at least that
    number the bound is met exactly, and no step evicts. *)
Theorem faults_and_distinct_pages (algoName : string) (v : jsval) (c : Z)
    (refs : list Z) :
  knownPolicy algoName → isCapacity v c → (1 ≤ c ≤ 50)%Z → refs ≠ [] →
  ∃ o, simulate algoName v refs = Ok o ∧
       distinctPages refs ≤ faults (summary o) ∧
       hits (summary o) + distinctPages refs ≤ length refs ∧
       (distinctPages refs ≤ Z.to_nat c →
          faults (summary o) = distinctPages refs ∧
          ∀ s, s ∈ steps o → replacedIndex s = None ∧ replaced s = None).
Proof.
  intros Hk Hv Hc Hrefs.
  destruct (simulate_tableRun algoName v c refs Hk Hv Hc Hrefs) as (o & Ho & Hwf & Hr).
  exists o. split; [done|].
  assert (∀ q, Some q ∈ fill (Z.to_nat c) None ↔ q ∈ (∅ : gset Z)) as Hempty.
  { intros q. split.
    - intros Hin. apply elem_of_replicate in Hin as [? _]. done.
    - intros Hin. by apply not_elem_of_empty in Hin. }
  pose proof (tableRun_compulsory _ _ _ Hr ∅ (λ q Hq, proj1 (Hempty q) Hq)) as Hlow.
  rewrite diff_empty_r in Hlow.
  fold (distinctPages refs) in Hlow. rewrite <- (wf_faults _ _ _ Hwf) in Hlow.
  pose proof (wf_total _ _ _ Hwf) as Htot.
  split_and!; [done|lia|].
  intros Hroom.
  destruct (tableRun_roomy _ _ _ Hr ∅ (NoDupPages_fill _) Hempty) as [Hc' Hall].
  - rewrite length_replicate, (left_id_L ∅ (∪)). done.
  - rewrite diff_empty_r in Hc'.
    split; [|done]. by rewrite (wf_faults _ _ _ Hwf).
Qed.

Lemma faults_and_distinct_pages_witness :
  ∃ o, simulate "OPT" (jsInt 3) [1;2;1;3;2]%Z = Ok o ∧
       distinctPages [1;2;1;3;2]%Z ≤ faults (summary o) ∧
       hits (summary o) + distinctPages [1;2;1;3;2]%Z ≤ length [1;2;1;3;2]%Z ∧
       (distinctPages [1;2;1;3;2]%Z ≤ Z.to_nat 3 →
          faults (summary o) = distinctPages [1;2;1;3;2]%Z ∧
          ∀ s, s ∈ steps o → replacedIndex s = None ∧ replaced s = None).
Proof.
  apply (faults_and_distinct_pages "OPT" (jsInt 3) 3 [1;2;1;3;2]%Z).
  - right. right. left. reflexivity.
  - exists (inject_Z 3). split; reflexivity.
  - lia.
  - discriminate.
Defined.

(** ** Slots fill from the left and are never emptied *)

Lemma packed_fill n : packed (fill n None).
Proof.
  intros i j Hij Hj _. unfold fill in *. rewrite length_replicate in Hj.
  by apply lookup_replicate_2.
Qed.

Lemma decision_packed p fr fr' s :
  decision p fr fr' s → packed fr →
  packed fr' ∧ ∀ j q, fr !! j = Some (Some q) → ∃ q', fr' !! j = Some (Some q').
Proof.
  intros [h _ -> _ _ _ _|e _ He -> _ _ _ _|vi v _ Hfull Hat -> _ _ _ _] Hpk.
  - split; [done|]. intros j q Hj. by exists q.
  - apply indexOf_Some in He as (Hat & Hlt & Hlow). split.
    + intros i j Hij Hj Hi. rewrite length_insert in Hj.
      destruct (decide (i = e)) as [->|Hie].
      { rewrite list_lookup_insert_eq in Hi by done. done. }
      rewrite list_lookup_insert_ne in Hi by done.
      assert (e < i) as Hei.
      { destruct (decide (e < i)); [done|]. exfalso. apply (Hlow i); [lia|done]. }
      rewrite list_lookup_insert_ne by lia. by apply (Hpk i j).
    + intros j q Hj. destruct (decide (j = e)) as [->|Hje]; [congruence|].
      exists q. by rewrite list_lookup_insert_ne.
  - apply indexOf_None in Hfull.
    pose proof (lookup_lt_Some _ _ _ Hat) as Hlt. split.
    + intros i j Hij Hj Hi. exfalso.
      destruct (decide (i = vi)) as [->|Hne].
      { rewrite list_lookup_insert_eq in Hi by done. done. }
      rewrite list_lookup_insert_ne in Hi by done.
      apply Hfull. by eapply list_elem_of_lookup_2.
    + intros j q Hj. destruct (decide (j = vi)) as [->|Hne].
      * exists p. by apply list_lookup_insert_eq.
      * exists q. by rewrite list_lookup_insert_ne.
Qed.

Lemma tableRun_packed w fr ss :
  tableRun w fr ss → packed fr →
  ∀ k s, ss !! k = Some s →
    packed (match k with 0 => fr | S k' => default [] (frames <$> ss !! k') end) ∧
    packed (frames s).
Proof.
  induction 1 as [|p w fr s0 ss Hp Hd _ IH]; intros Hpk k s Hk; [done|].
  destruct (decision_packed _ _ _ _ Hd Hpk) as [Hpk' _].
  destruct k as [|k]; simpl in Hk.
  - injection Hk as <-. done.
  - destruct (IH Hpk' k s Hk) as [Hb Ha]. split; [|done].
    destruct k; simpl in *; done.
Qed.

(** X5.  In a run of any of the four policies the slots fill from the
    left: in every snapshot no slot in use comes after an empty one.  And a
    slot once in use stays in use, though its page may change. *)
Theorem slots_fill_from_the_left (algoName : string) (v : jsval) (c : Z)
    (refs : list Z) :
  knownPolicy algoName → isCapacity v c → (1 ≤ c ≤ 50)%Z → refs ≠ [] →
  ∃ o, simulate algoName v refs = Ok o ∧
       ∀ k s, steps o !! k = Some s →
         packed (frames s) ∧
         ∀ j q, tableBefore (Z.to_nat c) (steps o) k !! j = Some (Some q) →
                ∃ q', frames s !! j = Some (Some q').
Proof.
  intros Hk Hv Hc Hrefs.
  destruct (simulate_tableRun algoName v c refs Hk Hv Hc Hrefs) as (o & Ho & Hwf & Hr).
  exists o. split; [done|]. intros k s Hs.
  destruct (tableRun_packed _ _ _ Hr (packed_fill _) k s Hs) as [Hb Ha].
  split; [done|].
  destruct (tableRun_lookup _ _ _ k s Hr Hs) as [_ Hd].
  destruct (decision_packed _ _ _ _ Hd Hb) as [_ Hkeep].
  intros j q Hj. apply (Hkeep j q). by destruct k.
Qed.

Lemma slots_fill_from_the_left_witness :
  ∃ o, simulate "FIFO" (jsInt 3) [1;2;1;3;2]%Z = Ok o ∧
       ∀ k s, steps o !! k = Some s →
         packed (frames s) ∧
         ∀ j q, tableBefore (Z.to_nat 3) (steps o) k !! j = Some (Some q) →
                ∃ q', frames s !! j = Some (Some q').
Proof.
  apply (slots_fill_from_the_left "FIFO" (jsInt 3) 3 [1;2;1;3;2]%Z).
  - left. reflexivity.
  - exists (inject_Z 3). split; reflexivity.
  - lia.
  - discriminate.
Defined.

(** ** FIFO, LRU and CLOCK do not look ahead *)

Lemma run_prefix {St : Type} {E : Engine St}
    (body : nat → Z → St → result (St * Step)) init refs stf ss n :
  trace body 0 refs init stf ss →
  ∃ stn, ('(st, steps) ← forLoop body 0 (take n refs) init;
          Ok (mkOutput steps (mkSummary (stHits st) (stFaults st))))
         = Ok (mkOutput (take n ss) (mkSummary (stHits stn) (stFaults stn))).
Proof.
  intros Ht. destruct (trace_take body 0 refs init stf ss n Ht) as [stn Hn].
  exists stn. by rewrite (trace_forLoop _ _ _ _ _ _ Hn).
Qed.

(** X6.  FIFO, LRU and CLOCK decide each step from the references up to
    that step alone: the trace of the first [n] references is the first [n]
    records of the trace of the whole sequence. *)
Theorem online_policies_prefix (algoName : string) (v : jsval) (c : Z)
    (refs : list Z) (n : nat) :
  algoName = "FIFO" ∨ algoName = "LRU" ∨ algoName = "CLOCK" →
  isCapacity v c → (1 ≤ c ≤ 50)%Z → refs ≠ [] → 1 ≤ n →
  ∃ o o', simulate algoName v refs = Ok o ∧
          simulate algoName v (take n refs) = Ok o' ∧
          steps o' = take n (steps o).
Proof.
  intros Hk Hv Hc Hrefs Hn.
  rewrite !simulate_checks, (capacityCheck_true v c Hv Hc), (toCount_capacity v c Hv).
  destruct refs as [|r refs']; [done|]. destruct n as [|n]; [lia|].
  set (refs := r :: refs'). change (r :: take n refs') with (take (S n) refs).
  assert (1 ≤ Z.to_nat c) as Hfc by lia.
  destruct Hk as [-> | [-> | ->]]; simpl String.eqb; cbv iota.
  - destruct (simulateFIFO_run (Z.to_nat c) refs Hfc) as (stf & ss & Ht & _ & ->).
    destruct (run_prefix (E := fifoEngine) _ _ _ _ _ (S n) Ht) as [stn Hp].
    eexists _, _. split; [done|]. split; [exact Hp|done].
  - destruct (simulateLRU_run (Z.to_nat c) refs Hfc) as (stf & ss & Ht & _ & ->).
    destruct (run_prefix (E := lruEngine) _ _ _ _ _ (S n) Ht) as [stn Hp].
    eexists _, _. split; [done|]. split; [exact Hp|done].
  - destruct (simulateCLOCK_run (Z.to_nat c) refs Hfc) as (stf & ss & Ht & _ & ->).
    destruct (run_prefix (E := clockEngine) _ _ _ _ _ (S n) Ht) as [stn Hp].
    eexists _, _. split; [done|]. split; [exact Hp|done].
Qed.

Lemma online_policies_prefix_witness :
  ∃ o o', simulate "LRU" (jsInt 2) [1;2;1;3;2]%Z = Ok o ∧
          simulate "LRU" (jsInt 2) (take 3 [1;2;1;3;2]%Z) = Ok o' ∧
          steps o' = take 3 (steps o).
Proof.
  apply (online_policies_prefix "LRU" (jsInt 2) 2 [1;2;1;3;2]%Z 3).
  - right. left. reflexivity.
  - exists (inject_Z 2). split; reflexivity.
  - lia.
  - discriminate.
  - lia.
Defined.

(** ** OPT and the capacity *)

(** The counting invariant of [belady_lead] does not need the two tables to
    be of the same size: the farthest-next-use table may be the larger. *)
Lemma belady_lead_wide (w : list Z) :
  ∀ (S T : list (option Z)) (fO fA d : nat),
    beladyRun w S fO → demandRun w T fA →
    NoDupPages S → length T ≤ length S →
    (∀ n, cnt (take n w) T ≤ cnt (take n w) S + d) →
    fO ≤ fA + d.
Proof.
  induction w as [|p w IH]; intros S T fO fA d HO HA Hnd Hlen Hcnt.
  - inversion HO; subst. lia.
  - inversion HO as [|? ? ? S' bO fO' HsO HrO]; subst.
    inversion HA as [|? ? ? T' bA fA' HsA HrA]; subst.
    pose proof (Hcnt 1) as H1. simpl in H1. rewrite take_0 in H1.
    assert (∀ n, cnt (take n w) T
                 + (if bool_decide (p ∈ take n w) then 0 else cnt [p] T)
                 ≤ cnt (take n w) S
                   + (if bool_decide (p ∈ take n w) then 0 else cnt [p] S) + d)
      as Hc.
    { intros n. specialize (Hcnt (Datatypes.S n)). simpl in Hcnt.
      by rewrite (cnt_cons p (take n w) T), (cnt_cons p (take n w) S) in Hcnt. }
    pose proof (cnt_single_NoDup p S Hnd) as HoccS.
    destruct bO, bA; simpl in HsO, HsA.
    + (* both fault *)
      destruct HsO as (HpS & j & Hj & -> & Hfar).
      destruct HsA as (HpT & jA & HjA & ->).
      enough (fO' ≤ fA' + d) by lia.
      eapply IH; [done|done| | |].
      * by apply NoDupPages_insert.
      * by rewrite !length_insert.
      * intros n. specialize (Hc n).
        rewrite (cnt_single_absent p S HpS), (cnt_single_absent p T HpT) in Hc.
        pose proof (cnt_insert (take n w) S j (Some p) Hj) as HiS.
        pose proof (cnt_insert (take n w) T jA (Some p) HjA) as HiT.
        pose proof (cnt_le_length (take n w) (<[jA := Some p]> T)) as HleT.
        rewrite length_insert in HleT.
        assert (Some p ∈ <[jA := Some p]> T) as HpT'.
        { eapply list_elem_of_lookup_2. by apply list_lookup_insert_eq. }
        simpl in HiS, HiT.
        destruct (inWindow (take n w) (slotAt S j)) eqn:Ev.
        -- rewrite (cnt_all _ S (λ s, Hfar n s Ev)) in HiS.
           destruct (bool_decide (p ∈ take n w)) eqn:Ep; [lia|].
           pose proof (cnt_outsider (take n w) _ (Some p) HpT' Ep) as Hout.
           rewrite length_insert in Hout. lia.
        -- destruct (bool_decide (p ∈ take n w));
             destruct (inWindow (take n w) (slotAt T jA)); lia.
    + (* the farthest-next-use table faults, the other hits *)
      destruct HsO as (HpS & j & Hj & -> & Hfar).
      destruct HsA as (HpT & ->).
      pose proof (cnt_single_resident p T HpT) as HoccT.
      rewrite (cnt_single_absent p S HpS) in H1.
      destruct d as [|d]; [lia|].
      enough (fO' ≤ fA' + d) by lia.
      eapply IH; [done|done| | |].
      * by apply NoDupPages_insert.
      * by rewrite length_insert.
      * intros n. specialize (Hc n).
        rewrite (cnt_single_absent p S HpS) in Hc.
        pose proof (cnt_insert (take n w) S j (Some p) Hj) as HiS.
        pose proof (cnt_le_length (take n w) T) as HleT.
        simpl in HiS.
        destruct (inWindow (take n w) (slotAt S j)) eqn:Ev.
        -- rewrite (cnt_all _ S (λ s, Hfar n s Ev)) in HiS.
           destruct (bool_decide (p ∈ take n w)) eqn:Ep; [lia|].
           pose proof (cnt_outsider (take n w) _ (Some p) HpT Ep) as Hout. lia.
        -- destruct (bool_decide (p ∈ take n w)); lia.
    + (* the farthest-next-use table hits, the other faults *)
      destruct HsO as (HpS & ->).
      destruct HsA as (HpT & jA & HjA & ->).
      enough (fO' ≤ fA' + Datatypes.S d) by lia.
      eapply IH; [done|done|done| |].
      * by rewrite length_insert.
      * intros n. specialize (Hc n).
        rewrite (cnt_single_absent p T HpT) in Hc.
        pose proof (cnt_insert (take n w) T jA (Some p) HjA) as HiT.
        simpl in HiT.
        destruct (bool_decide (p ∈ take n w));
          destruct (inWindow (take n w) (slotAt T jA)); lia.
    + (* both hit *)
      destruct HsO as (HpS & ->). destruct HsA as (HpT & ->).
      pose proof (cnt_single_resident p T HpT) as HoccT.
      enough (fO' ≤ fA' + d) by lia.
      eapply IH; [done|done|done|done|].
      intros n. specialize (Hc n).
      destruct (bool_decide (p ∈ take n w)); lia.
Qed.

(** X7.  OPT never has more faults with more slots: with capacity [c'] it
    has at most the faults that FIFO, LRU, CLOCK and OPT itself have with any
    capacity [c <= c'] on the same references.  (FIFO does not have this
    property.) *)
Theorem opt_monotone_in_capacity (algoName : string) (v v' : jsval) (c c' : Z)
    (refs : list Z) :
  knownPolicy algoName →
  isCapacity v c → isCapacity v' c' → (1 ≤ c ≤ c')%Z → (c' ≤ 50)%Z → refs ≠ [] →
  ∃ o a, simulate "OPT" v' refs = Ok o ∧ simulate algoName v refs = Ok a ∧
         faults (summary o) ≤ faults (summary a).
Proof.
  intros Hk Hv Hv' Hc Hc' Hrefs.
  assert (1 ≤ Z.to_nat c') as Hfc by lia.
  destruct (simulateOPT_belady (Z.to_nat c') refs Hfc) as (o & Ho & Hbel).
  destruct (simulate_run algoName v c refs Hk Hv ltac:(lia) Hrefs) as (a & Ha & Hwf & _).
  exists o, a. split_and!; [|done|].
  - rewrite simulate_checks, (capacityCheck_true v' c' Hv' ltac:(lia)),
      (toCount_capacity v' c' Hv').
    by destruct refs.
  - pose proof (belady_lead_wide refs (fill (Z.to_nat c') None) (fill (Z.to_nat c) None)
                  _ _ 0 Hbel (wf_demand _ _ _ Hwf) (NoDupPages_fill _)) as Hle.
    unfold fill in Hle. rewrite !length_replicate in Hle.
    specialize (Hle ltac:(lia)).
    assert (∀ n u, cnt u (replicate n None) = 0) as Hz.
    { intros n u. induction n as [|n IH]; [done|]. simpl. done. }
    assert (∀ n, cnt (take n refs) (replicate (Z.to_nat c) None)
                 ≤ cnt (take n refs) (replicate (Z.to_nat c') None) + 0) as Hcnt.
    { intros n. rewrite !Hz. lia. }
    specialize (Hle Hcnt). lia.
Qed.

Lemma opt_monotone_in_capacity_witness :
  ∃ o a, simulate "OPT" (jsInt 4) [1;2;3;4;1;2;5;1;2;3;4;5]%Z = Ok o ∧
         simulate "FIFO" (jsInt 3) [1;2;3;4;1;2;5;1;2;3;4;5]%Z = Ok a ∧
         faults (summary o) ≤ faults (summary a).
Proof.
  apply (opt_monotone_in_capacity "FIFO" (jsInt 3) (jsInt 4) 3 4
           [1;2;3;4;1;2;5;1;2;3;4;5]%Z).
  - left. reflexivity.
  - exists (inject_Z 3). split; reflexivity.
  - exists (inject_Z 4). split; reflexivity.
  - lia.
  - lia.
  - discriminate.
Defined.

(** ** LRU evicts the least recently used page *)

Lemma lruStamps_update refs i p (lu lu' : gmap Z nat) fr hits faults fr' hits' faults' :
  lruStamps refs i (mkLru fr lu hits faults) →
  refs !! i = Some p →
  (∀ q t, lu' !! q = Some t → q ≠ p → lu !! q = Some t) →
  lruStamps refs (S i) (mkLru fr' (<[p := i]> lu') hits' faults').
Proof.
  intros Hst Hp Hsub q t. simpl.
  destruct (decide (q = p)) as [->|Hne].
  - rewrite lookup_insert_eq. intros [= <-]. split_and!; [lia|done|intros; lia].
  - rewrite lookup_insert_ne by done. intros Hq.
    destruct (Hst q t (Hsub q t Hq Hne)) as (Hlt & Hat & Hlast).
    split_and!; [lia|done|].
    intros m Hm. destruct (decide (m = i)) as [->|Hmi]; [congruence|].
    apply Hlast. lia.
Qed.

Lemma lruBody_stamps framesCount refs i p st st' s :
  lruInv framesCount st → lruStamps refs i st → refs !! i = Some p →
  lruBody framesCount i p st = Ok (st', s) →
  lruStamps refs (S i) st'.
Proof.
  intros (Hlen & Hfc & _ & _) Hst Hp. destruct st as [fr lu hits faults].
  unfold lruBody, lruPush. simpl.
  destruct (indexOf (Some p) fr) as [h|].
  { intros Hb. injection Hb as <- <-. by eapply lruStamps_update. }
  destruct (indexOf None fr) as [e|].
  { intros Hb. injection Hb as <- <-. by eapply lruStamps_update. }
  destruct (lruVictim framesCount fr lu) as [[vi vp] m].
  intros Hb. injection Hb as <- <-.
  eapply lruStamps_update; [exact Hst|done|].
  intros q t Hq _. destruct vp as [w|]; simpl in Hq; [|done].
  by apply lookup_delete_Some in Hq as [_ ?].
Qed.

Lemma lruBody_evicts_oldest framesCount refs i p st st' s w :
  lruInv framesCount st → lruStamps refs i st →
  lruBody framesCount i p st = Ok (st', s) → replaced s = Some w →
  ∃ tw, tw < i ∧ refs !! tw = Some w ∧
        (∀ m, tw < m < i → refs !! m ≠ Some w) ∧
        ∀ q, Some q ∈ lruFrames st → q ≠ w →
             ∃ tq, tw < tq < i ∧ refs !! tq = Some q.
Proof.
  intros (Hlen & Hfc & Hnd & Htr) Hst. unfold lruBody, lruPush.
  destruct (indexOf (Some p) (lruFrames st)) as [h|].
  { intros Hb. injection Hb as <- <-. simpl. done. }
  destruct (indexOf None (lruFrames st)) as [e|] eqn:Ee.
  { intros Hb. injection Hb as <- <-. simpl. done. }
  destruct (lruVictim_spec framesCount (lruFrames st) (lruLastUsed st) Hfc)
    as (vi & -> & Hvi & Hmin & _).
  destruct (full_table_slot (lruFrames st) vi Ee ltac:(lia)) as (v0 & Hat & Hsl).
  rewrite Hsl in Hmin |- *. intros Hb. injection Hb as <- <-. simpl.
  intros [= ->].
  assert (is_Some (lruLastUsed st !! w)) as [tw Htw].
  { apply Htr. by eapply list_elem_of_lookup_2. }
  destruct (Hst w tw Htw) as (Hlt & Hrw & Hlast).
  exists tw. split_and!; [done|done|done|].
  intros q Hq Hne.
  assert (is_Some (lruLastUsed st !! q)) as [tq Htq] by by apply Htr.
  destruct (Hst q tq Htq) as (Hltq & Hrq & _).
  apply list_elem_of_lookup in Hq as [fi Hfi].
  pose proof (lookup_lt_Some _ _ _ Hfi) as Hfil.
  specialize (Hmin fi ltac:(lia)).
  rewrite (slotAt_lookup _ _ _ Hfi) in Hmin. simpl in Hmin.
  rewrite Htq, Htw in Hmin. simpl in Hmin. apply Z.ltb_ge in Hmin.
  exists tq. split_and!; [|done|done].
  destruct (decide (tq = tw)) as [->|?]; [congruence|lia].
Qed.

Lemma lruRun_evicts_oldest framesCount refs i rest st stf ss :
  trace (lruBody framesCount) i rest st stf ss →
  drop i refs = rest → lruInv framesCount st → lruStamps refs i st →
  ∀ k s w, ss !! k = Some s → replaced s = Some w →
    ∃ tw, tw < i + k ∧ refs !! tw = Some w ∧
          (∀ m, tw < m < i + k → refs !! m ≠ Some w) ∧
          ∀ q, Some q ∈ (match k with
                         | 0 => lruFrames st
                         | S k' => default [] (frames <$> ss !! k')
                         end) →
               q ≠ w → ∃ tq, tw < tq < i + k ∧ refs !! tq = Some q.
Proof.
  induction 1 as [|i p rest st st' s0 stf ss Hb Hs _ IH];
    intros Hdrop HI Hst k s w Hk Hw; [done|].
  assert (refs !! i = Some p) as Hp.
  { pose proof (lookup_drop refs i 0) as Hl.
    rewrite Hdrop, Nat.add_0_r in Hl. by rewrite <- Hl. }
  destruct k as [|k]; simpl in Hk.
  - injection Hk as <-. rewrite Nat.add_0_r.
    by eapply lruBody_evicts_oldest.
  - destruct (lruBody_ok framesCount i p st HI) as (st2 & s2 & Hb2 & HI2 & _).
    rewrite Hb in Hb2. injection Hb2 as <- <-.
    assert (drop (S i) refs = rest) as Hdrop'.
    { replace (S i) with (i + 1) by lia. by rewrite <- drop_drop, Hdrop. }
    pose proof (lruBody_stamps _ _ _ _ _ _ _ HI Hst Hp Hb) as Hst'.
    destruct (IH Hdrop' HI2 Hst' k s w Hk Hw) as (tw & H1 & H2 & H3 & H4).
    replace (S i + k) with (i + S k) in * by lia.
    exists tw. split_and!; [done|done|done|].
    intros q Hq Hne. apply H4; [|done].
    destruct k as [|k]; simpl in *; [|done].
    destruct Hs as [_ _ Hfr _ _ _ _]. simpl in Hfr. by rewrite <- Hfr.
Qed.

(** X8.  When the LRU run evicts a page at step [k], that page is the
    least recently used one: its latest reference before [k] is earlier
    than a reference, before [k], to every other page in the table. *)
Theorem lru_evicts_least_recently_used (v : jsval) (c : Z) (refs : list Z) :
  isCapacity v c → (1 ≤ c ≤ 50)%Z → refs ≠ [] →
  ∃ o, simulate "LRU" v refs = Ok o ∧
       ∀ k s w, steps o !! k = Some s → replaced s = Some w →
         ∃ tw, tw < k ∧ refs !! tw = Some w ∧
               (∀ m, tw < m < k → refs !! m ≠ Some w) ∧
               ∀ q, Some q ∈ tableBefore (Z.to_nat c) (steps o) k → q ≠ w →
                    ∃ tq, tw < tq < k ∧ refs !! tq = Some q.
Proof.
  intros Hv Hc Hrefs.
  rewrite simulate_checks, (capacityCheck_true v c Hv Hc), (toCount_capacity v c Hv).
  destruct refs as [|r refs']; [done|]. set (refs := r :: refs').
  assert (1 ≤ Z.to_nat c) as Hfc by lia.
  simpl String.eqb. cbv iota.
  destruct (simulateLRU_run (Z.to_nat c) refs Hfc) as (stf & ss & Ht & _ & ->).
  eexists. split; [done|]. simpl. intros k s w Hs Hw.
  assert (lruStamps refs 0 (lruInit (Z.to_nat c))) as Hst0.
  { intros q t Hq. simpl in Hq. by rewrite lookup_empty in Hq. }
  destruct (lruRun_evicts_oldest _ refs _ _ _ _ _ Ht eq_refl
              (lruInv_init _ Hfc) Hst0 k s w Hs Hw) as (tw & H1 & H2 & H3 & H4).
  exists tw. split_and!; [done|done|done|].
  intros q Hq Hne. apply H4; [|done]. by destruct k.
Qed.

Lemma lru_evicts_least_recently_used_witness :
  ∃ o, simulate "LRU" (jsInt 2) [1;2;1;3;2]%Z = Ok o ∧
       ∀ k s w, steps o !! k = Some s → replaced s = Some w →
         ∃ tw, tw < k ∧ [1;2;1;3;2]%Z !! tw = Some w ∧
               (∀ m, tw < m < k → [1;2;1;3;2]%Z !! m ≠ Some w) ∧
               ∀ q, Some q ∈ tableBefore (Z.to_nat 2) (steps o) k → q ≠ w →
                    ∃ tq, tw < tq < k ∧ [1;2;1;3;2]%Z !! tq = Some q.
Proof.
  apply (lru_evicts_least_recently_used (jsInt 2) 2 [1;2;1;3;2]%Z).
  - exists (inject_Z 2). split; reflexivity.
  - lia.
  - discriminate.
Defined.

(** ** FIFO evicts the page that has been in the table longest *)

Lemma mod_shift_ne n k d : 0 < d < n → (k + d) mod n ≠ k mod n.
Proof.
  intros Hd Heq.
  pose proof (Nat.div_mod_eq (k + d) n) as H1.
  pose proof (Nat.div_mod_eq k n) as H2.
  rewrite Heq in H1.
  generalize dependent ((k + d) / n). generalize dependent (k / n).
  generalize dependent (k mod n). intros r _ q2 H2 q1 H1.
  destruct (le_lt_dec q1 q2) as [Hle|Hlt].
  - pose proof (Nat.mul_le_mono_l q1 q2 n Hle). lia.
  - pose proof (Nat.mul_le_mono_l (S q2) q1 n Hlt). lia.
Qed.

Lemma faultPages_cons s ss :
  faultPages (s :: ss) = ((if fault s then [page s] else []) ++ faultPages ss)%list.
Proof.
  unfold faultPages. rewrite filter_cons.
  destruct (fault s); case_decide; simpl; done.
Qed.

Lemma fifoRing_init framesCount :
  1 ≤ framesCount → fifoRing framesCount [] (fifoInit framesCount).
Proof.
  intros Hfc. unfold fifoRing, fifoInit, fill. simpl.
  split_and!; [apply length_replicate|done|intros; lia| |intros; lia|].
  - intros j _ Hj. by apply lookup_replicate_2.
  - destruct (Nat.ltb_spec 0 framesCount); [done|lia].
Qed.

Lemma fifoBody_ring framesCount fs i p st st' s :
  fifoRing framesCount fs st → fifoBody framesCount i p st = Ok (st', s) →
  fifoRing framesCount (fs ++ (if fault s then [p] else []))%list st' ∧
  ∀ w, replaced s = Some w →
       framesCount ≤ length fs ∧ fs !! (length fs - framesCount) = Some w ∧
       replacedIndex s = Some (Z.of_nat (length fs mod framesCount)).
Proof.
  intros (Hlen & Hfc & Hring & Hfree & Hfull & Hptr).
  unfold fifoBody, fifoPush.
  destruct (indexOf (Some p) (fifoFrames st)) as [h|].
  { intros Hb. injection Hb as <- <-. simpl. rewrite app_nil_r.
    split; [by split_and!|done]. }
  destruct (indexOf None (fifoFrames st)) as [e|] eqn:Ee.
  - intros Hb. injection Hb as <- <-. simpl. split; [|done].
    assert (length fs < framesCount) as HF.
    { destruct (decide (length fs < framesCount)); [done|].
      specialize (Hfull ltac:(lia)). done. }
    apply indexOf_Some in Ee as (Hat & Hlt & Hlow).
    assert (e = length fs) as ->.
    { destruct (decide (e < length fs)) as [He|He].
      - specialize (Hring e He ltac:(lia)). rewrite Nat.mod_small in Hring by lia.
        rewrite Hring in Hat. injection Hat as Hat.
        apply lookup_ge_None in Hat. lia.
      - destruct (decide (length fs < e)) as [He'|He']; [|lia].
        exfalso. apply (Hlow (length fs) He'). apply Hfree; lia. }
    unfold fifoRing. simpl. rewrite length_app, length_insert. simpl.
    split_and!; [done|done| | | |].
    + intros k Hk Hk'. rewrite Nat.mod_small by lia.
      destruct (decide (k = length fs)) as [->|Hne].
      * rewrite list_lookup_insert_eq by lia.
        by rewrite lookup_app_r, Nat.sub_diag by lia.
      * rewrite list_lookup_insert_ne by lia.
        rewrite lookup_app_l by lia.
        specialize (Hring k ltac:(lia) ltac:(lia)).
        by rewrite Nat.mod_small in Hring by lia.
    + intros j Hj Hj'. rewrite list_lookup_insert_ne by lia. apply Hfree; lia.
    + intros Hge. apply indexOf_None. intros Hin.
      apply list_elem_of_lookup in Hin as [j Hj].
      pose proof (lookup_lt_Some _ _ _ Hj) as Hjl. rewrite length_insert in Hjl.
      destruct (decide (j = length fs)) as [->|Hne].
      * rewrite list_lookup_insert_eq in Hj by lia. done.
      * rewrite list_lookup_insert_ne in Hj by lia.
        specialize (Hring j ltac:(lia) ltac:(lia)).
        rewrite Nat.mod_small in Hring by lia.
        rewrite Hring in Hj. injection Hj as Hj.
        apply lookup_ge_None in Hj. lia.
    + rewrite Hptr. destruct (Nat.ltb_spec (length fs) framesCount); [|lia].
      destruct (Nat.ltb_spec (length fs + 1) framesCount); [done|].
      replace (length fs + 1) with framesCount by lia.
      by rewrite Nat.Div0.mod_same.
  - assert (framesCount ≤ length fs) as HF.
    { destruct (decide (framesCount ≤ length fs)); [done|]. exfalso.
      apply indexOf_None in Ee. apply Ee.
      eapply list_elem_of_lookup_2. apply (Hfree (length fs)); lia. }
    assert (fifoPointer st = length fs mod framesCount) as Hp.
    { rewrite Hptr. destruct (Nat.ltb_spec (length fs) framesCount); [lia|done]. }
    assert (length fs mod framesCount < framesCount) as Hm
      by (apply Nat.mod_upper_bound; lia).
    assert (fifoFrames st !! (length fs mod framesCount)
            = Some (fs !! (length fs - framesCount))) as Hvic.
    { specialize (Hring (length fs - framesCount) ltac:(lia) ltac:(lia)).
      replace (length fs mod framesCount)
        with ((length fs - framesCount) mod framesCount); [done|].
      replace (length fs) with (length fs - framesCount + 1 * framesCount) at 2 by lia.
      by rewrite Nat.Div0.mod_add. }
    rewrite Hp, (slotAt_lookup _ _ _ Hvic).
    intros Hb. injection Hb as <- <-. simpl. split; [|by intros w ->].
    unfold fifoRing. simpl. rewrite length_app, length_insert. simpl.
    split_and!; [done|done| | | |].
    + intros k Hk Hk'.
      destruct (decide (k = length fs)) as [->|Hne].
      * rewrite list_lookup_insert_eq by lia.
        by rewrite lookup_app_r, Nat.sub_diag by lia.
      * rewrite list_lookup_insert_ne.
        2:{ replace (length fs) with (k + (length fs - k)) at 1 by lia.
            apply mod_shift_ne. lia. }
        rewrite lookup_app_l by lia. apply Hring; lia.
    + intros j Hj Hj'. lia.
    + intros _. apply indexOf_None. intros Hin.
      apply elem_of_insert_slot in Hin; [|lia].
      destruct Hin as [?|(k & _ & Hk)]; [done|].
      apply indexOf_None in Ee. apply Ee. by eapply list_elem_of_lookup_2.
    + destruct (Nat.ltb_spec (length fs + 1) framesCount); [lia|].
      by rewrite Nat.Div0.add_mod_idemp_l.
Qed.

Lemma fifoRun_ring framesCount i rest st stf ss :
  trace (fifoBody framesCount) i rest st stf ss →
  ∀ fs, fifoRing framesCount fs st →
  ∀ k s, ss !! k = Some s →
    let before := (fs ++ faultPages (take k ss))%list in
    let after := (fs ++ faultPages (take (S k) ss))%list in
    (∀ w, replaced s = Some w →
          framesCount ≤ length before ∧
          before !! (length before - framesCount) = Some w ∧
          replacedIndex s = Some (Z.of_nat (length before mod framesCount))) ∧
    (∀ m, m < length after → length after ≤ m + framesCount →
          frames s !! (m mod framesCount) = Some (after !! m)) ∧
    (∀ j, length after ≤ j → j < framesCount → frames s !! j = Some None).
Proof.
  induction 1 as [|i p rest st st' s0 stf ss Hb Hs _ IH];
    intros fs Hring k s Hk; [done|].
  destruct (fifoBody_ring _ _ _ _ _ _ _ Hring Hb) as [Hring' Hev].
  destruct Hs as [_ Hp Hfr _ _ _ _]. simpl in Hfr.
  destruct k as [|k]; simpl in Hk.
  - injection Hk as <-. simpl take. rewrite take_0.
    rewrite faultPages_cons, Hp. unfold faultPages at 1 2. simpl filter.
    simpl fmap. rewrite !app_nil_r.
    destruct Hring' as (_ & _ & H2 & H3 & _). rewrite Hfr.
    split_and!; [exact Hev|exact H2|exact H3].
  - specialize (IH _ Hring' k s Hk). simpl in IH.
    simpl take. rewrite !faultPages_cons, Hp, !app_assoc. exact IH.
Qed.

(** X9.  The FIFO table is a ring over the faults: the page of the [m]-th
    fault goes into slot [m mod capacity], so after every step the table
    holds the pages of the last [capacity] faults, and a step that evicts
    removes the page whose fault lies exactly [capacity] faults back, the
    page that has been in the table longest. *)
Theorem fifo_evicts_oldest_arrival (v : jsval) (c : Z) (refs : list Z) :
  isCapacity v c → (1 ≤ c ≤ 50)%Z → refs ≠ [] →
  ∃ o, simulate "FIFO" v refs = Ok o ∧
       ∀ k s, steps o !! k = Some s →
         let before := faultPages (take k (steps o)) in
         let after := faultPages (take (S k) (steps o)) in
         (∀ w, replaced s = Some w →
               Z.to_nat c ≤ length before ∧
               before !! (length before - Z.to_nat c) = Some w ∧
               replacedIndex s = Some (Z.of_nat (length before mod Z.to_nat c))) ∧
         (∀ m, m < length after → length after ≤ m + Z.to_nat c →
               frames s !! (m mod Z.to_nat c) = Some (after !! m)) ∧
         (∀ j, length after ≤ j → j < Z.to_nat c → frames s !! j = Some None).
Proof.
  intros Hv Hc Hrefs.
  rewrite simulate_checks, (capacityCheck_true v c Hv Hc), (toCount_capacity v c Hv).
  destruct refs as [|r refs']; [done|]. set (refs := r :: refs').
  assert (1 ≤ Z.to_nat c) as Hfc by lia.
  simpl String.eqb. cbv iota.
  destruct (simulateFIFO_run (Z.to_nat c) refs Hfc) as (stf & ss & Ht & _ & ->).
  eexists. split; [done|]. simpl steps. intros k s Hs.
  exact (fifoRun_ring _ _ _ _ _ _ Ht [] (fifoRing_init _ Hfc) k s Hs).
Qed.

Lemma fifo_evicts_oldest_arrival_witness :
  ∃ o, simulate "FIFO" (jsInt 2) [1;2;1;3;2]%Z = Ok o ∧
       ∀ k s, steps o !! k = Some s →
         let before := faultPages (take k (steps o)) in
         let after := faultPages (take (S k) (steps o)) in
         (∀ w, replaced s = Some w →
               Z.to_nat 2 ≤ length before ∧
               before !! (length before - Z.to_nat 2) = Some w ∧
               replacedIndex s = Some (Z.of_nat (length before mod Z.to_nat 2))) ∧
         (∀ m, m < length after → length after ≤ m + Z.to_nat 2 →
               frames s !! (m mod Z.to_nat 2) = Some (after !! m)) ∧
         (∀ j, length after ≤ j → j < Z.to_nat 2 → frames s !! j = Some None).
Proof.
  apply (fifo_evicts_oldest_arrival (jsInt 2) 2 [1;2;1;3;2]%Z).
  - exists (inject_Z 2). split; reflexivity.
  - lia.
  - discriminate.
Defined.

(** ** The reference bits and the hand that CLOCK records *)

Lemma bits01_insert (bits : list Z) (j : nat) (b : Z) :
  (b = 0%Z ∨ b = 1%Z) →
  (∀ i x, bits !! i = Some x → x = 0%Z ∨ x = 1%Z) →
  ∀ i x, <[j := b]> bits !! i = Some x → x = 0%Z ∨ x = 1%Z.
Proof.
  intros Hb Hall i x Hi.
  apply list_lookup_insert_Some in Hi as [(_ & <- & _)|[_ Hi]]; [done|eauto].
Qed.

Lemma clearRun_bits01 framesCount bits hand k :
  (∀ i x, bits !! i = Some x → x = 0%Z ∨ x = 1%Z) →
  ∀ i x, clearRun framesCount bits hand k !! i = Some x → x = 0%Z ∨ x = 1%Z.
Proof.
  revert bits hand. induction k as [|k IH]; intros bits hand Hall; [done|].
  cbn [clearRun]. apply IH. apply bits01_insert; [by left|done].
Qed.

Lemma clockBody_meta framesCount i p st st' s :
  clockInv framesCount st → clockBits st →
  clockBody framesCount i p st = Ok (st', s) →
  clockBits st' ∧
  meta s = Some (mkMeta (clockRefBits st') (clockHand st')) ∧
  frames s = clockFrames st' ∧
  (∃ j, clockFrames st' !! j = Some (Some p) ∧ clockRefBits st' !! j = Some 1%Z) ∧
  (replacedIndex s = None → clockHand st' = clockHand st) ∧
  (∀ vi, replacedIndex s = Some (Z.of_nat vi) →
         clockHand st' = (vi + 1) mod framesCount).
Proof.
  intros (Hlen & Hbl & Hh) [H01 Hzero]. unfold clockBody, clockPush.
  destruct (indexOf (Some p) (clockFrames st)) as [h|] eqn:Eh.
  { apply indexOf_Some in Eh as (Hat & Hlt & _).
    intros Hb. injection Hb as <- <-. simpl.
    split_and!; [split; simpl|done|done| |done|done].
    - apply bits01_insert; [by right|done].
    - intros j Hj. rewrite list_lookup_insert_ne; [by apply Hzero|].
      intros ->. congruence.
    - exists h. split; [done|]. apply list_lookup_insert_eq. lia. }
  destruct (indexOf None (clockFrames st)) as [e|] eqn:Ee.
  { apply indexOf_Some in Ee as (Hat & Hlt & _).
    intros Hb. injection Hb as <- <-. simpl.
    split_and!; [split; simpl|done|done| |done|done].
    - apply bits01_insert; [by right|done].
    - intros j Hj. destruct (decide (j = e)) as [->|Hne].
      + rewrite list_lookup_insert_eq in Hj by done. done.
      + rewrite list_lookup_insert_ne in Hj by done.
        rewrite list_lookup_insert_ne by done. by apply Hzero.
    - exists e. split; apply list_lookup_insert_eq; lia. }
  destruct (clockScan_spec framesCount p (clockFrames st) (clockRefBits st)
              (clockHand st) Hbl Hh) as (k & Hk & _ & _ & ->).
  assert ((clockHand st + k) mod framesCount < framesCount) as Hv
    by (apply Nat.mod_upper_bound; lia).
  simpl. intros Hb. injection Hb as <- <-. simpl.
  split_and!; [split; simpl|done|done| |done|].
  - apply bits01_insert; [by right|]. by apply clearRun_bits01.
  - intros j Hj. exfalso. apply indexOf_None in Ee. apply Ee.
    apply list_lookup_insert_Some in Hj as [(_ & ? & _)|[_ Hj]]; [done|].
    by eapply list_elem_of_lookup_2.
  - exists ((clockHand st + k) mod framesCount).
    split; apply list_lookup_insert_eq; [lia|].
    by rewrite clearRun_length, Hbl.
  - intros vi [= Hvi]. apply Nat2Z.inj in Hvi. by rewrite <- Hvi.
Qed.

Lemma clockBits_init framesCount : clockBits (clockInit framesCount).
Proof.
  unfold clockBits, clockInit, fill. simpl. split.
  - intros j b Hj. apply lookup_replicate in Hj as [-> _]. by left.
  - intros j Hj. apply lookup_replicate in Hj as [_ Hlt].
    by apply lookup_replicate_2.
Qed.

Lemma clockRun_meta framesCount i rest st stf ss :
  trace (clockBody framesCount) i rest st stf ss →
  clockInv framesCount st → clockBits st →
  ∀ k s, ss !! k = Some s →
    ∃ m, meta s = Some m ∧
         length (metaRefBits m) = framesCount ∧ metaHand m < framesCount ∧
         (∀ j b, metaRefBits m !! j = Some b → b = 0%Z ∨ b = 1%Z) ∧
         (∀ j, frames s !! j = Some None → metaRefBits m !! j = Some 0%Z) ∧
         (∃ j, frames s !! j = Some (Some (page s)) ∧
               metaRefBits m !! j = Some 1%Z) ∧
         (replacedIndex s = None →
            metaHand m = match k with
                         | 0 => clockHand st
                         | S k' => default 0 (handOf <$> ss !! k')
                         end) ∧
         (∀ vi, replacedIndex s = Some (Z.of_nat vi) →
                metaHand m = (vi + 1) mod framesCount).
Proof.
  induction 1 as [|i p rest st st' s0 stf ss Hb Hs _ IH];
    intros HI Hbits k s Hk; [done|].
  destruct (clockBody_ok framesCount i p st HI) as (st2 & s2 & Hb2 & HI2 & _).
  rewrite Hb in Hb2. injection Hb2 as <- <-.
  destruct (clockBody_meta _ _ _ _ _ _ HI Hbits Hb)
    as (Hbits' & Hm & Hfr & Hone & Hkeep & Hmove).
  destruct Hs as [_ Hp _ _ _ _ _].
  destruct k as [|k]; simpl in Hk.
  - injection Hk as <-. destruct HI2 as (Hl' & Hbl' & Hh'), Hbits' as [H01 Hz].
    eexists. split; [exact Hm|]. simpl. rewrite Hfr, Hp.
    by split_and!.
  - destruct (IH HI2 Hbits' k s Hk) as (m & H1 & H2 & H3 & H4 & H5 & H6 & H7 & H8).
    exists m. split_and!; [done..| |done].
    intros Hri. rewrite (H7 Hri). destruct k as [|k]; simpl; [|done].
    unfold handOf. by rewrite Hm.
Qed.

(** X10.  Every record of a CLOCK run carries the reference bits and the
    hand as they stand after the step: one bit per slot, each 0 or 1, the
    bit of an empty slot 0 and the bit of the slot holding the referenced
    page 1; the hand is a slot index, stays where it was on a step without
    eviction and is one past the evicted slot, modulo the capacity, on a step
    with one. *)
Theorem clock_records_bits_and_hand (v : jsval) (c : Z) (refs : list Z) :
  isCapacity v c → (1 ≤ c ≤ 50)%Z → refs ≠ [] →
  ∃ o, simulate "CLOCK" v refs = Ok o ∧
       ∀ k s, steps o !! k = Some s →
         ∃ m, meta s = Some m ∧
              length (metaRefBits m) = Z.to_nat c ∧ metaHand m < Z.to_nat c ∧
              (∀ j b, metaRefBits m !! j = Some b → b = 0%Z ∨ b = 1%Z) ∧
              (∀ j, frames s !! j = Some None → metaRefBits m !! j = Some 0%Z) ∧
              (∃ j, frames s !! j = Some (Some (page s)) ∧
                    metaRefBits m !! j = Some 1%Z) ∧
              (replacedIndex s = None →
                 metaHand m = match k with
                              | 0 => 0
                              | S k' => default 0 (handOf <$> steps o !! k')
                              end) ∧
              (∀ vi, replacedIndex s = Some (Z.of_nat vi) →
                     metaHand m = (vi + 1) mod Z.to_nat c).
Proof.
  intros Hv Hc Hrefs.
  rewrite simulate_checks, (capacityCheck_true v c Hv Hc), (toCount_capacity v c Hv).
  destruct refs as [|r refs']; [done|]. set (refs := r :: refs').
  assert (1 ≤ Z.to_nat c) as Hfc by lia.
  simpl String.eqb. cbv iota.
  destruct (simulateCLOCK_run (Z.to_nat c) refs Hfc) as (stf & ss & Ht & _ & ->).
  eexists. split; [done|]. simpl steps. intros k s Hs.
  exact (clockRun_meta _ _ _ _ _ _ Ht (clockInv_init _ Hfc) (clockBits_init _) k s Hs).
Qed.

Lemma clock_records_bits_and_hand_witness :
  ∃ o, simulate "CLOCK" (jsInt 2) [1;2;1;3;2]%Z = Ok o ∧
       ∀ k s, steps o !! k = Some s →
         ∃ m, meta s = Some m ∧
              length (metaRefBits m) = Z.to_nat 2 ∧ metaHand m < Z.to_nat 2 ∧
              (∀ j b, metaRefBits m !! j = Some b → b = 0%Z ∨ b = 1%Z) ∧
              (∀ j, frames s !! j = Some None → metaRefBits m !! j = Some 0%Z) ∧
              (∃ j, frames s !! j = Some (Some (page s)) ∧
                    metaRefBits m !! j = Some 1%Z) ∧
              (replacedIndex s = None →
                 metaHand m = match k with
                              | 0 => 0
                              | S k' => default 0 (handOf <$> steps o !! k')
                              end) ∧
              (∀ vi, replacedIndex s = Some (Z.of_nat vi) →
                     metaHand m = (vi + 1) mod Z.to_nat 2).
Proof.
  apply (clock_records_bits_and_hand (jsInt 2) 2 [1;2;1;3;2]%Z).
  - exists (inject_Z 2). split; reflexivity.
  - lia.
  - discriminate.
Defined.

(** ** The outcomes of the dispatcher *)

(** X11.  [simulate] returns a result exactly when the capacity is an
    integer from 1 to 50, the reference sequence is not empty and the policy
    name is one of the four.  In every other case it throws one of its three
    validation errors: the safety break of the CLOCK scan is never thrown,
    and no call runs on. *)
Theorem simulate_succeeds_iff_valid (algoName : string) (v : jsval)
    (refs : list Z) :
  ((∃ o, simulate algoName v refs = Ok o) ↔
   validCapacity v ∧ refs ≠ [] ∧ knownPolicy algoName) ∧
  simulate algoName v refs ≠ OutOfFuel ∧
  (∀ msg, simulate algoName v refs = Throw msg →
          msg = msgFrames ∨ msg = msgEmpty ∨ msg = msgUnknown algoName).
Proof.
  destruct (capacityCheck v) eqn:Ecap.
  - pose proof (capacityCheck_valid v Ecap) as Hval.
    destruct Hval as (c & Hcap & Hc).
    destruct refs as [|r refs'].
    { rewrite simulate_checks, Ecap. split_and!; [|done|].
      - split; [by intros [o ?]|by intros (_ & ? & _)].
      - intros msg [= <-]. auto. }
    destruct (decide (knownPolicy algoName)) as [Hk|Hk].
    + destruct (simulate_run algoName v c (r :: refs') Hk Hcap Hc ltac:(done))
        as (o & -> & _).
      split_and!; [|done|done].
      split; [|by eexists]. intros _. split_and!; [by exists c|done|done].
    + assert (String.eqb algoName "FIFO" = false ∧ String.eqb algoName "LRU" = false ∧
              String.eqb algoName "OPT" = false ∧ String.eqb algoName "CLOCK" = false)
        as (E1 & E2 & E3 & E4).
      { unfold knownPolicy in Hk.
        split_and!; apply String.eqb_neq; intros ->; apply Hk; auto. }
      rewrite simulate_checks, Ecap, E1, E2, E3, E4. split_and!; [|done|].
      * split; [by intros [o ?]|by intros (_ & _ & ?)].
      * intros msg [= <-]. auto.
  - rewrite simulate_checks, Ecap. split_and!; [|done|].
    + split; [by intros [o ?]|]. intros ((c & Hcap & Hc) & _).
      by rewrite (capacityCheck_true v c Hcap Hc) in Ecap.
    + intros msg [= <-]. auto.
Qed.

(** ** The capacity that reaches [simulate] from the frames field *)

Lemma isCapacity_isInteger v z : isCapacity v z → Number_isInteger v = true.
Proof.
  intros (q & -> & Hq). simpl.
  rewrite (isCapacity_num q z Hq), Z.rem_mul by lia. done.
Qed.

Lemma isInteger_isCapacity q :
  Number_isInteger (JsFinite q) = true → ∃ z, isCapacity (JsFinite q) z.
Proof.
  simpl. intros Hi. apply Z.eqb_eq in Hi.
  apply Z.rem_divide in Hi as [z Hz]; [|lia].
  exists z, q. split; [done|]. unfold Qeq. simpl. lia.
Qed.

Lemma Qle_bool_int_l a q z :
  (q == inject_Z z)%Q → Qle_bool (inject_Z a) q = (a <=? z)%Z.
Proof.
  intros Hq. destruct (Z.leb_spec a z) as [H|H].
  - apply Qle_bool_iff. rewrite Hq. by rewrite <- Zle_Qle.
  - destruct (Qle_bool (inject_Z a) q) eqn:E; [|done].
    apply Qle_bool_iff in E. rewrite Hq in E. rewrite <- Zle_Qle in E. lia.
Qed.

Lemma clamp_capacity q z :
  (q == inject_Z z)%Q →
  (clamp q 1 50 == inject_Z (Z.max 1 (Z.min 50 z)))%Q ∧
  clamp (clamp q 1 50) 1 50 = clamp q 1 50.
Proof.
  intros Hq. unfold clamp, mathMin, mathMax.
  change (50%Q) with (inject_Z 50). change (1%Q) with (inject_Z 1).
  rewrite (Qle_bool_int_l 50 q z Hq).
  destruct (Z.leb_spec 50 z) as [H50|H50].
  - replace (Z.max 1 (Z.min 50 z)) with 50%Z by lia. split; reflexivity.
  - rewrite (Qle_bool_int_l 1 q z Hq).
    destruct (Z.leb_spec 1 z) as [H1|H1].
    + replace (Z.max 1 (Z.min 50 z)) with z by lia. split; [done|].
      rewrite (Qle_bool_int_l 50 q z Hq). destruct (Z.leb_spec 50 z); [lia|].
      rewrite (Qle_bool_int_l 1 q z Hq). destruct (Z.leb_spec 1 z); [done|lia].
    + replace (Z.max 1 (Z.min 50 z)) with 1%Z by lia. split; reflexivity.
Qed.

(** X12.  [parseFramesCount] throws its own error exactly when the number
    read from the frames field is not an integer.  For an integer [z] it
    returns [z] forced into the range 1 to 50, writes that back into the
    field, and the result always passes [simulate]'s capacity check; read
    again from the field it has written, it returns the same value. *)
Theorem parseFramesCount_clamps (n : jsval) :
  ((¬ ∃ z, isCapacity n z) → parseFramesCount n = Throw msgFramesInteger) ∧
  (∀ z, isCapacity n z →
     ∃ v, parseFramesCount n = Ok (v, v) ∧
          isCapacity v (Z.max 1 (Z.min 50 z)) ∧
          validCapacity v ∧ capacityCheck v = true ∧
          parseFramesCount v = Ok (v, v)).
Proof.
  split.
  - intros Hn. unfold parseFramesCount. destruct n as [q|]; [|done].
    destruct (Number_isInteger (JsFinite q)) eqn:Ei; [|done].
    exfalso. by apply Hn, isInteger_isCapacity.
  - intros z Hz. pose proof (isCapacity_isInteger n z Hz) as Hi.
    destruct Hz as (q & -> & Hq).
    destruct (clamp_capacity q z Hq) as [Hc Hidem].
    assert (isCapacity (JsFinite (clamp q 1 50)) (Z.max 1 (Z.min 50 z))) as Hcap
      by by eexists.
    exists (JsFinite (clamp q 1 50)).
    unfold parseFramesCount at 1. rewrite Hi. simpl negb. simpl orb.
    split_and!; [done|done| | |].
    + eexists. split; [exact Hcap|lia].
    + eapply capacityCheck_true; [exact Hcap|lia].
    + unfold parseFramesCount.
      rewrite (isCapacity_isInteger _ _ Hcap). simpl. by rewrite Hidem.
Qed.

Lemma parseFramesCount_clamps_witness :
  ∃ v, parseFramesCount (jsInt 99) = Ok (v, v) ∧
       isCapacity v (Z.max 1 (Z.min 50 99)) ∧
       validCapacity v ∧ capacityCheck v = true ∧
       parseFramesCount v = Ok (v, v).
Proof.
  apply (proj2 (parseFramesCount_clamps (jsInt 99)) 99%Z).
  exists (inject_Z 99). split; reflexivity.
Defined.

(** ** The ranking of the comparison *)

Lemma rowLe_trans x y z : rowLe x y → rowLe y z → rowLe x z.
Proof.
  unfold rowLe, compareRows. intros H1 H2.
  repeat match goal with
         | H : context [(?a =? 0)%Z] |- _ => destruct (Z.eqb_spec a 0)
         | |- context [(?a =? 0)%Z] => destruct (Z.eqb_spec a 0)
         end; lia.
Qed.

Lemma rowLe_total x y : ¬ (0 < compareRows y x)%Z ↔ rowLe y x.
Proof. unfold rowLe. lia. Qed.

Lemma rowLe_flip x y : (0 < compareRows y x)%Z → rowLe x y.
Proof.
  unfold rowLe, compareRows.
  repeat match goal with
         | |- context [(?a =? 0)%Z] => destruct (Z.eqb_spec a 0)
         end; lia.
Qed.

Lemma insertRow_perm x rows : insertRow x rows ≡ₚ x :: rows.
Proof.
  induction rows as [|y rows IH]; simpl; [done|].
  destruct (0 <? compareRows y x)%Z; [done|].
  rewrite IH. apply Permutation_swap.
Qed.

Lemma insertRow_ranked x rows : ranked rows → ranked (insertRow x rows).
Proof.
  induction 1 as [|y rows Hy Hr IH]; simpl.
  - constructor; [constructor|constructor].
  - destruct (Z.ltb_spec 0 (compareRows y x)) as [Hlt|Hge].
    + constructor; [|by constructor].
      constructor; [by apply rowLe_flip|].
      eapply Forall_impl; [exact Hy|]. intros z Hz.
      eapply rowLe_trans; [by apply rowLe_flip|done].
    + constructor; [|done]. rewrite insertRow_perm.
      constructor; [|done]. apply rowLe_total. lia.
Qed.

Lemma sortRows_snoc rows x : sortRows (rows ++ [x]) = insertRow x (sortRows rows).
Proof. unfold sortRows. by rewrite foldl_app. Qed.

Lemma sortRows_perm rows : sortRows rows ≡ₚ rows.
Proof.
  induction rows as [|x rows IH] using rev_ind; [done|].
  rewrite sortRows_snoc, insertRow_perm, IH.
  by rewrite Permutation_cons_append.
Qed.

Lemma sortRows_ranked rows : ranked (sortRows rows).
Proof.
  induction rows as [|x rows IH] using rev_ind; [constructor|].
  rewrite sortRows_snoc. by apply insertRow_ranked.
Qed.

Lemma filter_none {A} (P : A → Prop) `{!∀ x, Decision (P x)} (l : list A) :
  Forall (λ x, ¬ P x) l → filter P l = [].
Proof.
  induction 1 as [|x l Hx Hl IH]; [done|].
  rewrite filter_cons. by destruct (decide (P x)).
Qed.

(** Insertion puts a row behind the rows it ties with. *)
Lemma insertRow_ties f h x rows :
  ranked rows →
  filter (λ r, rowFaults r = f ∧ rowHits r = h) (insertRow x rows)
  = (filter (λ r, rowFaults r = f ∧ rowHits r = h) rows
     ++ filter (λ r, rowFaults r = f ∧ rowHits r = h) [x])%list.
Proof.
  induction 1 as [|y rows Hy Hr IH]; simpl; [done|].
  destruct (Z.ltb_spec 0 (compareRows y x)) as [Hlt|Hge].
  - rewrite (filter_cons _ x), (filter_cons _ x [] ).
    destruct (decide (rowFaults x = f ∧ rowHits x = h)) as [[Hf Hh]|Hx].
    + assert (filter (λ r, rowFaults r = f ∧ rowHits r = h) (y :: rows) = []) as ->;
        [|done].
      apply filter_none. constructor.
      * intros [Hf' Hh']. unfold compareRows in Hlt.
        destruct (Z.eqb_spec (Z.of_nat (rowFaults y) - Z.of_nat (rowFaults x)) 0); lia.
      * eapply Forall_impl; [exact Hy|]. intros z Hz [Hf' Hh'].
        unfold rowLe, compareRows in *.
        repeat match goal with
               | H : context [(?a =? 0)%Z] |- _ => destruct (Z.eqb_spec a 0)
               end; lia.
    + rewrite filter_nil. by rewrite app_nil_r.
  - rewrite !(filter_cons _ y), IH.
    destruct (decide (rowFaults y = f ∧ rowHits y = h)); [done|done].
Qed.

Lemma sortRows_ties f h rows :
  filter (λ r, rowFaults r = f ∧ rowHits r = h) (sortRows rows)
  = filter (λ r, rowFaults r = f ∧ rowHits r = h) rows.
Proof.
  induction rows as [|x rows IH] using rev_ind; [done|].
  rewrite sortRows_snoc, insertRow_ties by apply sortRows_ranked.
  by rewrite IH, filter_app.
Qed.

Lemma ranked_lookup rows i j x y :
  ranked rows → rows !! i = Some x → rows !! j = Some y → i < j → rowLe x y.
Proof.
  intros Hr. revert i j. induction Hr as [|z rows Hz Hr IH]; intros i j Hi Hj Hij.
  - done.
  - destruct j as [|j]; [lia|]. destruct i as [|i].
    + injection Hi as ->. simpl in Hj.
      by apply (proj1 (Forall_lookup _ _) Hz j y).
    + simpl in Hi, Hj. apply (IH i j); [done|done|lia].
Qed.

Lemma filter_agree {A} (P Q : A → Prop) `{!∀ x, Decision (P x)}
    `{!∀ x, Decision (Q x)} (l : list A) :
  Forall (λ x, P x ↔ Q x) l → filter P l = filter Q l.
Proof.
  induction 1 as [|x l Hx Hl IH]; [done|].
  rewrite !filter_cons, IH.
  destruct (decide (P x)), (decide (Q x)); tauto.
Qed.

Lemma parseFramesCount_ok n z :
  isCapacity n z →
  ∃ v, parseFramesCount n = Ok (v, v) ∧ isCapacity v (Z.max 1 (Z.min 50 z)).
Proof.
  intros Hz. pose proof (isCapacity_isInteger n z Hz) as Hi.
  destruct Hz as (q & -> & Hq).
  destruct (clamp_capacity q z Hq) as [Hc _].
  exists (JsFinite (clamp q 1 50)).
  unfold parseFramesCount. rewrite Hi. split; [done|by eexists].
Qed.

Lemma opt_least algoName v c refs :
  knownPolicy algoName → isCapacity v c → (1 ≤ c ≤ 50)%Z → refs ≠ [] →
  ∃ o a, simulate "OPT" v refs = Ok o ∧ simulate algoName v refs = Ok a ∧
         faults (summary o) ≤ faults (summary a).
Proof.
  intros Hk Hv Hc Hrefs.
  assert (1 ≤ Z.to_nat c) as Hfc by lia.
  destruct (simulateOPT_belady (Z.to_nat c) refs Hfc) as (o & Ho & Hbel).
  destruct (simulate_run algoName v c refs Hk Hv Hc Hrefs) as (a & Ha & Hwf & _).
  exists o, a. split_and!; [|done|].
  - rewrite simulate_checks, (capacityCheck_true v c Hv Hc), (toCount_capacity v c Hv).
    by destruct refs.
  - pose proof (belady_lead_wide refs _ _ _ _ 0 Hbel (wf_demand _ _ _ Hwf)
                  (NoDupPages_fill _) ltac:(lia)) as Hle.
    specialize (Hle ltac:(intros; lia)). lia.
Qed.

Lemma compareRowsOf_ok names v c refs :
  Forall knownPolicy names → isCapacity v c → (1 ≤ c ≤ 50)%Z → refs ≠ [] →
  ∃ rows, compareRowsOf names v refs = Ok rows ∧
          rowAlgo <$> rows = names ∧
          Forall (λ r, summaryOf (simulate (rowAlgo r) v refs)
                         = Some (rowHits r, rowFaults r) ∧
                       rowHits r + rowFaults r = length refs) rows.
Proof.
  intros Hk Hv Hc Hrefs. induction Hk as [|a names Ha Hk IH].
  - by exists [].
  - destruct IH as (rows & Hrows & Hn & Hall).
    destruct (simulate_run a v c refs Ha Hv Hc Hrefs) as (o & Ho & Hwf & _).
    exists (mkRow a (hits (summary o)) (faults (summary o)) :: rows).
    split_and!.
    + simpl. rewrite Ho. simpl. rewrite Hrows. done.
    + by rewrite fmap_cons, Hn.
    + constructor; [|done]. simpl. rewrite Ho. split; [done|].
      apply (wf_total _ _ _ Hwf).
Qed.

Lemma algos_known : Forall knownPolicy algos.
Proof.
  unfold algos, knownPolicy. repeat constructor; tauto.
Qed.

(** X13.  The comparison table.  For a frames field that reads an integer
    and a reference text that parses to a non-empty list, [runAllCompare]
    shows one row for each of FIFO, LRU, OPT and CLOCK, with the counts
    [simulate] returns at the clamped capacity; no row has more faults (or
    fewer hits) than a row below it, rows with equal faults stand in the
    order FIFO, LRU, OPT, CLOCK, and the first row has the fault count of
    OPT. *)
Theorem compare_ranks_by_faults (n : jsval) (z : Z) (text : jsstring)
    (refs : list Z) :
  isCapacity n z → parseRefs text = inr refs → refs ≠ [] →
  ∃ v rows,
    isCapacity v (Z.max 1 (Z.min 50 z)) ∧
    runAllCompare n text = Shown rows ∧
    rowAlgo <$> rows ≡ₚ algos ∧
    (∀ r, r ∈ rows →
       summaryOf (simulate (rowAlgo r) v refs) = Some (rowHits r, rowFaults r) ∧
       rowHits r + rowFaults r = length refs) ∧
    (∀ i j x y, rows !! i = Some x → rows !! j = Some y → i < j →
       rowFaults x ≤ rowFaults y ∧ rowHits y ≤ rowHits x) ∧
    (∀ f, rowAlgo <$> rowsWithFaults f rows `sublist_of` algos) ∧
    (∃ top o, rows !! 0 = Some top ∧ simulate "OPT" v refs = Ok o ∧
              rowFaults top = faults (summary o)).
Proof.
  intros Hn Hparse Hrefs.
  destruct (parseFramesCount_ok n z Hn) as (v & Hpf & Hv).
  assert (1 ≤ Z.max 1 (Z.min 50 z) ≤ 50)%Z as Hc by lia.
  destruct (compareRowsOf_ok algos v _ refs algos_known Hv Hc Hrefs)
    as (unsorted & Hrows & Hnames & Hall).
  exists v, (sortRows unsorted).
  assert (∀ r, r ∈ sortRows unsorted →
            summaryOf (simulate (rowAlgo r) v refs) = Some (rowHits r, rowFaults r) ∧
            rowHits r + rowFaults r = length refs) as Hin.
  { intros r Hr. rewrite sortRows_perm in Hr.
    by apply (proj1 (Forall_forall _ _) Hall). }
  assert (∀ i j x y, sortRows unsorted !! i = Some x →
            sortRows unsorted !! j = Some y → i < j →
            rowFaults x ≤ rowFaults y ∧ rowHits y ≤ rowHits x) as Hord.
  { intros i j x y Hi Hj Hij.
    pose proof (ranked_lookup _ i j x y (sortRows_ranked unsorted) Hi Hj Hij) as Hle.
    destruct (Hin x (list_elem_of_lookup_2 _ _ _ Hi)) as [_ Hx].
    destruct (Hin y (list_elem_of_lookup_2 _ _ _ Hj)) as [_ Hy].
    unfold rowLe, compareRows in Hle.
    destruct (Z.eqb_spec (Z.of_nat (rowFaults x) - Z.of_nat (rowFaults y)) 0); lia. }
  split_and!; [done| | |done|done| |].
  - unfold runAllCompare. rewrite Hpf, Hparse.
    destruct refs; [done|]. simpl length. simpl Nat.eqb. cbv iota.
    by rewrite Hrows.
  - by rewrite sortRows_perm, Hnames.
  - intros f. unfold rowsWithFaults.
    rewrite (filter_agree (λ r, rowFaults r = f)
               (λ r, rowFaults r = f ∧ rowHits r = length refs - f)).
    2:{ apply Forall_forall. intros r Hr. destruct (Hin r Hr) as [_ Ht]. lia. }
    rewrite sortRows_ties, <- Hnames.
    apply fmap_sublist, sublist_filter.
  - destruct (opt_least "OPT" v _ refs ltac:(right; right; by left) Hv Hc Hrefs)
      as (o & _ & Ho & _ & _).
    assert ("OPT" ∈ rowAlgo <$> sortRows unsorted) as Hopt.
    { rewrite sortRows_perm, Hnames. unfold algos.
      do 2 apply list_elem_of_further. apply list_elem_of_here. }
    apply list_elem_of_fmap in Hopt as (ro & Hro & Hroin).
    apply list_elem_of_lookup in Hroin as (k & Hk).
    destruct (sortRows unsorted) as [|top rest] eqn:Es; [done|].
    exists top, o. split_and!; [done|done|].
    assert (faults (summary o) = rowFaults ro) as Hfo.
    { destruct (Hin ro (list_elem_of_lookup_2 _ _ _ Hk)) as [Hs _].
      rewrite <- Hro, Ho in Hs. simpl in Hs. congruence. }
    assert (rowFaults top ≤ rowFaults ro) as Hle1.
    { destruct k as [|k]; [simpl in Hk; injection Hk as ->; lia|].
      apply (Hord 0 (S k) top ro); [done|done|lia]. }
    destruct (Hin top ltac:(left)) as [Hs _].
    assert (knownPolicy (rowAlgo top)) as Hkt.
    { assert (rowAlgo top ∈ algos) as Hta.
      { rewrite <- Hnames, <- (sortRows_perm unsorted), Es. simpl. left. }
      apply (proj1 (Forall_forall _ _) algos_known _ Hta). }
    destruct (opt_least (rowAlgo top) v _ refs Hkt Hv Hc Hrefs)
      as (o' & a & Ho' & Ha & Hle2).
    rewrite Ha in Hs. simpl in Hs. rewrite Ho in Ho'.
    injection Ho' as <-. injection Hs as _ Hf. lia.
Qed.

Lemma compare_ranks_by_faults_witness :
  ∃ v rows,
    isCapacity v (Z.max 1 (Z.min 50 3)) ∧
    runAllCompare (jsInt 3) (codes "1 2 3 4 1 2 5 1 2 3 4 5") = Shown rows ∧
    rowAlgo <$> rows ≡ₚ algos ∧
    (∀ r, r ∈ rows →
       summaryOf (simulate (rowAlgo r) v beladySequence)
         = Some (rowHits r, rowFaults r) ∧
       rowHits r + rowFaults r = length beladySequence) ∧
    (∀ i j x y, rows !! i = Some x → rows !! j = Some y → i < j →
       rowFaults x ≤ rowFaults y ∧ rowHits y ≤ rowHits x) ∧
    (∀ f, rowAlgo <$> rowsWithFaults f rows `sublist_of` algos) ∧
    (∃ top o, rows !! 0 = Some top ∧ simulate "OPT" v beladySequence = Ok o ∧
              rowFaults top = faults (summary o)).
Proof.
  apply (compare_ranks_by_faults (jsInt 3) 3
           (codes "1 2 3 4 1 2 5 1 2 3 4 5") beladySequence).
  - exists (inject_Z 3). split; reflexivity.
  - vm_compute. reflexivity.
  - discriminate.
Defined.

(** ** From the input fields to a simulation *)

(** X14.  What [initSimulation] ends in, for a policy of the selection
    list.  A frames field that is not an integer and a reference text with
    a bad token raise their alert and reset the simulation; a blank
    reference text raises its alert and leaves the simulation as it was;
    everything else starts a simulation of all the references at the clamped
    capacity, at step 0 and without an alert: the errors [simulate] itself
    can raise never reach the user. *)
Theorem initSimulation_outcomes (n : jsval) (algo : string) (text : jsstring)
    (app : AppData) :
  knownPolicy algo →
  ((¬ ∃ z, isCapacity n z) →
     initSimulation n algo text app
     = (mkApp None 0, Some (MsgText msgFramesInteger))) ∧
  (∀ z, isCapacity n z →
     (∀ m, parseRefs text = inl m →
        initSimulation n algo text app = (mkApp None 0, Some m)) ∧
     (parseRefs text = inr [] →
        initSimulation n algo text app = (app, Some msgNoRefsInit)) ∧
     (∀ refs, parseRefs text = inr refs → refs ≠ [] →
        ∃ v o, isCapacity v (Z.max 1 (Z.min 50 z)) ∧
               simulate algo v refs = Ok o ∧
               length (steps o) = length refs ∧
               initSimulation n algo text app = (mkApp (Some o) 0, None))).
Proof.
  intros Hk. split.
  - intros Hn. unfold initSimulation, parseFramesCount.
    destruct n as [q|]; [|done].
    destruct (Number_isInteger (JsFinite q)) eqn:Ei; [|done].
    exfalso. by apply Hn, isInteger_isCapacity.
  - intros z Hz. destruct (parseFramesCount_ok n z Hz) as (v & Hpf & Hv).
    unfold initSimulation. rewrite Hpf. split_and!.
    + by intros m ->.
    + by intros ->.
    + intros refs -> Hrefs.
      destruct (simulate_run algo v _ refs Hk Hv ltac:(lia) Hrefs) as (o & Ho & Hwf & _).
      exists v, o. split_and!; [done|done|apply (wf_length _ _ _ Hwf)|].
      rewrite Ho. by destruct refs.
Qed.

Lemma initSimulation_outcomes_witness :
  ∃ v o, isCapacity v (Z.max 1 (Z.min 50 0)) ∧
         simulate "CLOCK" v [7; -3; 7]%Z = Ok o ∧
         length (steps o) = length [7; -3; 7]%Z ∧
         initSimulation (jsInt 0) "CLOCK" (codes ",7 -3, +7") (mkApp None 5)
         = (mkApp (Some o) 0, None).
Proof.
  assert (knownPolicy "CLOCK") as Hk by (do 3 right; reflexivity).
  assert (isCapacity (jsInt 0) 0) as Hz by (exists (inject_Z 0); split; reflexivity).
  apply (proj2 (proj2 (proj2 (initSimulation_outcomes (jsInt 0) "CLOCK"
                  (codes ",7 -3, +7") (mkApp None 5) Hk) 0%Z Hz)) [7; -3; 7]%Z).
  - vm_compute. reflexivity.
  - discriminate.
Defined.

(** ** The counters under the table *)

Lemma countShown_S steps k :
  countShown steps (S k) =
  match countShown steps k, steps !! k with
  | Some shown, Some s => Some (countStep s shown)
  | _, _ => None
  end.
Proof.
  unfold countShown. rewrite seq_S, foldl_app. simpl.
  destruct (foldl _ _ _) as [[h f]|]; [|done]. done.
Qed.

Lemma countHits_snoc ss s :
  countHits (ss ++ [s]) = countHits ss + (if hit s then 1 else 0).
Proof.
  unfold countHits. rewrite filter_app, length_app, filter_cons.
  destruct (hit s); case_decide; simpl; done.
Qed.

Lemma countFaults_snoc ss s :
  countFaults (ss ++ [s]) = countFaults ss + (if fault s then 1 else 0).
Proof.
  unfold countFaults. rewrite filter_app, length_app, filter_cons.
  destruct (fault s); case_decide; simpl; done.
Qed.

Lemma countShown_take steps k :
  k ≤ length steps →
  countShown steps k = Some (countHits (take k steps), countFaults (take k steps)).
Proof.
  induction k as [|k IH]; intros Hk; [done|].
  rewrite countShown_S, IH by lia.
  destruct (lookup_lt_is_Some_2 steps k ltac:(lia)) as [s Hs]. rewrite Hs.
  rewrite (take_S_r _ _ _ Hs), countHits_snoc, countFaults_snoc.
  unfold countStep. simpl. f_equal. f_equal; destruct (hit s), (fault s); lia.
Qed.

Lemma countShown_beyond steps k : length steps < k → countShown steps k = None.
Proof.
  induction k as [|k IH]; intros Hk; [lia|].
  rewrite countShown_S. rewrite (lookup_ge_None_2 steps k) by lia.
  by destruct (countShown steps k).
Qed.

Lemma simulate_prefix algoName v c refs n :
  algoName = "FIFO" ∨ algoName = "LRU" ∨ algoName = "CLOCK" →
  isCapacity v c → (1 ≤ c ≤ 50)%Z → 1 ≤ n ≤ length refs →
  ∃ o o', simulate algoName v refs = Ok o ∧
          simulate algoName v (take n refs) = Ok o' ∧
          steps o' = take n (steps o).
Proof.
  intros Hk Hv Hc Hn.
  rewrite !simulate_checks, (capacityCheck_true v c Hv Hc), (toCount_capacity v c Hv).
  destruct refs as [|r refs']; [simpl in Hn; lia|]. destruct n as [|n]; [lia|].
  set (refs := r :: refs'). change (r :: take n refs') with (take (S n) refs).
  assert (1 ≤ Z.to_nat c) as Hfc by lia.
  destruct Hk as [-> | [-> | ->]]; simpl String.eqb; cbv iota.
  - destruct (simulateFIFO_run (Z.to_nat c) refs Hfc) as (stf & ss & Ht & _ & ->).
    destruct (run_prefix (E := fifoEngine) _ _ _ _ _ (S n) Ht) as [stn Hp].
    eexists _, _. split; [done|]. split; [exact Hp|done].
  - destruct (simulateLRU_run (Z.to_nat c) refs Hfc) as (stf & ss & Ht & _ & ->).
    destruct (run_prefix (E := lruEngine) _ _ _ _ _ (S n) Ht) as [stn Hp].
    eexists _, _. split; [done|]. split; [exact Hp|done].
  - destruct (simulateCLOCK_run (Z.to_nat c) refs Hfc) as (stf & ss & Ht & _ & ->).
    destruct (run_prefix (E := clockEngine) _ _ _ _ _ (S n) Ht) as [stn Hp].
    eexists _, _. split; [done|]. split; [exact Hp|done].
Qed.

(** X15.  The counters [updateStats] shows while a run is stepped through.
    After [k] steps of a run they are defined and add up to [k]; showing one
    more step raises the hit counter or the fault counter by one, never
    both; after the last step they are the totals of the summary; with FIFO,
    LRU and CLOCK they are at every step the totals that a run on the first
    [k] references alone reports.  Past the end of the run the loop reads a
    record that does not exist. *)
Theorem shown_counters (algoName : string) (v : jsval) (c : Z) (refs : list Z) :
  knownPolicy algoName → isCapacity v c → (1 ≤ c ≤ 50)%Z → refs ≠ [] →
  ∃ o, simulate algoName v refs = Ok o ∧
       (∀ k, k ≤ length refs →
          ∃ h f, countShown (steps o) k = Some (h, f) ∧ h + f = k ∧
                 (∀ s, steps o !! k = Some s →
                    hit s = negb (fault s) ∧
                    countShown (steps o) (S k)
                    = Some (if fault s then (h, S f) else (S h, f))) ∧
                 (algoName ≠ "OPT" → 1 ≤ k →
                    summaryOf (simulate algoName v (take k refs)) = Some (h, f))) ∧
       countShown (steps o) (length refs) = summaryOf (Ok o) ∧
       (∀ k, length refs < k → countShown (steps o) k = None).
Proof.
  intros Hk Hv Hc Hrefs.
  destruct (simulate_run algoName v c refs Hk Hv Hc Hrefs) as (o & Ho & Hwf & _).
  pose proof (wf_length _ _ _ Hwf) as Hlen.
  exists o. split_and!; [done| | |].
  - intros k Hkl. eexists _, _.
    split; [apply countShown_take; lia|]. split_and!.
    + rewrite counts_add.
      * rewrite length_take. lia.
      * intros s Hs. apply (wf_flags _ _ _ Hwf).
        apply elem_of_take in Hs as (i & Hi & _).
        by eapply list_elem_of_lookup_2.
    + intros s Hs.
      pose proof (wf_flags _ _ _ Hwf s (list_elem_of_lookup_2 _ _ _ Hs)) as Hf.
      split; [done|].
      rewrite countShown_S, countShown_take, Hs by lia.
      unfold countStep. simpl. rewrite Hf. by destruct (fault s).
    + intros Hopt Hk1.
      assert (algoName = "FIFO" ∨ algoName = "LRU" ∨ algoName = "CLOCK") as Hon.
      { destruct Hk as [-> | [-> | [-> | ->]]]; auto. done. }
      destruct (simulate_prefix algoName v c refs k Hon Hv Hc ltac:(lia))
        as (o1 & o' & Ho1 & Ho' & Hsteps).
      rewrite Ho in Ho1. injection Ho1 as <-.
      assert (knownPolicy algoName) as Hk' by done.
      destruct (simulate_run algoName v c (take k refs) Hk Hv Hc) as (o2 & Ho2 & Hwf2 & _).
      { destruct refs; [done|]. destruct k; [lia|done]. }
      rewrite Ho' in Ho2. injection Ho2 as <-.
      rewrite Ho'. simpl.
      by rewrite (wf_hits _ _ _ Hwf2), (wf_faults _ _ _ Hwf2), Hsteps.
  - rewrite countShown_take by lia. simpl.
    rewrite (wf_hits _ _ _ Hwf), (wf_faults _ _ _ Hwf).
    by rewrite <- Hlen, firstn_all.
  - intros k Hkl. apply countShown_beyond. lia.
Qed.

Lemma shown_counters_witness :
  ∃ o, simulate "LRU" (jsInt 2) [1;2;1;3;2]%Z = Ok o ∧
       (∀ k, k ≤ length [1;2;1;3;2]%Z →
          ∃ h f, countShown (steps o) k = Some (h, f) ∧ h + f = k ∧
                 (∀ s, steps o !! k = Some s →
                    hit s = negb (fault s) ∧
                    countShown (steps o) (S k)
                    = Some (if fault s then (h, S f) else (S h, f))) ∧
                 ("LRU" ≠ "OPT" → 1 ≤ k →
                    summaryOf (simulate "LRU" (jsInt 2) (take k [1;2;1;3;2]%Z))
                    = Some (h, f))) ∧
       countShown (steps o) (length [1;2;1;3;2]%Z) = summaryOf (Ok o) ∧
       (∀ k, length [1;2;1;3;2]%Z < k → countShown (steps o) k = None).
Proof.
  apply (shown_counters "LRU" (jsInt 2) 2 [1;2;1;3;2]%Z).
  - right. left. reflexivity.
  - exists (inject_Z 2). split; reflexivity.
  - lia.
  - discriminate.
Defined.

(** ** The tokens of the reference text *)

Lemma isSpace_isSep c : isSpace c = true → isSep c = true.
Proof. unfold isSep. by intros ->. Qed.

Lemma splitGo_cons b s : ∃ p ps, splitGo b s = p :: ps.
Proof.
  revert b. induction s as [|c s IH]; intros b; simpl; [by eexists _, _|].
  destruct (isSep c).
  - destruct b; [apply IH|by eexists _, _].
  - destruct (IH false) as (p & ps & ->). by eexists _, _.
Qed.

Lemma splitGo_sepFree b s : Forall (λ p, sepFree p = true) (splitGo b s).
Proof.
  revert b. induction s as [|c s IH]; intros b; simpl.
  - by repeat constructor.
  - destruct (isSep c) eqn:Ec.
    + destruct b; [apply IH|]. constructor; [done|apply IH].
    + specialize (IH false). destruct (splitGo false s) as [|p ps].
      * repeat constructor. simpl. by rewrite Ec.
      * inversion IH; subst. constructor; [|done]. simpl. by rewrite Ec.
Qed.

Lemma trimStart_sepFree t : sepFree t = true → trimStart t = t.
Proof.
  destruct t as [|c t]; [done|]. simpl.
  destruct (isSpace c) eqn:Ec; [|done].
  by rewrite (isSpace_isSep c Ec).
Qed.

Lemma sepFree_rev t : sepFree (rev t) = sepFree t.
Proof.
  unfold sepFree. apply eq_true_iff_eq.
  rewrite !forallb_forall. split; intros H c Hc; apply H;
    first [by rewrite <- in_rev | by rewrite in_rev].
Qed.

Lemma trim_sepFree t : sepFree t = true → trim t = t.
Proof.
  intros Ht. unfold trim, trimEnd. rewrite (trimStart_sepFree t Ht).
  rewrite trimStart_sepFree by by rewrite sepFree_rev.
  apply rev_involutive.
Qed.

Lemma map_trim_splitGo b s : map trim (splitGo b s) = splitGo b s.
Proof.
  pose proof (splitGo_sepFree b s) as H.
  induction H as [|p ps Hp _ IH]; [done|].
  simpl. by rewrite IH, trim_sepFree.
Qed.

Lemma pieces_sep b c s : isSep c = true → pieces b (c :: s) = pieces true s.
Proof.
  intros Hc. unfold pieces. simpl. rewrite Hc. by destruct b.
Qed.

Lemma pieces_flag s : pieces true s = pieces false s.
Proof.
  destruct s as [|c s]; [done|]. destruct (isSep c) eqn:Ec.
  - by rewrite !pieces_sep.
  - unfold pieces. simpl. by rewrite Ec.
Qed.

Lemma pieces_lead b lead s :
  allSep lead = true → pieces b (lead ++ s)%list = pieces false s.
Proof.
  revert b. induction lead as [|c lead IH]; intros b Hl.
  - simpl. destruct b; [apply pieces_flag|done].
  - simpl in Hl. apply andb_true_iff in Hl as [Hc Hl].
    change ((c :: lead) ++ s)%list with (c :: (lead ++ s))%list.
    rewrite pieces_sep by done. by apply IH.
Qed.

Lemma splitGo_snoc b s c :
  isSep c = true →
  ∃ e, splitGo b (s ++ [c])%list = (splitGo b s ++ e)%list ∧ (e = [] ∨ e = [[]]).
Proof.
  intros Hc. revert b. induction s as [|d s IH]; intros b.
  - simpl. rewrite Hc. destruct b; [exists []|exists [[]]]; auto.
  - change ((d :: s) ++ [c])%list with (d :: (s ++ [c]))%list. simpl.
    destruct (isSep d).
    + destruct (IH true) as (e & -> & He). destruct b; exists e; auto.
    + destruct (IH false) as (e & -> & He).
      destruct (splitGo_cons false s) as (p & ps & ->). exists e. auto.
Qed.

Lemma pieces_snoc b s c : isSep c = true → pieces b (s ++ [c])%list = pieces b s.
Proof.
  intros Hc. unfold pieces.
  destruct (splitGo_snoc b s c Hc) as (e & -> & He).
  rewrite filter_app. destruct He as [-> | ->]; by rewrite app_nil_r.
Qed.

Lemma pieces_trail b s trail :
  allSep trail = true → pieces b (s ++ trail)%list = pieces b s.
Proof.
  induction trail as [|c trail IH] using rev_ind; intros Ht.
  - by rewrite app_nil_r.
  - unfold allSep in Ht. rewrite forallb_app in Ht.
    apply andb_true_iff in Ht as [Ht Hc]. simpl in Hc.
    apply andb_true_iff in Hc as [Hc _].
    rewrite app_assoc, pieces_snoc by done. by apply IH.
Qed.

Lemma trimStart_spaces s :
  ∃ sp, s = (sp ++ trimStart s)%list ∧ allSep sp = true.
Proof.
  induction s as [|c s (sp & Hs & Hsp)]; [by exists []|].
  simpl. destruct (isSpace c) eqn:Ec.
  - exists (c :: sp). split; [simpl; congruence|].
    simpl. by rewrite (isSpace_isSep c Ec).
  - by exists [].
Qed.

Lemma allSep_rev s : allSep (rev s) = allSep s.
Proof.
  unfold allSep. apply eq_true_iff_eq.
  rewrite !forallb_forall. split; intros H c Hc; apply H;
    first [by rewrite <- in_rev | by rewrite in_rev].
Qed.

Lemma trimEnd_spaces s :
  ∃ sp, s = (trimEnd s ++ sp)%list ∧ allSep sp = true.
Proof.
  destruct (trimStart_spaces (rev s)) as (sp & Hs & Hsp).
  exists (rev sp). split; [|by rewrite allSep_rev].
  unfold trimEnd. rewrite <- rev_app_distr, <- Hs. by rewrite rev_involutive.
Qed.

Lemma pieces_trim b text : pieces b (trim text) = pieces false text.
Proof.
  destruct (trimStart_spaces text) as (sp & Hs & Hsp).
  destruct (trimEnd_spaces (trimStart text)) as (sp' & Hs' & Hsp').
  assert (pieces false (sp ++ trimStart text)%list = pieces false text) as <-
    by (by rewrite <- Hs).
  rewrite (pieces_lead false sp _ Hsp).
  assert (pieces false (trimEnd (trimStart text) ++ sp')%list
          = pieces false (trimStart text)) as <- by (by rewrite <- Hs').
  rewrite (pieces_trail false _ sp' Hsp').
  unfold trim. destruct b; [apply pieces_flag|done].
Qed.

(** [parseRefs] maps the callback over the non-empty pieces of the text
    itself: neither of the two [trim]s changes them. *)
Lemma parseRefs_pieces text : parseRefs text = mapTokens (pieces false text).
Proof.
  unfold parseRefs. rewrite <- (pieces_trim false text).
  destruct (trim text) as [|c s] eqn:Et; [done|].
  simpl negb. cbv iota. unfold split. by rewrite map_trim_splitGo.
Qed.

Lemma splitGo_token b t s :
  sepFree t = true → (t ≠ [] ∨ b = false) →
  (s = [] ∨ ∃ c r, s = c :: r ∧ isSep c = true) →
  splitGo b (t ++ s)%list =
  match s with
  | [] => [t]
  | _ :: r => t :: splitGo true r
  end.
Proof.
  intros Ht Hb Hs. revert b Hb. induction t as [|d t IH]; intros b Hb.
  - destruct Hb as [Hb | ->]; [done|].
    destruct Hs as [-> | (c & r & -> & Hc)]; [done|]. simpl. by rewrite Hc.
  - simpl in Ht. apply andb_true_iff in Ht as [Hd Ht].
    apply negb_true_iff in Hd.
    change ((d :: t) ++ s)%list with (d :: (t ++ s))%list. simpl. rewrite Hd.
    rewrite (IH Ht false) by auto. by destruct s.
Qed.

Lemma pieces_layout items :
  layoutOK items →
  pieces false (concat ((λ it, it.1 ++ it.2) <$> items))%list = items.*1.
Proof.
  induction items as [|[t sep] rest IH]; [done|].
  intros (Hne & Hfree & Hsep & Hlast & Hrest). cbn [fst snd] in *.
  rewrite !fmap_cons, concat_cons. cbn [fst snd]. rewrite <- app_assoc.
  set (tail := (sep ++ concat ((λ it, it.1 ++ it.2) <$> rest))%list).
  assert (pieces false tail = rest.*1) as Htail.
  { unfold tail. rewrite pieces_lead by done. by apply IH. }
  assert (tail = [] ∨ ∃ c r, tail = c :: r ∧ isSep c = true) as Hshape.
  { unfold tail. destruct sep as [|c sep].
    - destruct rest as [|it rest]; [by left|]. by destruct Hlast.
    - right. simpl in Hsep. apply andb_true_iff in Hsep as [Hc _].
      by eexists _, _. }
  unfold pieces. rewrite (splitGo_token false t tail Hfree (or_introl Hne) Hshape).
  destruct Hshape as [Ht | (c & r & Ht & Hc)]; rewrite Ht in *.
  - rewrite filter_cons. destruct t; [done|].
    rewrite decide_True by done. by rewrite <- Htail.
  - rewrite filter_cons. destruct t; [done|].
    rewrite decide_True by done. f_equal.
    rewrite <- Htail. by rewrite pieces_sep.
Qed.

Lemma layout_exists text :
  ∃ lead items, allSep lead = true ∧ layoutOK items ∧ text = layout lead items.
Proof.
  induction text as [|c text (lead & items & Hlead & Hok & ->)].
  - by exists [], [].
  - destruct (isSep c) eqn:Ec.
    + exists (c :: lead), items. split_and!; [by simpl; rewrite Ec|done|done].
    + destruct lead as [|l lead].
      * destruct items as [|[t sep] rest].
        -- exists [], [([c], [])]. split_and!; [done| |done].
           simpl. rewrite Ec. by split_and!.
        -- exists [], ((c :: t, sep) :: rest). split_and!; [done| |done].
           destruct Hok as (? & ? & ? & ? & ?). simpl. rewrite Ec. by split_and!.
      * exists [], (([c], l :: lead) :: items). split_and!; [done| |].
        -- simpl. rewrite Ec. simpl in Hlead. by split_and!.
        -- by unfold layout.
Qed.

(** X16.  How [parseRefs] cuts the reference text.  Every text is, in one
    way as far as the tokens go, some separators (white space and commas)
    followed by tokens that hold no separator, each followed by at least one
    separator unless it is the last; [parseRefs] hands exactly these tokens,
    in their order, to its integer check.  Leading, trailing and repeated
    separators make no difference. *)
Theorem parseRefs_tokenizes (text : jsstring) :
  (∃ lead items, allSep lead = true ∧ layoutOK items ∧ text = layout lead items) ∧
  (∀ lead items, allSep lead = true → layoutOK items → text = layout lead items →
     parseRefs text = mapTokens items.*1 ∧
     ∀ lead' items', allSep lead' = true → layoutOK items' →
       text = layout lead' items' → items'.*1 = items.*1).
Proof.
  split; [apply layout_exists|].
  intros lead items Hlead Hok ->.
  assert (∀ lead' items', allSep lead' = true → layoutOK items' →
            pieces false (layout lead' items') = items'.*1) as Hp.
  { intros lead' items' Hl Ho. unfold layout.
    rewrite pieces_lead by done. by apply pieces_layout. }
  split.
  - by rewrite parseRefs_pieces, Hp.
  - intros lead' items' Hl Ho Heq.
    by rewrite <- (Hp lead' items' Hl Ho), <- Heq, Hp.
Qed.

Lemma parseRefs_tokenizes_witness :
  parseRefs (codes " ,7  -3,x ")
  = mapTokens [(codes "7", codes "  "); (codes "-3", codes ","); (codes "x", codes " ")].*1 ∧
  ∀ lead' items', allSep lead' = true → layoutOK items' →
    codes " ,7  -3,x " = layout lead' items' →
    items'.*1
    = [(codes "7", codes "  "); (codes "-3", codes ","); (codes "x", codes " ")].*1.
Proof.
  apply (proj2 (parseRefs_tokenizes (codes " ,7  -3,x ")) (codes " ,")
           [(codes "7", codes "  "); (codes "-3", codes ","); (codes "x", codes " ")]).
  - reflexivity.
  - vm_compute. repeat split; discriminate.
  - reflexivity.
Defined.

Lemma mapTokens_nil toks : mapTokens toks = inr [] ↔ toks = [].
Proof.
  split; [|by intros ->].
  destruct toks as [|t toks]; [done|]. simpl.
  destruct (parseToken t); [done|]. by destruct (mapTokens toks).
Qed.

Lemma allSep_app s u : allSep (s ++ u)%list = allSep s && allSep u.
Proof. apply forallb_app. Qed.

Lemma pieces_nil text : pieces false text = [] ↔ allSep text = true.
Proof.
  destruct (layout_exists text) as (lead & items & Hlead & Hok & ->).
  unfold layout at 1. rewrite pieces_lead, pieces_layout by done.
  unfold layout. rewrite allSep_app, Hlead.
  destruct items as [|[t sep] rest]; [done|].
  destruct Hok as (Hne & Hfree & _). simpl in *.
  split; [done|]. destruct t as [|d t]; [done|].
  simpl in Hfree. apply andb_true_iff in Hfree as [Hd _].
  apply negb_true_iff in Hd. simpl. by rewrite Hd.
Qed.

(** X17.  [parseRefs] returns the empty list, which makes [initSimulation]
    and [runAllCompare] ask for a reference string, exactly for the texts
    that hold nothing but white space and commas. *)
Theorem parseRefs_empty_iff_blank (text : jsstring) :
  parseRefs text = inr [] ↔ allSep text = true.
Proof.
  by rewrite parseRefs_pieces, mapTokens_nil, pieces_nil.
Qed.

Lemma parseToken_inl t m :
  parseToken t = inl m → m = MsgInvalidPage t ∨ m = MsgInvalidPageNumber t.
Proof.
  unfold parseToken. destruct (matchesInteger t); simpl.
  - destruct (Number_ofToken t); intros [= <-]; auto.
  - intros [= <-]; auto.
Qed.

Lemma mapTokens_inr toks vs :
  mapTokens toks = inr vs ↔ Forall2 (λ t v, parseToken t = inr v) toks vs.
Proof.
  revert vs. induction toks as [|t toks IH]; intros vs; simpl.
  - split; [intros [= <-]; constructor|by inversion 1].
  - split.
    + destruct (parseToken t) as [m|v] eqn:Et; [done|].
      destruct (mapTokens toks) as [m|vs'] eqn:Em; [done|].
      intros [= <-]. constructor; [done|by apply IH].
    + inversion 1 as [|? v ? vs' Ht Hrest]; subst. rewrite Ht.
      apply IH in Hrest. by rewrite Hrest.
Qed.

Lemma mapTokens_inl toks m :
  mapTokens toks = inl m ↔
  ∃ k bad, toks !! k = Some bad ∧ parseToken bad = inl m ∧
           ∀ j t, j < k → toks !! j = Some t → ∃ v, parseToken t = inr v.
Proof.
  induction toks as [|t toks IH]; simpl.
  - split; [done|]. by intros (k & bad & Hk & _).
  - destruct (parseToken t) as [m'|v] eqn:Et.
    + split.
      * intros [= ->]. exists 0, t. split_and!; [done|done|intros; lia].
      * intros (k & bad & Hk & Hbad & Hbefore). destruct k as [|k].
        -- injection Hk as <-. congruence.
        -- destruct (Hbefore 0 t ltac:(lia) eq_refl) as [v Hv]. congruence.
    + destruct (mapTokens toks) as [m'|vs] eqn:Em.
      * split.
        -- intros [= ->]. destruct (proj1 IH eq_refl) as (k & bad & Hk & Hbad & Hbefore).
           exists (S k), bad. split_and!; [done|done|].
           intros [|j] t' Hj Ht'; [injection Ht' as <-; eauto|].
           apply (Hbefore j); [lia|done].
        -- intros (k & bad & Hk & Hbad & Hbefore). destruct k as [|k].
           ++ injection Hk as <-. congruence.
           ++ f_equal. assert (inl m' = (inl m : Message + list Z)) as [= ->]; [|done].
              apply IH. exists k, bad. split_and!; [done|done|].
              intros j t' Hj Ht'. apply (Hbefore (S j)); [lia|done].
      * split; [done|].
        intros (k & bad & Hk & Hbad & Hbefore). destruct k as [|k].
        -- injection Hk as <-. congruence.
        -- assert (inr vs = (inl m : Message + list Z)) as [=]. apply IH.
           exists k, bad. split_and!; [done|done|].
           intros j t' Hj Ht'. apply (Hbefore (S j)); [lia|done].
Qed.

(** X18.  Which error [parseRefs] raises.  It returns a list exactly when
    every token passes the integer check and denotes a finite number, one
    page for each token in order; otherwise the message it throws quotes the
    first token that fails, and the tokens after it play no part. *)
Theorem parseRefs_reports_first_bad_token (lead : jsstring)
    (items : list (jsstring * jsstring)) :
  allSep lead = true → layoutOK items →
  (∀ vs, parseRefs (layout lead items) = inr vs ↔
         Forall2 (λ t v, parseToken t = inr v) items.*1 vs) ∧
  (∀ m, parseRefs (layout lead items) = inl m ↔
        ∃ k bad, items.*1 !! k = Some bad ∧ parseToken bad = inl m ∧
                 (m = MsgInvalidPage bad ∨ m = MsgInvalidPageNumber bad) ∧
                 ∀ j t, j < k → items.*1 !! j = Some t →
                        ∃ v, parseToken t = inr v).
Proof.
  intros Hlead Hok.
  assert (parseRefs (layout lead items) = mapTokens items.*1) as ->.
  { rewrite parseRefs_pieces. unfold layout.
    rewrite pieces_lead by done. by rewrite pieces_layout. }
  split.
  - apply mapTokens_inr.
  - intros m. rewrite mapTokens_inl. split.
    + intros (k & bad & Hk & Hbad & Hbefore). exists k, bad.
      split_and!; [done|done|by apply parseToken_inl|done].
    + intros (k & bad & Hk & Hbad & _ & Hbefore). by exists k, bad.
Qed.

Lemma parseRefs_reports_first_bad_token_witness :
  (∀ vs, parseRefs (layout (codes " ")
                      [(codes "1", codes ","); (codes "2x", codes " ");
                       (codes "y", [])]) = inr vs ↔
         Forall2 (λ t v, parseToken t = inr v)
           [(codes "1", codes ","); (codes "2x", codes " "); (codes "y", [])].*1 vs) ∧
  (∀ m, parseRefs (layout (codes " ")
                     [(codes "1", codes ","); (codes "2x", codes " ");
                      (codes "y", [])]) = inl m ↔
        ∃ k bad,
          [(codes "1", codes ","); (codes "2x", codes " "); (codes "y", [])].*1 !! k
          = Some bad ∧ parseToken bad = inl m ∧
          (m = MsgInvalidPage bad ∨ m = MsgInvalidPageNumber bad) ∧
          ∀ j t, j < k →
            [(codes "1", codes ","); (codes "2x", codes " "); (codes "y", [])].*1 !! j
            = Some t → ∃ v, parseToken t = inr v).
Proof.
  apply (parseRefs_reports_first_bad_token (codes " ")
           [(codes "1", codes ","); (codes "2x", codes " "); (codes "y", [])]).
  - reflexivity.
  - simpl. repeat split; try discriminate. intros H. by destruct H.
Defined.

(** ** Reading back integers written in decimal *)

Lemma digitsValue_snoc ds d :
  digitsValue (ds ++ [d])%list = (10 * digitsValue ds + (Z.of_N d - 48))%Z.
Proof. unfold digitsValue. by rewrite foldl_app. Qed.

Lemma isDigit_unit (r : Z) : (0 ≤ r ≤ 9)%Z → isDigit (Z.to_N (48 + r)) = true.
Proof.
  intros Hr. unfold isDigit. apply andb_true_iff.
  split; apply N.leb_le; lia.
Qed.

Lemma digitsOf_spec fuel :
  ∀ n acc, (0 ≤ n < 2 ^ Z.of_nat fuel)%Z → 1 ≤ fuel →
    ∃ ds, digitsOf fuel n acc = (ds ++ acc)%list ∧ ds ≠ [] ∧
          forallb isDigit ds = true ∧ digitsValue ds = n.
Proof.
  induction fuel as [|fuel IH]; intros n acc Hn Hf; [lia|].
  simpl digitsOf. pose proof (Z.mod_pos_bound n 10 ltac:(lia)) as Hr.
  destruct (Z.ltb_spec n 10) as [Hlt|Hge].
  - exists [Z.to_N (48 + n mod 10)]. split_and!; [done|done| |].
    + simpl. rewrite isDigit_unit by lia. done.
    + unfold digitsValue. simpl. rewrite Z.mod_small by lia. lia.
  - assert (1 ≤ n / 10)%Z as Hq by (apply Z.div_le_lower_bound; lia).
    assert (n / 10 < 2 ^ Z.of_nat fuel)%Z as Hq'.
    { apply Z.div_lt_upper_bound; [lia|].
      rewrite Nat2Z.inj_succ, Z.pow_succ_r in Hn by lia. lia. }
    assert (1 ≤ fuel) as Hf'.
    { destruct fuel; [|lia]. simpl in Hq'. lia. }
    destruct (IH (n / 10)%Z (Z.to_N (48 + n mod 10) :: acc) ltac:(lia) Hf')
      as (ds & -> & Hne & Hd & Hv).
    exists (ds ++ [Z.to_N (48 + n mod 10)])%list. split_and!.
    + by rewrite <- app_assoc.
    + by destruct ds.
    + rewrite forallb_app, Hd. simpl. rewrite isDigit_unit by lia. done.
    + rewrite digitsValue_snoc, Hv.
      pose proof (Z.div_mod n 10 ltac:(lia)). lia.
Qed.

Lemma digitsOf_token (n : Z) :
  (0 ≤ n)%Z →
  ∃ d ds, digitsOf (S (Z.to_nat (Z.log2 n))) n [] = d :: ds ∧
          forallb isDigit (d :: ds) = true ∧ digitsValue (d :: ds) = n.
Proof.
  intros Hn.
  destruct (digitsOf_spec (S (Z.to_nat (Z.log2 n))) n []) as (ds & Hds & Hne & Hd & Hv).
  - split; [done|]. rewrite Nat2Z.inj_succ, Z2Nat.id by apply Z.log2_nonneg.
    destruct (Z.eq_dec n 0%Z) as [->|Hz]; [by vm_compute|].
    apply Z.log2_spec. lia.
  - lia.
  - rewrite app_nil_r in Hds. destruct ds as [|d ds]; [done|]. by exists d, ds.
Qed.

Lemma isDigit_not_sep c : isDigit c = true → isSep c = false.
Proof.
  unfold isDigit, isSep, isSpace. intros Hc.
  apply andb_true_iff in Hc as [H1 H2].
  apply N.leb_le in H1. apply N.leb_le in H2.
  repeat match goal with
         | |- context [(?a <=? ?b)%N] => destruct (N.leb_spec a b); try lia
         | |- context [(?a =? ?b)%N] => destruct (N.eqb_spec a b); try lia
         end.
  all: done.
Qed.

Lemma digits_sepFree ds : forallb isDigit ds = true → sepFree ds = true.
Proof.
  induction ds as [|d ds IH]; [done|]. simpl.
  intros [Hd Hds]%andb_true_iff.
  by rewrite (isDigit_not_sep d Hd), IH.
Qed.

Lemma decimal_token (z : Z) :
  (Z.abs z < 2 ^ 53)%Z →
  decimal z ≠ [] ∧ sepFree (decimal z) = true ∧ parseToken (decimal z) = inr z.
Proof.
  intros Hz. unfold decimal.
  destruct (Z.ltb_spec z 0) as [Hneg|Hpos].
  - destruct (digitsOf_token (- z)) as (d & ds & -> & Hd & Hv); [lia|].
    split_and!; [done| |].
    + change (sepFree (45%N :: d :: ds)) with (sepFree (d :: ds)).
      by apply digits_sepFree.
    + unfold parseToken, matchesInteger, digits1, Number_ofToken, tokenValue.
      rewrite Hd, Hv. simpl negb. cbv iota.
      change ((45 =? 45)%N) with true. cbv iota.
      unfold roundMagnitude.
      destruct (Z.ltb_spec (Z.abs (- - z)) (2 ^ 53)) as [_|?]; [|lia].
      destruct (Z.leb_spec (2 ^ 1024) (Z.abs (- - z))) as [Hbig|_].
      * assert (2 ^ 53 < 2 ^ 1024)%Z by (apply Z.pow_lt_mono_r; lia). lia.
      * f_equal. lia.
  - destruct (digitsOf_token z Hpos) as (d & ds & -> & Hd & Hv).
    split_and!; [done|by apply digits_sepFree|].
    assert (isDigit d = true) as Hd1.
    { simpl in Hd. by apply andb_true_iff in Hd as [? _]. }
    assert ((d =? 45)%N = false ∧ (d =? 43)%N = false) as [H45 H43].
    { unfold isDigit in Hd1. apply andb_true_iff in Hd1 as [H1 _].
      apply N.leb_le in H1. split; apply N.eqb_neq; lia. }
    unfold parseToken, matchesInteger, digits1, Number_ofToken, tokenValue.
    rewrite H45, H43, Hd, Hv. simpl negb. cbv iota.
    unfold roundMagnitude.
    destruct (Z.ltb_spec (Z.abs z) (2 ^ 53)) as [_|?]; [|lia].
    destruct (Z.leb_spec (2 ^ 1024) (Z.abs z)) as [Hbig|_].
    + assert (2 ^ 53 < 2 ^ 1024)%Z by (apply Z.pow_lt_mono_r; lia). lia.
    + f_equal. lia.
Qed.

Lemma written_layoutOK (items : list (Z * jsstring)) :
  Forall (λ it, (Z.abs it.1 < 2 ^ 53)%Z ∧ allSep it.2 = true) items →
  (∀ i it, items !! i = Some it → S i < length items → it.2 ≠ []) →
  layoutOK (written items) ∧
  mapTokens (written items).*1 = inr items.*1.
Proof.
  induction 1 as [|[z sep] items [Hz Hsep] _ IH]; intros Hbetween; [done|].
  destruct IH as [IHok IHmap].
  { intros i it Hi Hlt. apply (Hbetween (S i) it); [done|simpl; lia]. }
  destruct (decimal_token z Hz) as (Hne & Hfree & Htok).
  split.
  - unfold written. rewrite fmap_cons. cbn [layoutOK fst snd].
    split_and!; [done|done|done| |done].
    intros Hrest. apply (Hbetween 0 (z, sep)); [done|].
    destruct items; [done|simpl; lia].
  - unfold written in *. rewrite !fmap_cons. cbn [mapTokens fst snd].
    by rewrite Htok, IHmap.
Qed.

(** X19.  [parseRefs] reads back what is written in decimal.  For integers
    below [2^53] in magnitude, each written in decimal and followed by white
    space and commas (at least one character, except after the last), after
    any leading white space and commas, [parseRefs] returns exactly these
    integers in their order. *)
Theorem parseRefs_reads_decimal (lead : jsstring) (items : list (Z * jsstring)) :
  allSep lead = true →
  Forall (λ it, (Z.abs it.1 < 2 ^ 53)%Z ∧ allSep it.2 = true) items →
  (∀ i it, items !! i = Some it → S i < length items → it.2 ≠ []) →
  parseRefs (layout lead (written items)) = inr items.*1.
Proof.
  intros Hlead Hitems Hbetween.
  destruct (written_layoutOK items Hitems Hbetween) as [Hok Hmap].
  rewrite parseRefs_pieces. unfold layout.
  rewrite pieces_lead by done. by rewrite pieces_layout.
Qed.

Lemma parseRefs_reads_decimal_witness :
  parseRefs (layout (codes ", ")
               (written [(70%Z, codes " ,"); ((-3)%Z, codes " "); (0%Z, [])]))
  = inr [(70%Z, codes " ,"); ((-3)%Z, codes " "); (0%Z, [])].*1.
Proof.
  apply (parseRefs_reads_decimal (codes ", ")
           [(70%Z, codes " ,"); ((-3)%Z, codes " "); (0%Z, [])]).
  - reflexivity.
  - repeat constructor; simpl; lia.
  - intros [|[|[|i]]] it Hi Hlt; simpl in *; try lia;
      injection Hi as <-; discriminate.
Defined.

(** ** The controller *)

Lemma simulate_Ok_inv algo v refs o :
  simulate algo v refs = Ok o →
  ∃ c, isCapacity v c ∧ (1 ≤ c ≤ 50)%Z ∧ refs ≠ [] ∧ knownPolicy algo ∧
       wellFormed (Z.to_nat c) refs o.
Proof.
  intros Ho. destruct (capacityCheck v) eqn:Ecap.
  2:{ by rewrite simulate_checks, Ecap in Ho. }
  destruct (capacityCheck_valid v Ecap) as (c & Hcap & Hc).
  destruct refs as [|r refs'].
  { by rewrite simulate_checks, Ecap in Ho. }
  destruct (decide (knownPolicy algo)) as [Hk|Hk].
  - destruct (simulate_run algo v c (r :: refs') Hk Hcap Hc ltac:(done))
      as (o' & Ho' & Hwf & _).
    rewrite Ho in Ho'. injection Ho' as <-. by exists c.
  - assert (String.eqb algo "FIFO" = false ∧ String.eqb algo "LRU" = false ∧
            String.eqb algo "OPT" = false ∧ String.eqb algo "CLOCK" = false)
      as (E1 & E2 & E3 & E4).
    { unfold knownPolicy in Hk.
      split_and!; apply String.eqb_neq; intros ->; apply Hk; auto. }
    by rewrite simulate_checks, Ecap, E1, E2, E3, E4 in Ho.
Qed.

Lemma parseFramesCount_Ok_inv n field v :
  parseFramesCount n = Ok (field, v) →
  field = v ∧ ∃ c, isCapacity v c ∧ (1 ≤ c ≤ 50)%Z.
Proof.
  unfold parseFramesCount. destruct n as [q|]; [|done].
  destruct (Number_isInteger (JsFinite q)) eqn:Ei; [|done].
  simpl. intros [= <- <-]. split; [done|].
  destruct (isInteger_isCapacity q Ei) as (z & q' & [= <-] & Hq).
  destruct (clamp_capacity q z Hq) as [Hc _].
  exists (Z.max 1 (Z.min 50 z)). split; [by eexists|lia].
Qed.

Lemma applyOneStep_shows p o s field framesCount rows :
  Controller.sim p = Some o →
  steps o !! Controller.stepIndex p = Some s →
  parseFramesCount (Controller.framesField p) = Ok (field, framesCount) →
  Controller.simBody p = Some rows →
  Controller.applyOneStep p =
  let k := S (Controller.stepIndex p) in
  let last := length (steps o) <=? k in
  Controller.mkPage (Some o) k
    (if last then false else Controller.timerOn p) field
    (if last then true else Controller.stepDisabled p)
    (if last then true else Controller.playDisabled p)
    (if last then true else Controller.pauseDisabled p)
    (Some (rows ++ [Controller.tableRow (toCount framesCount)
                      (Controller.stepIndex p) s])%list)
    (countHits (take k (steps o)), countFaults (take k (steps o))).
Proof.
  destruct p as [sim idx timer fld sOff pOff paOff body cnt]. simpl.
  intros -> Hs Hpf ->.
  pose proof (lookup_lt_Some _ _ _ Hs) as Hlt.
  unfold Controller.applyOneStep. simpl.
  destruct (Nat.leb_spec (length (steps o)) idx) as [?|_]; [lia|].
  rewrite Hpf. simpl. rewrite Hs. simpl.
  unfold Controller.updateStats. simpl.
  rewrite countShown_take by lia.
  cbn -[Nat.leb countHits countFaults take toCount Controller.tableRow].
  by destruct (length (steps o) <=? S idx).
Qed.

Lemma showsFirst_snoc k o rows s framesCount :
  showsFirst k o rows → steps o !! k = Some s →
  showsFirst (S k) o (rows ++ [Controller.tableRow framesCount k s])%list.
Proof.
  intros [Hrec Hno] Hs. split.
  - by rewrite fmap_app, Hrec, (take_S_r _ _ _ Hs).
  - rewrite fmap_app, Hno, seq_S. f_equal. simpl. f_equal. lia.
Qed.

Lemma inv_stopTimer p : pageInv p → pageInv (Controller.stopTimer p).
Proof.
  destruct p as [sim idx timer fld sOff pOff paOff body cnt].
  unfold pageInv, Controller.stopTimer, Controller.stepsLeft. simpl.
  destruct sim as [o|].
  - intros (Hrun & Hle & Hrows & Hcnt & Hpa & Htm & Hleft).
    split_and!; [done|done|done|done|done|done|].
    intros [Hs | [Hp | ?]]; [|by apply negb_false_iff, Nat.ltb_lt in Hp|done].
    destruct timer; [by destruct (Htm eq_refl) as [-> _]|]. apply Hleft. auto.
  - by intros (-> & _ & -> & _ & _).
Qed.

Lemma inv_withFrames v p : pageInv p → pageInv (Controller.withFrames v p).
Proof. by destruct p. Qed.

Lemma inv_catchInit p : pageInv (Controller.catchInit p).
Proof. by destruct p. Qed.

Lemma inv_applyOneStep p : pageInv p → pageInv (Controller.applyOneStep p).
Proof.
  intros Hinv. destruct (Controller.sim p) as [o|] eqn:Esim.
  2:{ unfold Controller.applyOneStep. by rewrite Esim. }
  destruct (Nat.leb_spec (length (steps o)) (Controller.stepIndex p)) as [Hend|Hlt].
  - unfold Controller.applyOneStep. rewrite Esim.
    apply Nat.leb_le in Hend as Hend'. rewrite Hend'.
    apply inv_stopTimer in Hinv.
    destruct p as [sim idx timer fld sOff pOff paOff body cnt].
    unfold pageInv, Controller.stopTimer, Controller.stepsLeft in *.
    simpl in *. subst sim.
    destruct Hinv as (Hrun & Hle & Hrows & Hcnt & Hpa & Htm & Hleft).
    split_and!; [done|done|done|done|done|done|].
    intros [? | [? | ?]]; done.
  - destruct (parseFramesCount (Controller.framesField p)) as [[field fc]| |] eqn:Epf;
      try (unfold Controller.applyOneStep; rewrite Esim;
           apply Nat.leb_gt in Hlt as Hlt'; by rewrite Hlt', Epf).
    destruct (lookup_lt_is_Some_2 _ _ Hlt) as [s Hs].
    unfold pageInv in Hinv. rewrite Esim in Hinv.
    destruct Hinv as (Hrun & Hle & (rows & Hbody & Hrows) & Hcnt & Hpa & Htm & Hleft).
    rewrite (applyOneStep_shows p o s field fc rows Esim Hs Epf Hbody).
    unfold pageInv. cbn [Controller.sim Controller.stepIndex Controller.timerOn
      Controller.stepDisabled Controller.playDisabled Controller.pauseDisabled
      Controller.simBody Controller.counters].
    split_and!; [done|lia| |done| | |].
    + eexists. split; [done|]. by apply showsFirst_snoc.
    + by destruct (length (steps o) <=? S (Controller.stepIndex p)).
    + by destruct (length (steps o) <=? S (Controller.stepIndex p)).
    + destruct (Nat.leb_spec (length (steps o)) (S (Controller.stepIndex p)));
        [intros [? | [? | ?]]; done|]. intros _. lia.
Qed.

Lemma inv_initSimulation algo refText p :
  pageInv p → pageInv (Controller.initSimulation algo refText p).
Proof.
  intros Hinv%inv_stopTimer. unfold Controller.initSimulation.
  set (p0 := Controller.stopTimer p) in *.
  assert (Controller.timerOn p0 = false) as Htimer by by destruct p.
  clearbody p0.
  destruct (parseFramesCount (Controller.framesField p0)) as [[field fc]| |] eqn:Epf;
    [|apply inv_catchInit|apply inv_catchInit].
  destruct (parseFramesCount_Ok_inv _ _ _ Epf) as (-> & c & Hc & Hrange).
  destruct (parseRefs refText) as [m|refs]; [apply inv_catchInit|].
  destruct (length refs =? 0); [by apply inv_withFrames|].
  destruct (simulate algo fc refs) as [o| |] eqn:Ho;
    [|apply inv_catchInit|apply inv_catchInit].
  destruct (simulate_Ok_inv _ _ _ _ Ho) as (c' & Hc' & Hrange' & Hrefs & Hk & Hwf).
  destruct p0 as [sim idx timer fld sOff pOff paOff body cnt].
  simpl in Htimer. subst timer.
  unfold Controller.updateStats, pageInv. simpl.
  pose proof (wf_length _ _ _ Hwf) as Hlen.
  split_and!; [by exists algo, fc, c', refs|lia| |reflexivity|done|done|].
  - by exists [].
  - intros _. rewrite Hlen. destruct refs; [done|simpl; lia].
Qed.

Lemma inv_play p : pageInv p → pageInv (Controller.play p).
Proof.
  destruct p as [sim idx timer fld sOff pOff paOff body cnt].
  unfold pageInv, Controller.play. simpl.
  destruct sim as [o|]; [|done].
  destruct timer; [done|].
  destruct (Nat.leb_spec (length (steps o)) idx); [done|]. simpl.
  intros (Hrun & Hle & Hrows & Hcnt & Hpa & Htm & Hleft).
  by split_and!.
Qed.

Lemma inv_tick p : pageInv p → pageInv (Controller.tick p).
Proof.
  intros Hinv. unfold Controller.tick.
  destruct (Controller.sim p) as [o|] eqn:Esim; [|by apply inv_stopTimer].
  destruct (Nat.leb_spec (length (steps o)) (Controller.stepIndex p)) as [Hend|Hlt];
    [|by apply inv_applyOneStep].
  apply inv_stopTimer in Hinv.
  destruct p as [sim idx timer fld sOff pOff paOff body cnt].
  unfold pageInv, Controller.stopTimer, Controller.stepsLeft in *.
  simpl in *. subst sim.
  destruct Hinv as (Hrun & Hle & Hrows & Hcnt & Hpa & Htm & Hleft).
  split_and!; [done|done|done|done|done|done|].
  intros [? | [Hp | ?]]; [done| |done].
  apply negb_false_iff, Nat.ltb_lt in Hp. lia.
Qed.

Lemma inv_pause p : pageInv p → pageInv (Controller.pause p).
Proof.
  intros Hinv%inv_stopTimer. unfold Controller.pause.
  set (p0 := Controller.stopTimer p) in *.
  assert (Controller.timerOn p0 = false) as Htimer by by destruct p.
  clearbody p0.
  destruct p0 as [sim idx timer fld sOff pOff paOff body cnt].
  unfold pageInv, Controller.stepsLeft in *. simpl in *. subst timer.
  destruct sim as [o|].
  - destruct Hinv as (Hrun & Hle & Hrows & Hcnt & Hpa & Htm & Hleft).
    split_and!; [done|done|done|done|done|done|].
    intros [Hs | [Hp | ?]]; [|by apply Hleft; auto|done].
    by apply negb_false_iff, Nat.ltb_lt in Hs.
  - by destruct Hinv as (-> & _ & _ & -> & ->).
Qed.

Lemma inv_resetAll p : pageInv (Controller.resetAll p).
Proof. by destruct p. Qed.

Lemma inv_runAllCompare p : pageInv p → pageInv (Controller.runAllCompare p).
Proof.
  intros Hinv%inv_stopTimer. unfold Controller.runAllCompare.
  destruct (parseFramesCount _) as [[field fc]| |]; [|done|done].
  by apply inv_withFrames.
Qed.

Lemma inv_loaded field body shown b1 b2 b3 :
  pageInv (Controller.loaded field body shown b1 b2 b3).
Proof. done. Qed.

Lemma reachable_inv p : reachable p → pageInv p.
Proof.
  induction 1 as [|e p _ IH]; [apply inv_loaded|].
  destruct e; simpl.
  - by apply inv_initSimulation.
  - by apply inv_applyOneStep.
  - by apply inv_play.
  - by apply inv_pause.
  - apply inv_resetAll.
  - by apply inv_runAllCompare.
  - by apply inv_tick.
  - by apply inv_withFrames.
Qed.

(** X20.  What the page shows, after any sequence of clicks, timer
    callbacks and edits of the frames field.  While there is a simulation,
    it is a result of [simulate], the step table holds one row for each of
    its first [stepIndex] records, in order and numbered from 1, and the two
    counters are the hits and faults among exactly these records: they add
    up to [stepIndex], and the loop of [updateStats] never reads past the
    last record.  While there is none, the position is 0, no timer is set
    and Step, Play and Pause are disabled. *)
Theorem page_shows_the_run_so_far (p : Controller.Page) :
  reachable p →
  (∀ o, Controller.sim p = Some o →
     (∃ algo v refs, simulate algo v refs = Ok o) ∧
     Controller.stepIndex p ≤ length (steps o) ∧
     (∃ rows, Controller.simBody p = Some rows ∧
              Controller.trRecord <$> rows = take (Controller.stepIndex p) (steps o) ∧
              Controller.trStep <$> rows = seq 1 (Controller.stepIndex p)) ∧
     countShown (steps o) (Controller.stepIndex p) = Some (Controller.counters p) ∧
     (Controller.counters p).1 + (Controller.counters p).2 = Controller.stepIndex p) ∧
  (Controller.sim p = None →
     Controller.stepIndex p = 0 ∧ Controller.timerOn p = false ∧
     Controller.stepDisabled p = true ∧ Controller.playDisabled p = true ∧
     Controller.pauseDisabled p = true).
Proof.
  intros Hinv%reachable_inv. unfold pageInv in Hinv.
  destruct (Controller.sim p) as [o|]; [|done].
  split; [|done]. intros ? [= <-].
  destruct Hinv as ((algo & v & c & refs & Ho & Hc & Hrange & Hwf) & Hle & Hrows
                    & Hcnt & _).
  split_and!; [by eauto|done|done| |].
  - by rewrite countShown_take, Hcnt.
  - rewrite Hcnt. simpl. rewrite counts_add.
    + rewrite length_take. lia.
    + intros s Hs. apply (wf_flags _ _ _ Hwf).
      apply elem_of_take in Hs as (i & Hi & _).
      by eapply list_elem_of_lookup_2.
Qed.

Lemma page_shows_the_run_so_far_witness :
  (∀ o, Controller.sim pageStepped = Some o →
     (∃ algo v refs, simulate algo v refs = Ok o) ∧
     Controller.stepIndex pageStepped ≤ length (steps o) ∧
     (∃ rows, Controller.simBody pageStepped = Some rows ∧
              Controller.trRecord <$> rows
              = take (Controller.stepIndex pageStepped) (steps o) ∧
              Controller.trStep <$> rows = seq 1 (Controller.stepIndex pageStepped)) ∧
     countShown (steps o) (Controller.stepIndex pageStepped)
     = Some (Controller.counters pageStepped) ∧
     (Controller.counters pageStepped).1 + (Controller.counters pageStepped).2
     = Controller.stepIndex pageStepped) ∧
  (Controller.sim pageStepped = None →
     Controller.stepIndex pageStepped = 0 ∧ Controller.timerOn pageStepped = false ∧
     Controller.stepDisabled pageStepped = true ∧
     Controller.playDisabled pageStepped = true ∧
     Controller.pauseDisabled pageStepped = true).
Proof.
  apply (page_shows_the_run_so_far pageStepped).
  unfold pageStepped. do 2 apply reach_event. apply reach_loaded.
Defined.

(** X21.  The controls that can be used have work to do.  On any page the
    handlers can produce: a Step button that is enabled, or a timer that is
    set, finds a record to show (the "Done" branch of [applyOneStep] and the
    two early exits of the timer callback are never taken); it then moves
    the position on by exactly one if the frames field reads an integer, and
    otherwise [parseFramesCount] throws and nothing changes.  An enabled
    Play button finds a simulation with steps left and no timer set, and
    sets one.  The timer is set exactly while Pause is enabled, and Step and
    Play are disabled for that time. *)
Theorem enabled_controls_have_work (p : Controller.Page) :
  reachable p →
  (∀ e, e = Controller.StepClick ∨ e = Controller.Tick →
        Controller.enabled e p = true →
        (∃ o s, Controller.sim p = Some o ∧
                steps o !! Controller.stepIndex p = Some s) ∧
        ((∃ z, isCapacity (Controller.framesField p) z) →
           Controller.stepIndex (Controller.handle e p) = S (Controller.stepIndex p)) ∧
        ((¬ ∃ z, isCapacity (Controller.framesField p) z) →
           Controller.handle e p = p)) ∧
  (Controller.enabled Controller.PlayClick p = true →
     (∃ o, Controller.sim p = Some o ∧
           Controller.stepIndex p < length (steps o)) ∧
     Controller.timerOn p = false ∧
     Controller.timerOn (Controller.handle Controller.PlayClick p) = true) ∧
  Controller.enabled Controller.PauseClick p = Controller.timerOn p ∧
  (Controller.timerOn p = true →
     Controller.stepDisabled p = true ∧ Controller.playDisabled p = true).
Proof.
  intros Hinv%reachable_inv.
  assert (Controller.stepDisabled p = false ∨ Controller.timerOn p = true →
          ∃ o s rows, Controller.sim p = Some o ∧
                      steps o !! Controller.stepIndex p = Some s ∧
                      Controller.simBody p = Some rows) as Hwork.
  { intros Hen. unfold pageInv in Hinv.
    destruct (Controller.sim p) as [o|].
    - destruct Hinv as (_ & _ & (rows & Hrows & _) & _ & _ & _ & Hleft).
      destruct (lookup_lt_is_Some_2 (steps o) (Controller.stepIndex p)) as [s Hs].
      { apply Hleft. tauto. }
      by exists o, s, rows.
    - destruct Hinv as (_ & Ht & Hs & _). rewrite Ht, Hs in Hen.
      by destruct Hen. }
  split_and!.
  - intros e He Hen.
    destruct Hwork as (o & s & rows & Ho & Hs & Hrows).
    { destruct He as [-> | ->]; simpl in Hen; [left|by right].
      by apply negb_true_iff. }
    assert (Controller.handle e p = Controller.applyOneStep p) as ->.
    { destruct He as [-> | ->]; [done|]. simpl. unfold Controller.tick.
      rewrite Ho. pose proof (lookup_lt_Some _ _ _ Hs) as Hlt.
      apply Nat.leb_gt in Hlt. by rewrite Hlt. }
    split_and!; [by eauto| |].
    + intros [z Hz]. destruct (parseFramesCount_ok _ z Hz) as (v & Hpf & _).
      by rewrite (applyOneStep_shows p o s v v rows Ho Hs Hpf Hrows).
    + intros Hn. unfold Controller.applyOneStep. rewrite Ho.
      pose proof (lookup_lt_Some _ _ _ Hs) as Hlt.
      apply Nat.leb_gt in Hlt. rewrite Hlt.
      destruct (parseFramesCount (Controller.framesField p)) as [[f v]| |] eqn:Epf;
        [|done|done].
      exfalso. apply Hn. unfold parseFramesCount in Epf.
      destruct (Controller.framesField p) as [q|]; [|done].
      destruct (Number_isInteger (JsFinite q)) eqn:Ei; [|done].
      by apply isInteger_isCapacity.
  - simpl. intros Hen%negb_true_iff. unfold pageInv in Hinv.
    destruct p as [sim idx timer fld sOff pOff paOff body cnt]. simpl in *. subst pOff.
    destruct sim as [o|]; [|by destruct Hinv as (_ & _ & _ & ? & _)].
    destruct Hinv as (_ & _ & _ & _ & _ & Htm & Hleft).
    specialize (Hleft ltac:(auto)).
    destruct timer; [by destruct (Htm eq_refl)|].
    split_and!; [by eauto|done|].
    unfold Controller.play. simpl.
    apply Nat.leb_gt in Hleft. by rewrite Hleft.
  - simpl. unfold pageInv in Hinv. destruct (Controller.sim p).
    + destruct Hinv as (_ & _ & _ & _ & -> & _). by rewrite negb_involutive.
    + by destruct Hinv as (_ & -> & _ & _ & ->).
  - unfold pageInv in Hinv. destruct (Controller.sim p).
    + by destruct Hinv as (_ & _ & _ & _ & _ & Htm & _).
    + destruct Hinv as (_ & -> & _). done.
Qed.

Lemma enabled_controls_have_work_witness :
  (∀ e, e = Controller.StepClick ∨ e = Controller.Tick →
        Controller.enabled e pagePlaying = true →
        (∃ o s, Controller.sim pagePlaying = Some o ∧
                steps o !! Controller.stepIndex pagePlaying = Some s) ∧
        ((∃ z, isCapacity (Controller.framesField pagePlaying) z) →
           Controller.stepIndex (Controller.handle e pagePlaying)
           = S (Controller.stepIndex pagePlaying)) ∧
        ((¬ ∃ z, isCapacity (Controller.framesField pagePlaying) z) →
           Controller.handle e pagePlaying = pagePlaying)) ∧
  (Controller.enabled Controller.PlayClick pagePlaying = true →
     (∃ o, Controller.sim pagePlaying = Some o ∧
           Controller.stepIndex pagePlaying < length (steps o)) ∧
     Controller.timerOn pagePlaying = false ∧
     Controller.timerOn (Controller.handle Controller.PlayClick pagePlaying) = true) ∧
  Controller.enabled Controller.PauseClick pagePlaying
  = Controller.timerOn pagePlaying ∧
  (Controller.timerOn pagePlaying = true →
     Controller.stepDisabled pagePlaying = true ∧
     Controller.playDisabled pagePlaying = true).
Proof.
  apply (enabled_controls_have_work pagePlaying).
  unfold pagePlaying. do 2 apply reach_event. apply reach_loaded.
Defined.

(** ** Stepping through a run *)

Lemma cells_frames (l : list (option Z)) :
  map (λ j, Controller.formatCell (l !! j)) (seq 0 (length l)) = l.
Proof.
  induction l as [|x l IH]; [done|].
  simpl. rewrite <- seq_shift, map_map. simpl. rewrite IH.
  by destruct x.
Qed.

Lemma parseFramesCount_again n z :
  isCapacity n z →
  ∃ v, parseFramesCount n = Ok (v, v) ∧ isCapacity v (Z.max 1 (Z.min 50 z)) ∧
       parseFramesCount v = Ok (v, v).
Proof.
  intros Hz. pose proof (isCapacity_isInteger n z Hz) as Hi.
  destruct Hz as (q & -> & Hq).
  destruct (clamp_capacity q z Hq) as [Hc Hidem].
  assert (isCapacity (JsFinite (clamp q 1 50)) (Z.max 1 (Z.min 50 z))) as Hcap
    by by eexists.
  exists (JsFinite (clamp q 1 50)).
  unfold parseFramesCount at 1. rewrite Hi. split_and!; [done|done|].
  unfold parseFramesCount. rewrite (isCapacity_isInteger _ _ Hcap). simpl.
  by rewrite Hidem.
Qed.

Lemma rowsOf_snoc ss s :
  rowsOf (ss ++ [s])
  = (rowsOf ss ++ [Controller.mkTableRow (length ss + 1) s (frames s)])%list.
Proof.
  unfold rowsOf. rewrite imap_app. simpl. by rewrite Nat.add_0_r.
Qed.

Lemma stepped_state p algo refText z refs v o k :
  isCapacity (Controller.framesField p) z →
  parseFramesCount (Controller.framesField p) = Ok (v, v) →
  parseFramesCount v = Ok (v, v) →
  isCapacity v (Z.max 1 (Z.min 50 z)) →
  parseRefs refText = inr refs →
  simulate algo v refs = Ok o →
  wellFormed (Z.to_nat (Z.max 1 (Z.min 50 z))) refs o →
  refs ≠ [] → k ≤ length refs →
  stepped algo refText k p =
  Controller.mkPage (Some o) k false v
    (k =? length refs) (k =? length refs) true
    (Some (rowsOf (take k (steps o))))
    (countHits (take k (steps o)), countFaults (take k (steps o))).
Proof.
  intros Hz Hpf Hpf' Hv Hparse Ho Hwf Hrefs.
  pose proof (wf_length _ _ _ Hwf) as Hlen.
  unfold stepped. induction k as [|k IH]; intros Hk.
  - simpl. unfold Controller.initSimulation.
    assert (Controller.framesField (Controller.stopTimer p) = Controller.framesField p)
      as -> by by destruct p.
    rewrite Hpf, Hparse. destruct refs as [|r refs']; [done|].
    simpl length. simpl Nat.eqb. cbv iota. rewrite Ho.
    by destruct p.
  - simpl Nat.iter. rewrite IH by lia.
    destruct (lookup_lt_is_Some_2 (steps o) k ltac:(lia)) as [s Hs].
    rewrite (applyOneStep_shows _ o s v v (rowsOf (take k (steps o))));
      [|done|done|done|done].
    cbn [Controller.stepIndex Controller.timerOn Controller.stepDisabled
         Controller.playDisabled Controller.pauseDisabled].
    assert (toCount v = length (frames s)) as Hcells.
    { rewrite (toCount_capacity v _ Hv).
      symmetry. apply (wf_tables _ _ _ Hwf). by eapply list_elem_of_lookup_2. }
    assert ((k =? length refs) = false) as -> by (apply Nat.eqb_neq; lia).
    assert ((length (steps o) <=? S k) = (S k =? length refs)) as ->.
    { rewrite Hlen. destruct (Nat.leb_spec (length refs) (S k)),
        (Nat.eqb_spec (S k) (length refs)); lia || done. }
    f_equal; try by destruct (S k =? length refs).
    rewrite (take_S_r _ _ _ Hs), rowsOf_snoc. do 3 f_equal.
    unfold Controller.tableRow. rewrite length_take, Hcells, cells_frames.
    f_equal. lia.
Qed.

(** X22.  Stepping through a run.  After a click on Init with a frames
    field that reads an integer, a selected policy and a reference text
    that parses to a non-empty list, [k] clicks on Step (the frames field
    left alone) leave the page at position [k] of the run that [simulate]
    returns for the clamped capacity: the table holds a row for each of the
    first [k] records, numbered from 1, whose frame cells are the cells of
    that record's own frame table; the counters are the hits and faults so
    far; Step and Play stay enabled until the last record is shown, and
    from then on another step changes nothing. *)
Theorem stepping_shows_every_record (p : Controller.Page) (algo : string)
    (refText : jsstring) (z : Z) (refs : list Z) :
  knownPolicy algo → isCapacity (Controller.framesField p) z →
  parseRefs refText = inr refs → refs ≠ [] →
  ∃ v o,
    isCapacity v (Z.max 1 (Z.min 50 z)) ∧ simulate algo v refs = Ok o ∧
    ∀ k, k ≤ length refs →
      Controller.sim (stepped algo refText k p) = Some o ∧
      Controller.stepIndex (stepped algo refText k p) = k ∧
      Controller.framesField (stepped algo refText k p) = v ∧
      Controller.simBody (stepped algo refText k p)
      = Some (rowsOf (take k (steps o))) ∧
      countShown (steps o) k = Some (Controller.counters (stepped algo refText k p)) ∧
      Controller.timerOn (stepped algo refText k p) = false ∧
      Controller.stepDisabled (stepped algo refText k p) = (k =? length refs) ∧
      Controller.playDisabled (stepped algo refText k p) = (k =? length refs) ∧
      (k = length refs →
         Controller.applyOneStep (stepped algo refText k p)
         = stepped algo refText k p).
Proof.
  intros Hk Hz Hparse Hrefs.
  destruct (parseFramesCount_again _ z Hz) as (v & Hpf & Hv & Hpf').
  destruct (simulate_run algo v _ refs Hk Hv ltac:(lia) Hrefs) as (o & Ho & Hwf & _).
  exists v, o. split_and!; [done|done|]. intros k Hkl.
  rewrite (stepped_state p algo refText z refs v o k Hz Hpf Hpf' Hv Hparse Ho Hwf
             Hrefs Hkl).
  cbn [Controller.sim Controller.stepIndex Controller.framesField Controller.simBody
       Controller.counters Controller.timerOn Controller.stepDisabled
       Controller.playDisabled].
  pose proof (wf_length _ _ _ Hwf) as Hlen.
  split_and!; [done|done|done|done| |done|done|done|].
  - apply countShown_take. lia.
  - intros ->. unfold Controller.applyOneStep.
    cbn [Controller.sim Controller.stepIndex].
    rewrite Hlen, Nat.leb_refl, Nat.eqb_refl.
    unfold Controller.stopTimer, Controller.stepsLeft. simpl.
    by rewrite Hlen, Nat.ltb_irrefl.
Qed.

Lemma stepping_shows_every_record_witness :
  ∃ v o,
    isCapacity v (Z.max 1 (Z.min 50 2)) ∧ simulate "LRU" v [1; 2; 1]%Z = Ok o ∧
    ∀ k, k ≤ length [1; 2; 1]%Z →
      Controller.sim (stepped "LRU" (codes "1 2 1") k pagePlaying) = Some o ∧
      Controller.stepIndex (stepped "LRU" (codes "1 2 1") k pagePlaying) = k ∧
      Controller.framesField (stepped "LRU" (codes "1 2 1") k pagePlaying) = v ∧
      Controller.simBody (stepped "LRU" (codes "1 2 1") k pagePlaying)
      = Some (rowsOf (take k (steps o))) ∧
      countShown (steps o) k
      = Some (Controller.counters (stepped "LRU" (codes "1 2 1") k pagePlaying)) ∧
      Controller.timerOn (stepped "LRU" (codes "1 2 1") k pagePlaying) = false ∧
      Controller.stepDisabled (stepped "LRU" (codes "1 2 1") k pagePlaying)
      = (k =? length [1; 2; 1]%Z) ∧
      Controller.playDisabled (stepped "LRU" (codes "1 2 1") k pagePlaying)
      = (k =? length [1; 2; 1]%Z) ∧
      (k = length [1; 2; 1]%Z →
         Controller.applyOneStep (stepped "LRU" (codes "1 2 1") k pagePlaying)
         = stepped "LRU" (codes "1 2 1") k pagePlaying).
Proof.
  apply (stepping_shows_every_record pagePlaying "LRU" (codes "1 2 1") 2
           [1; 2; 1]%Z).
  - right. left. reflexivity.
  - exists (inject_Z 2). split; reflexivity.
  - vm_compute. reflexivity.
  - discriminate.
Defined.

(** ** LRU and the capacity *)

Lemma lruPair_step c c' refs i p st st' st1 st1' s s' :
  c ≤ c' → lruPair c c' refs i st st' → refs !! i = Some p →
  lruBody c i p st = Ok (st1, s) → lruBody c' i p st' = Ok (st1', s') →
  lruPair c c' refs (S i) st1 st1' ∧ (hit s = true → hit s' = true).
Proof.
  intros Hcc (HI & HI' & Hst & Hst' & Hsub & Hsame) Hp Hb Hb'.
  destruct (lruBody_decision c i p st st1 s HI Hb) as [HI1 Hd].
  destruct (lruBody_decision c' i p st' st1' s' HI' Hb') as [HI1' Hd'].
  pose proof (lruBody_stamps c refs i p st st1 s HI Hst Hp Hb) as Hst1.
  pose proof (lruBody_stamps c' refs i p st' st1' s' HI' Hst' Hp Hb') as Hst1'.
  assert (lruPair c c' refs (S i) st1 st1' ↔
          (∀ q, Some q ∈ lruFrames st1 → Some q ∈ lruFrames st1') ∧
          (None ∈ lruFrames st1 →
             ∀ q, Some q ∈ lruFrames st1' → Some q ∈ lruFrames st1)) as Hpair.
  { unfold lruPair. tauto. }
  pose proof HI as HIc. pose proof HI' as HIc'.
  destruct HI as (Hlen & Hfc & Hnd & Htr).
  destruct HI' as (Hlen' & Hfc' & Hnd' & Htr').
  remember (lruFrames st) as fr eqn:Efr in *.
  remember (lruFrames st') as fr' eqn:Efr' in *.
  remember (lruFrames st1) as fr1 eqn:Efr1 in *.
  remember (lruFrames st1') as fr1' eqn:Efr1' in *.
  clear Efr1 Efr1' HI1 HI1' Htr Htr'.
  destruct Hd as [h Hh Hfr1 Hhit _ _ _|e Hmiss He Hfr1 Hhit _ _ _
                  |vi v Hmiss Hfull Hat Hfr1 Hhit _ Hrep _].
  - (* the smaller table hits, so the larger one does *)
    apply indexOf_Some in Hh as (Hh & _ & _).
    assert (Some p ∈ fr') as Hin' by (apply Hsub; by eapply list_elem_of_lookup_2).
    destruct Hd' as [h' _ Hfr1' Hhit' _ _ _|e' Hmiss' _ _ _ _ _ _
                     |vi' v' Hmiss' _ _ _ _ _ _ _];
      [|by apply indexOf_None in Hmiss'|by apply indexOf_None in Hmiss'].
    split; [|done]. apply Hpair. by subst fr1 fr1'.
  - (* the smaller table fills an empty slot *)
    apply indexOf_Some in He as (He & Hlt & _).
    apply indexOf_None in Hmiss.
    split; [|by rewrite Hhit]. apply Hpair.
    assert (None ∈ fr) as Hnone by by eapply list_elem_of_lookup_2.
    assert (∀ q, Some q ∈ fr1 ↔ q = p ∨ Some q ∈ fr) as Hres1.
    { intros q. subst fr1. rewrite elem_of_insert_slot by done. split.
      - intros [[= ->]|(k & _ & Hk)]; [by left|right].
        by eapply list_elem_of_lookup_2.
      - intros [->|Hq]; [by left|right].
        apply list_elem_of_lookup in Hq as [k Hk]. exists k. split; [|done].
        intros ->. congruence. }
    destruct Hd' as [h' Hh' Hfr1' _ _ _ _|e' Hmiss' He' Hfr1' _ _ _ _
                     |vi' v' Hmiss' Hfull' Hat' Hfr1' _ _ _ _].
    + apply indexOf_Some in Hh' as (Hh' & _ & _).
      assert (Some p ∈ fr') as Hin' by by eapply list_elem_of_lookup_2.
      subst fr1'. split.
      * intros q [->|Hq]%Hres1; auto.
      * intros _ q Hq. apply Hres1. right. by apply Hsame.
    + apply indexOf_Some in He' as (He' & Hlt' & _).
      assert (∀ q, Some q ∈ fr1' ↔ q = p ∨ Some q ∈ fr') as Hres1'.
      { intros q. subst fr1'. rewrite elem_of_insert_slot by done. split.
        - intros [[= ->]|(k & _ & Hk)]; [by left|right].
          by eapply list_elem_of_lookup_2.
        - intros [->|Hq]; [by left|right].
          apply list_elem_of_lookup in Hq as [k Hk]. exists k. split; [|done].
          intros ->. congruence. }
      split.
      * intros q [->|Hq]%Hres1; apply Hres1'; auto.
      * intros _ q [->|Hq]%Hres1'; apply Hres1; auto.
    + (* the larger table is full while the smaller is not: impossible *)
      exfalso.
      assert (occupied fr = size (list_to_set (omap id fr) : gset Z)) as Hocc.
      { apply occupied_size; [done|].
        intros q. rewrite elem_of_list_to_set, list_elem_of_omap. split.
        - intros Hq. by exists (Some q).
        - intros (x & Hx & Hid). simpl in Hid. by subst x. }
      assert (occupied fr' = size (list_to_set (omap id fr) : gset Z)) as Hocc'.
      { apply occupied_size; [done|].
        intros q. rewrite elem_of_list_to_set, list_elem_of_omap. split.
        - intros Hq. exists (Some q). split; [by apply Hsame|done].
        - intros (x & Hx & Hid). simpl in Hid. subst x. by apply Hsub. }
      apply indexOf_None, occupied_full in Hfull'.
      pose proof (occupied_le_length fr) as Hle.
      assert (occupied fr ≠ length fr) as Hne.
      { intros Heq. by apply occupied_full in Heq. }
      lia.
  - (* the smaller table evicts *)
    apply indexOf_None in Hmiss. apply indexOf_None in Hfull.
    pose proof (lookup_lt_Some _ _ _ Hat) as Hvi.
    split; [|by rewrite Hhit]. apply Hpair.
    assert (None ∉ fr1) as Hfull1.
    { subst fr1. rewrite elem_of_insert_slot by done.
      intros [?|(k & _ & Hk)]; [done|]. apply Hfull. by eapply list_elem_of_lookup_2. }
    split; [|done]. intros q Hq.
    subst fr1. rewrite elem_of_insert_slot in Hq by done.
    destruct Hd' as [h' Hh' Hfr1' _ _ _ _|e' Hmiss' He' Hfr1' _ _ _ _
                     |vi' v' Hmiss' Hfull' Hat' Hfr1' _ _ Hrep' _].
    + apply indexOf_Some in Hh' as (Hh' & _ & _). subst fr1'.
      destruct Hq as [[= ->]|(k & _ & Hk)]; [by eapply list_elem_of_lookup_2|].
      apply Hsub. by eapply list_elem_of_lookup_2.
    + apply indexOf_Some in He' as (He' & Hlt' & _). subst fr1'.
      rewrite elem_of_insert_slot by done.
      destruct Hq as [[= ->]|(k & _ & Hk)]; [by left|right].
      assert (Some q ∈ fr') as Hq' by (apply Hsub; by eapply list_elem_of_lookup_2).
      apply list_elem_of_lookup in Hq' as [k' Hk']. exists k'. split; [|done].
      intros ->. congruence.
    + pose proof (lookup_lt_Some _ _ _ Hat') as Hvi'. subst fr1'.
      rewrite elem_of_insert_slot by done.
      destruct Hq as [[= ->]|(k & Hkvi & Hk)]; [by left|right].
      assert (Some q ∈ fr) as Hin by by eapply list_elem_of_lookup_2.
      assert (q ≠ v) as Hqv.
      { intros ->. apply Hkvi. by apply (Hnd k vi v). }
      pose proof (Hsub q Hin) as Hq'.
      apply list_elem_of_lookup in Hq' as [k' Hk']. exists k'. split; [|done].
      intros ->. assert (q = v') as -> by congruence.
      (* the two victims differ, and each was used after the other *)
      destruct (lruBody_evicts_oldest c refs i p st st1 s v HIc Hst Hb Hrep)
        as (tw & _ & _ & Hlast & Hnewer).
      destruct (lruBody_evicts_oldest c' refs i p st' st1' s' v' HIc' Hst' Hb' Hrep')
        as (tw' & _ & _ & Hlast' & Hnewer').
      rewrite <- Efr in Hnewer. rewrite <- Efr' in Hnewer'.
      destruct (Hnewer v' Hin Hqv) as (t1 & Ht1 & Hu1).
      assert (Some v ∈ fr') as Hv' by (apply Hsub; by eapply list_elem_of_lookup_2).
      destruct (Hnewer' v Hv' ltac:(done)) as (t2 & Ht2 & Hu2).
      destruct (decide (t1 ≤ tw')) as [?|?]; [|by apply (Hlast' t1 ltac:(lia))].
      destruct (decide (t2 ≤ tw)) as [?|?]; [|by apply (Hlast t2 ltac:(lia))].
      lia.
Qed.

Lemma lruRuns_included c c' refs :
  c ≤ c' →
  ∀ i rest st stf ss, trace (lruBody c) i rest st stf ss →
  ∀ st' stf' ss', trace (lruBody c') i rest st' stf' ss' →
    drop i refs = rest → lruPair c c' refs i st st' →
    Forall2 (λ s s', (hit s = true → hit s' = true) ∧
                     ∀ q, Some q ∈ frames s → Some q ∈ frames s') ss ss'.
Proof.
  intros Hcc i rest st stf ss Ht.
  induction Ht as [|i p rest st st1 s stf ss Hb Hs _ IH];
    intros st' stf' ss' Ht' Hdrop Hpair.
  - inversion Ht'; subst. constructor.
  - inversion Ht' as [|? ? ? ? st1' s' ? ss1' Hb' Hs' Hrest']; subst.
    assert (refs !! i = Some p) as Hp.
    { pose proof (lookup_drop refs i 0) as Hl.
      rewrite Hdrop, Nat.add_0_r in Hl. by rewrite <- Hl. }
    assert (drop (S i) refs = rest) as Hdrop'.
    { replace (S i) with (i + 1) by lia. by rewrite <- drop_drop, Hdrop. }
    destruct (lruPair_step c c' refs i p st st' st1 st1' s s' Hcc Hpair Hp Hb Hb')
      as [Hpair1 Hhit].
    constructor; [|by eapply IH].
    split; [done|].
    destruct Hs as [_ _ Hfr _ _ _ _]. destruct Hs' as [_ _ Hfr' _ _ _ _].
    rewrite Hfr, Hfr'. by destruct Hpair1 as (_ & _ & _ & _ & Hsub & _).
Qed.

Lemma faults_follow_hits ss ss' :
  Forall2 (λ s s', hit s = true → hit s' = true) ss ss' →
  (∀ s, s ∈ ss → hit s = negb (fault s)) →
  (∀ s, s ∈ ss' → hit s = negb (fault s)) →
  countFaults ss' ≤ countFaults ss.
Proof.
  induction 1 as [|s s' ss ss' Hh _ IH]; intros Hf Hf'; [done|].
  rewrite !countFaults_cons.
  pose proof (Hf s ltac:(left)) as Hs. pose proof (Hf' s' ltac:(left)) as Hs'.
  specialize (IH (λ x Hx, Hf x (list_elem_of_further _ _ _ Hx))
                 (λ x Hx, Hf' x (list_elem_of_further _ _ _ Hx))).
  destruct (fault s), (fault s'); simpl in *; try lia.
  rewrite Hs' in Hh. by specialize (Hh Hs).
Qed.

(** X23.  LRU has no anomaly of the FIFO kind.  On the same references, an
    LRU table with more slots holds, after every step, every page the
    smaller table holds; each reference that hits in the smaller table hits
    in the larger one, and the larger table has at most the faults of the
    smaller. *)
Theorem lru_more_slots_never_hurt (v v' : jsval) (c c' : Z) (refs : list Z) :
  isCapacity v c → isCapacity v' c' → (1 ≤ c ≤ c')%Z → (c' ≤ 50)%Z → refs ≠ [] →
  ∃ o o', simulate "LRU" v refs = Ok o ∧ simulate "LRU" v' refs = Ok o' ∧
          (∀ k s s', steps o !! k = Some s → steps o' !! k = Some s' →
             (hit s = true → hit s' = true) ∧
             ∀ q, Some q ∈ frames s → Some q ∈ frames s') ∧
          faults (summary o') ≤ faults (summary o).
Proof.
  intros Hv Hv' Hc Hc' Hrefs.
  rewrite !simulate_checks,
    (capacityCheck_true v c Hv ltac:(lia)), (toCount_capacity v c Hv),
    (capacityCheck_true v' c' Hv' ltac:(lia)), (toCount_capacity v' c' Hv').
  destruct refs as [|r refs']; [done|]. set (refs := r :: refs').
  simpl String.eqb. cbv iota.
  assert (1 ≤ Z.to_nat c) as Hfc by lia.
  assert (1 ≤ Z.to_nat c') as Hfc' by lia.
  destruct (simulateLRU_run (Z.to_nat c) refs Hfc) as (stf & ss & Ht & _ & ->).
  destruct (simulateLRU_run (Z.to_nat c') refs Hfc') as (stf' & ss' & Ht' & _ & ->).
  eexists _, _. split; [done|]. split; [done|]. simpl.
  assert (lruPair (Z.to_nat c) (Z.to_nat c') refs 0
            (lruInit (Z.to_nat c)) (lruInit (Z.to_nat c'))) as Hpair.
  { split_and!; [by apply lruInv_init|by apply lruInv_init| | | |].
    - intros q t Hq. simpl in Hq. by rewrite lookup_empty in Hq.
    - intros q t Hq. simpl in Hq. by rewrite lookup_empty in Hq.
    - simpl. intros q Hq. by apply elem_of_replicate in Hq as [? _].
    - simpl. intros _ q Hq. by apply elem_of_replicate in Hq as [? _]. }
  pose proof (lruRuns_included (Z.to_nat c) (Z.to_nat c') refs ltac:(lia)
                0 refs _ _ _ Ht _ _ _ Ht' eq_refl Hpair) as Hall.
  split.
  - intros k s s' Hs Hs'.
    by destruct (Forall2_lookup_lr _ _ _ _ _ _ Hall Hs Hs').
  - pose proof (trace_counts _ _ _ _ _ _ Ht) as [_ Hf].
    pose proof (trace_counts _ _ _ _ _ _ Ht') as [_ Hf'].
    simpl in Hf, Hf'. rewrite Hf, Hf'.
    apply faults_follow_hits.
    + eapply Forall2_impl; [exact Hall|]. by intros s s' [? _].
    + intros s. exact (trace_flags _ _ _ _ _ _ s Ht).
    + intros s. exact (trace_flags _ _ _ _ _ _ s Ht').
Qed.

Lemma lru_more_slots_never_hurt_witness :
  ∃ o o', simulate "LRU" (jsInt 3) beladySequence = Ok o ∧
          simulate "LRU" (jsInt 4) beladySequence = Ok o' ∧
          (∀ k s s', steps o !! k = Some s → steps o' !! k = Some s' →
             (hit s = true → hit s' = true) ∧
             ∀ q, Some q ∈ frames s → Some q ∈ frames s') ∧
          faults (summary o') ≤ faults (summary o).
Proof.
  apply (lru_more_slots_never_hurt (jsInt 3) (jsInt 4) 3 4 beladySequence).
  - exists (inject_Z 3). split; reflexivity.
  - exists (inject_Z 4). split; reflexivity.
  - lia.
  - lia.
  - discriminate.
Defined.
